(** * Focus management of the display (renpy/display/focus.py)

    A shallow embedding of the focus module: the segment distances, the
    focus registry (the globals [grab] and [focus_list], the focused widget
    of the current context), the reconciliation pass [before_interact], and
    the focus-changing operations [change_focus], [mouse_handler],
    [focus_extreme] and [focus_nearest].

    Numbers.  The module is written for Python numbers: region coordinates
    are pixels, the anchor fractions are 0.1 and 0.9, the distances mix
    both.  They are embedded as rationals [Q], compared with [<=], [<] and
    [==] of [Q]; floating point rounding is not modelled there.  Rounding
    does decide which of several candidates focus_nearest takes, so that
    function and the distance functions are embedded a second time over
    the arithmetic of a machine ([Machine]), of which the rationals
    ([exact]) and the IEEE doubles of Python ([doubles]) are instances;
    what is said of the choice among candidates is said there.

    Objects.  A widget is its object identity ([Widget := nat]); the
    attributes the module reads and writes on widgets live in the state.
    A [Focus] object carries its identity in [oid], since [focus_nearest]
    compares [Focus] objects with [is].  Widgets are compared with [==]
    and [is] alike, by identity, and widgets and [Focus] objects count as
    true where the module tests them ([if grab:], [if current:],
    [if max_focus:], [new_focus or placeless]): only [None] is false
    there.

    Exceptions.  A function that can raise returns a [result]; the two
    exceptions that can come up are the [AttributeError] of reading
    [full_focus_name] on a widget that never got one, and the
    [AssertionError] of the distance functions. *)

From Stdlib Require Import QArith Lqa Lia.
From Stdlib Require PrimFloat Uint63 SpecFloat FloatOps FloatAxioms.
From stdpp Require Import gmap strings list fin_maps.

Local Open Scope Q_scope.

(** ** Python comparisons on numbers *)

Definition Qleb (a b : Q) : bool := Qle_bool a b.
Definition Qltb (a b : Q) : bool := negb (Qle_bool b a).

(** [a <= b <= c <= d], a chained comparison. *)
Definition chain4 (a b c d : Q) : bool := Qleb a b && Qleb b c && Qleb c d.

(** ** Segment distances *)

(** [renpy.config] is not part of the module; the one setting read here is
    taken as a parameter of the functions that use it. *)
Record Config := { focus_crossrange_penalty : Q }.

(** def points_dist(x0, y0, x1, y1, xfudge, yfudge) *)
Definition points_dist (x0 y0 x1 y1 xfudge yfudge : Q) : Q :=
  ((x0 - x1) * xfudge) ^ 2 + ((y0 - y1) * yfudge) ^ 2.

(** def horiz_line_dist(ax0, ay0, ax1, ay1, bx0, by0, bx1, by1).
    [None] is the final [assert False]. *)
Definition horiz_line_dist (cfg : Config)
    (ax0 ay0 ax1 ay1 bx0 by0 bx1 by1 : Q) : option Q :=
  if chain4 bx0 ax0 ax1 bx1 ||
     chain4 ax0 bx0 bx1 ax1 ||
     chain4 ax0 bx0 ax1 bx1 ||
     chain4 bx0 ax0 bx1 ax1
  then Some ((ay0 - by0) ^ 2)
  else if chain4 ax0 ax1 bx0 bx1
  then Some (points_dist ax1 ay1 bx0 by0 (focus_crossrange_penalty cfg) 1)
  else if chain4 bx0 bx1 ax0 ax1
  then Some (points_dist ax0 ay0 bx1 by1 (focus_crossrange_penalty cfg) 1)
  else None.

(** def verti_line_dist(ax0, ay0, ax1, ay1, bx0, by0, bx1, by1) *)
Definition verti_line_dist (cfg : Config)
    (ax0 ay0 ax1 ay1 bx0 by0 bx1 by1 : Q) : option Q :=
  if chain4 by0 ay0 ay1 by1 ||
     chain4 ay0 by0 by1 ay1 ||
     chain4 ay0 by0 ay1 by1 ||
     chain4 by0 ay0 by1 ay1
  then Some ((ax0 - bx0) ^ 2)
  else if chain4 ay0 ay1 by0 by1
  then Some (points_dist ax1 ay1 bx0 by0 1 (focus_crossrange_penalty cfg))
  else if chain4 by0 by1 ay0 ay1
  then Some (points_dist ax0 ay0 bx1 by1 1 (focus_crossrange_penalty cfg))
  else None.

(** Two results of a distance function denote the same number. *)
Definition same_dist (r1 r2 : option Q) : Prop :=
  match r1, r2 with
  | Some d1, Some d2 => d1 == d2
  | None, None => True
  | _, _ => False
  end.

(** ** Widgets, focus objects and the registry *)

(** A widget is known by its object identity. *)
Abbreviation Widget := nat (only parsing).

(** The focus name a widget is enumerated with; [None] is Python's [None]. *)
Abbreviation Name := (option string) (only parsing).

(** [f.full_focus_name], the pair [n, serial]. *)
Abbreviation NameKey := (option string * nat)%type (only parsing).

(** class Focus.  [oid] is the identity of the object.  [x] is [None] for a
    focus without a place; [y], [w] and [h] are read only when [x] is a
    number. *)
Record Focus := {
  oid : nat;
  widget : Widget;
  arg : nat;
  x : option Q;
  y : Q;
  w : Q;
  h : Q
}.

(** What the module does to the objects around it, in program order: the
    calls [f.unfocus()] and [f.focus(default)] on widgets, and the writes
    of [scene_lists.focused] made by [set_focused]. *)
Inductive Call :=
  | CallUnfocus (f : Widget)
  | CallFocus (f : Widget) (by_default : bool)
  | CallSetFocused (f : option Widget).

(** The globals of the module and the attributes of the objects it works on. *)
Record State := {
  grab : option Widget;
  focus_list : list Focus;
  (** renpy.game.context().scene_lists.focused *)
  focused : option Widget;
  (** the attribute [full_focus_name] of each widget that has one *)
  full_focus_name : gmap nat (option string * nat);
  (** the attribute [default] of each widget *)
  default : Widget -> bool;
  calls : list Call
}.

Inductive exn := AttributeError | AssertionError.

(** A computation either returns, or raises; the state reached is kept in
    both cases. *)
Inductive result (A : Type) :=
  | Ok (a : A) (s : State)
  | Raise (e : exn) (s : State).
Arguments Ok {A} a s.
Arguments Raise {A} e s.

Definition M (A : Type) := State -> result A.

Definition ret {A} (a : A) : M A := fun s => Ok a s.

Definition bind {A B} (m : M A) (k : A -> M B) : M B :=
  fun s => match m s with
           | Ok a s' => k a s'
           | Raise e s' => Raise e s'
           end.

Definition raise {A} (e : exn) : M A := fun s => Raise e s.

Notation "'do' v <- m ; k" := (bind m (fun v => k))
  (at level 10, v name, m at level 100, k at level 200, only parsing).
Notation "'run' m ; k" := (bind m (fun _ => k))
  (at level 10, m at level 100, k at level 200, only parsing).

Definition state_of {A} (r : result A) : State :=
  match r with Ok _ s => s | Raise _ s => s end.

Definition record_call (c : Call) : M unit :=
  fun s => Ok tt {| grab := grab s; focus_list := focus_list s;
                    focused := focused s;
                    full_focus_name := full_focus_name s;
                    default := default s;
                    calls := calls s ++ [c] |}.

(** def set_focused(widget) *)
Definition set_focused (widget : option Widget) : M unit :=
  fun s => Ok tt {| grab := grab s; focus_list := focus_list s;
                    focused := widget;
                    full_focus_name := full_focus_name s;
                    default := default s;
                    calls := calls s ++ [CallSetFocused widget] |}.

(** def get_focused() *)
Definition get_focused : M (option Widget) := fun s => Ok (focused s) s.

(** def set_grab(widget) *)
Definition set_grab (widget : option Widget) : M unit :=
  fun s => Ok tt {| grab := widget; focus_list := focus_list s;
                    focused := focused s;
                    full_focus_name := full_focus_name s;
                    default := default s;
                    calls := calls s |}.

(** def get_grab() *)
Definition get_grab : M (option Widget) := fun s => Ok (grab s) s.

(** def take_focuses(fl) *)
Definition take_focuses (fl : list Focus) : M unit :=
  fun s => Ok tt {| grab := grab s; focus_list := fl;
                    focused := focused s;
                    full_focus_name := full_focus_name s;
                    default := default s;
                    calls := calls s |}.

Definition get_focus_list : M (list Focus) := fun s => Ok (focus_list s) s.

(** f.unfocus() and f.focus(default) *)
Definition unfocus (f : Widget) : M unit := record_call (CallUnfocus f).
Definition focus (f : Widget) (by_default : bool) : M unit :=
  record_call (CallFocus f by_default).

(** Reading and writing the attributes of a widget. *)
Definition get_full_focus_name (f : Widget) : M (option string * nat) :=
  fun s => match full_focus_name s !! f with
           | Some k => Ok k s
           | None => Raise AttributeError s
           end.

Definition put_names (names : gmap nat (option string * nat)) : M unit :=
  fun s => Ok tt {| grab := grab s; focus_list := focus_list s;
                    focused := focused s;
                    full_focus_name := names;
                    default := default s;
                    calls := calls s |}.

Definition get_names : M (gmap nat (option string * nat)) :=
  fun s => Ok (full_focus_name s) s.

Definition get_default : M (Widget -> bool) := fun s => Ok (default s) s.

(** ** Reconciliation: before_interact *)

(** The loop that assigns a full name to each focusable:
<<
    namecount = { }
    for f, n in fwn:
        serial = namecount.get(n, 0)
        namecount[n] = serial + 1
        f.full_focus_name = n, serial
>>
    [names] holds the attribute [full_focus_name] of the widgets. *)
Fixpoint assign_names (fwn : list (Widget * Name))
    (namecount : gmap (option string) nat)
    (names : gmap nat (option string * nat)) : gmap nat (option string * nat) :=
  match fwn with
  | [] => names
  | (f, n) :: rest =>
      let serial := from_option id 0%nat (namecount !! n) in
      assign_names rest (<[n := S serial]> namecount) (<[f := (n, serial)]> names)
  end.

(** The search for a widget with the full name of the current one:
<<
    for f, n in fwn:
        if f.full_focus_name == current.full_focus_name:
            ... break
>>
    [Some f] is the widget the loop breaks at, [None] the [else] branch. *)
Fixpoint find_same_name (fwn : list (Widget * Name))
    (names : gmap nat (option string * nat))
    (current_name : option string * nat) : option Widget :=
  match fwn with
  | [] => None
  | (f, n) :: rest =>
      if bool_decide (names !! f = Some current_name) then Some f
      else find_same_name rest names current_name
  end.

(** The search for the default widget:
<<
    for f, n in fwn:
        if f.default:
            ... break
>> *)
Fixpoint find_default (fwn : list (Widget * Name)) (dflt : Widget -> bool)
    : option Widget :=
  match fwn with
  | [] => None
  | (f, n) :: rest => if dflt f then Some f else find_default rest dflt
  end.

(** f is not current *)
Definition is_not (f : Widget) (current : option Widget) : bool :=
  match current with
  | Some c => negb (Nat.eqb f c)
  | None => true
  end.

(** The last loop, which marks all other widgets as unfocused. *)
Fixpoint unfocus_others (fwn : list (Widget * Name)) (current : option Widget)
    : M unit :=
  match fwn with
  | [] => ret tt
  | (f, n) :: rest =>
      run (if is_not f current then unfocus f else ret tt);
      unfocus_others rest current
  end.

(** def before_interact(root).  [root] is given by what
    [root.find_focusable(callback, None)] reports to the callback: the
    focusable widgets with their names, in the order of the traversal. *)
Definition before_interact (root : list (Widget * Name)) : M unit :=
  (* Clear out an old grab. *)
  run set_grab None;
  let fwn := root in
  (* Assign a full name to each focusable. *)
  do names <- get_names;
  run put_names (assign_names fwn ∅ names);
  (* If there's something with the same full name as the current widget,
     it becomes the new current widget. *)
  do current <- get_focused;
  do current <-
    match current with
    | Some c =>
        do current_name <- get_full_focus_name c;
        do names <- get_names;
        match find_same_name fwn names current_name with
        | Some f => run set_focused (Some f); ret (Some f)
        | None => ret None
        end
    | None => ret None
    end;
  (* Otherwise, focus the default widget, or nothing. *)
  do current <-
    match current with
    | None =>
        do dflt <- get_default;
        match find_default fwn dflt with
        | Some f => run set_focused (Some f); ret (Some f)
        | None => run set_focused None; ret None
        end
    | Some c => ret (Some c)
    end;
  (* Finally, mark the current widget as the focused widget, and
     all other widgets as unfocused. *)
  run unfocus_others fwn current;
  match current with
  | Some c => focus c true
  | None => ret tt
  end.

(** ** change_focus *)

(** Modelled from the spec: the value of the parameter [default] of a
    widget's [focus] method when a call leaves it out, as [widget.focus()]
    does; the method belongs to the widget classes, outside this module.
    The spec has the target focused with [default=false]. *)
Definition focus_default_argument : bool := false.

(** def change_focus(newfocus) *)
Definition change_focus (newfocus : option Focus) : M unit :=
  do g <- get_grab;
  match g with
  | Some _ => ret tt
  | None =>
      let target :=
        match newfocus with
        | None => None
        | Some nf => Some (widget nf)
        end in
      do current <- get_focused;
      (* Nothing to do. *)
      if bool_decide (current = target) then ret tt
      else
        run match current with
            | Some c => unfocus c
            | None => ret tt
            end;
        run match target with
            | Some t => focus t focus_default_argument
            | None => ret tt
            end;
        set_focused target
  end.

(** ** mouse_handler *)

(** A mouse event, with its attribute [pos]. *)
Record MouseEvent := { pos : Q * Q }.

(** f.x <= x <= f.x + f.w and f.y <= y <= f.y + f.h, for a focus whose
    [x] is the number [fx]. *)
Definition inside (f : Focus) (fx px py : Q) : bool :=
  (Qleb fx px && Qleb px (fx + w f)) && (Qleb (y f) py && Qleb py (y f + h f)).

(** The loop of mouse_handler; the result is the final [newfocus].
<<
    for f in focus_list:
        if f.x is None:
            default = f
            continue
        if f.x <= x <= f.x + f.w and f.y <= y <= f.y + f.h:
            newfocus = f
            break
    else:
        newfocus = default
>> *)
Fixpoint mouse_loop (fl : list Focus) (px py : Q) (dflt : option Focus)
    : option Focus :=
  match fl with
  | [] => dflt
  | f :: rest =>
      match x f with
      | None => mouse_loop rest px py (Some f)
      | Some fx =>
          if inside f fx px py then Some f
          else mouse_loop rest px py dflt
      end
  end.

(** def mouse_handler(ev) *)
Definition mouse_handler (ev : MouseEvent) : M unit :=
  let '(px, py) := pos ev in
  do fl <- get_focus_list;
  let newfocus := mouse_loop fl px py None in
  change_focus newfocus.

(** ** focus_extreme *)

(** f.x * xmul + f.y * ymul + f.w * wmul + f.h * hmul, for a focus whose
    [x] is the number [fx]. *)
Definition score_at (f : Focus) (fx xmul ymul wmul hmul : Q) : Q :=
  fx * xmul + y f * ymul + w f * wmul + h f * hmul.

(** The loop of focus_extreme, from given values of [max_focus] and
    [max_score]; the result is the final [max_focus].
<<
    for f in focus_list:
        if not f.x:
            continue
        score = ...
        if score > max_score:
            max_score = score
            max_focus = f
>> *)
Fixpoint extreme_loop (fl : list Focus) (xmul ymul wmul hmul : Q)
    (max_focus : option Focus) (max_score : Q) : option Focus :=
  match fl with
  | [] => max_focus
  | f :: rest =>
      match x f with
      | None =>
          (* not f.x: None is false *)
          extreme_loop rest xmul ymul wmul hmul max_focus max_score
      | Some fx =>
          if Qeq_bool fx 0
          then (* not f.x: zero is false *)
            extreme_loop rest xmul ymul wmul hmul max_focus max_score
          else
            let score := score_at f fx xmul ymul wmul hmul in
            if Qltb max_score score
            then extreme_loop rest xmul ymul wmul hmul (Some f) score
            else extreme_loop rest xmul ymul wmul hmul max_focus max_score
      end
  end.

(** -(65536**2) *)
Definition initial_max_score : Q := - (65536 ^ 2).

(** def focus_extreme(xmul, ymul, wmul, hmul) *)
Definition focus_extreme (xmul ymul wmul hmul : Q) : M unit :=
  do fl <- get_focus_list;
  let max_focus := extreme_loop fl xmul ymul wmul hmul None initial_max_score in
  match max_focus with
  | Some f => change_focus (Some f)
  | None => ret tt
  end.

(** ** focus_nearest *)

(** The type of [horiz_line_dist] and [verti_line_dist]. *)
Abbreviation LineDist := (Q -> Q -> Q -> Q -> Q -> Q -> Q -> Q -> option Q)
  (only parsing).

(** What the main loop of focus_nearest carries from one iteration to the
    next. *)
Record Nearest := {
  placeless : option Focus;
  new_focus : option Focus;
  new_focus_dist : Q
}.

(** The main loop of focus_nearest, for a current focus [from_focus] whose
    [x] is a number and whose anchor points are [fx0, fy0] and [fx1, fy1].
    [None] is an exception raised by [line_dist].
<<
    for f in focus_list:
        if f is from_focus:
            continue
        if f.x is None:
            placeless = f
            continue
        if not condition(from_focus, f):
            continue
        tx0 = f.x + f.w * to_x0
        ...
        dist = line_dist(fx0, fy0, fx1, fy1, tx0, ty0, tx1, ty1)
        if dist < new_focus_dist:
            new_focus = f
            new_focus_dist = dist
>> *)
Fixpoint nearest_loop (fl : list Focus) (from_focus : Focus)
    (fx0 fy0 fx1 fy1 to_x0 to_y0 to_x1 to_y1 : Q)
    (line_dist : LineDist) (condition : Focus -> Focus -> bool)
    (acc : Nearest) : option Nearest :=
  match fl with
  | [] => Some acc
  | f :: rest =>
      let continue :=
        nearest_loop rest from_focus fx0 fy0 fx1 fy1 to_x0 to_y0 to_x1 to_y1
          line_dist condition in
      if Nat.eqb (oid f) (oid from_focus) then continue acc
      else
        match x f with
        | None =>
            continue {| placeless := Some f; new_focus := new_focus acc;
                        new_focus_dist := new_focus_dist acc |}
        | Some fx =>
            if negb (condition from_focus f) then continue acc
            else
              let tx0 := fx + w f * to_x0 in
              let ty0 := y f + h f * to_y0 in
              let tx1 := fx + w f * to_x1 in
              let ty1 := y f + h f * to_y1 in
              match line_dist fx0 fy0 fx1 fy1 tx0 ty0 tx1 ty1 with
              | None => None
              | Some dist =>
                  if Qltb dist (new_focus_dist acc)
                  then continue {| placeless := placeless acc;
                                   new_focus := Some f;
                                   new_focus_dist := dist |}
                  else continue acc
              end
        end
  end.

(** (65536.0 * renpy.config.focus_crossrange_penalty) ** 2 *)
Definition initial_focus_dist (cfg : Config) : Q :=
  (65536 * focus_crossrange_penalty cfg) ^ 2.

(** a or b, on objects that are all true *)
Definition or_else {A} (a b : option A) : option A :=
  match a with
  | Some v => Some v
  | None => b
  end.

(** The first focus of the list whose widget is [current]:
<<
    for f in focus_list:
        if f.widget == current:
            from_focus = f
            break
>> *)
Fixpoint find_current (fl : list Focus) (current : Widget) : option Focus :=
  match fl with
  | [] => None
  | f :: rest =>
      if Nat.eqb (widget f) current then Some f else find_current rest current
  end.

(** def focus_nearest(from_x0, from_y0, from_x1, from_y1,
                      to_x0, to_y0, to_x1, to_y1,
                      line_dist, condition, xmul, ymul, wmul, hmul) *)
Definition focus_nearest (cfg : Config)
    (from_x0 from_y0 from_x1 from_y1 to_x0 to_y0 to_x1 to_y1 : Q)
    (line_dist : LineDist) (condition : Focus -> Focus -> bool)
    (xmul ymul wmul hmul : Q) : M unit :=
  do fl <- get_focus_list;
  match fl with
  | [] => ret tt
  | first :: _ =>
      (* No widget focused. *)
      do current <- get_focused;
      match current with
      | None => change_focus (Some first)
      | Some current =>
          (* Find the current focus. *)
          match find_current fl current with
          | None =>
              (* If we can't pick something. *)
              change_focus (Some first)
          | Some from_focus =>
              match x from_focus with
              | None =>
                  (* If placeless, focus_extreme. *)
                  focus_extreme xmul ymul wmul hmul
              | Some from_x =>
                  let fx0 := from_x + w from_focus * from_x0 in
                  let fy0 := y from_focus + h from_focus * from_y0 in
                  let fx1 := from_x + w from_focus * from_x1 in
                  let fy1 := y from_focus + h from_focus * from_y1 in
                  match nearest_loop fl from_focus fx0 fy0 fx1 fy1
                          to_x0 to_y0 to_x1 to_y1 line_dist condition
                          {| placeless := None; new_focus := None;
                             new_focus_dist := initial_focus_dist cfg |} with
                  | None => raise AssertionError
                  | Some r =>
                      (* If we couldn't find anything, try the placeless
                         focus. *)
                      match or_else (new_focus r) (placeless r) with
                      | Some nf => change_focus (Some nf)
                      | None => ret tt
                      end
                  end
              end
          end
      end
  end.

(** ** key_handler *)

(** The conditions of the four directions, on focuses whose [x] is a
    number; they are only called on such. *)
Definition x_of (f : Focus) : Q := from_option id 0 (x f).

(** The four calls of key_handler, one for each direction. *)
Definition focus_right (cfg : Config) : M unit :=
  focus_nearest cfg (9#10) (1#10) (9#10) (9#10)
                (1#10) (1#10) (1#10) (9#10)
                (verti_line_dist cfg)
                (fun old new => Qleb (x_of old + w old) (x_of new))
                (-1) 0 0 0.

Definition focus_left (cfg : Config) : M unit :=
  focus_nearest cfg (1#10) (1#10) (1#10) (9#10)
                (9#10) (1#10) (9#10) (9#10)
                (verti_line_dist cfg)
                (fun old new => Qleb (x_of new + w new) (x_of old))
                1 0 1 0.

Definition focus_up (cfg : Config) : M unit :=
  focus_nearest cfg (1#10) (1#10) (9#10) (1#10)
                (1#10) (9#10) (9#10) (9#10)
                (horiz_line_dist cfg)
                (fun old new => Qleb (y new + h new) (y old))
                0 1 0 1.

Definition focus_down (cfg : Config) : M unit :=
  focus_nearest cfg (1#10) (9#10) (9#10) (9#10)
                (1#10) (1#10) (9#10) (1#10)
                (horiz_line_dist cfg)
                (fun old new => Qleb (y old + h old) (y new))
                0 (-1) 0 0.

(** def key_handler(ev).  [map_event name] is
    [renpy.display.behavior.map_event(ev, name)]. *)
Definition key_handler (cfg : Config) (map_event : string -> bool) : M unit :=
  run (if map_event "focus_right"%string then focus_right cfg else ret tt);
  run (if map_event "focus_left"%string then focus_left cfg else ret tt);
  run (if map_event "focus_up"%string then focus_up cfg else ret tt);
  if map_event "focus_down"%string then focus_down cfg else ret tt.

(** ** event_handler *)

(** A pygame event, by what the module asks of it: its position when its
    type is one of MOUSEMOTION, MOUSEBUTTONUP and MOUSEBUTTONDOWN, and the
    names it is mapped to. *)
Record Event := {
  mouse : option MouseEvent;
  mapped : string -> bool
}.

(** def event_handler(ev) *)
Definition event_handler (cfg : Config) (ev : Event) : M unit :=
  run match mouse ev with
      | Some m => mouse_handler m
      | None => ret tt
      end;
  key_handler cfg (mapped ev).

(** * focus_nearest in the arithmetic of the machine

    The attributes of a region are integers, and focus_nearest mixes them
    with the fractions 0.1 and 0.9 and with 65536.0: the anchor points,
    the distances and the threshold of its main loop are floating point
    numbers, and which region is nearest is decided by [<] on these.  The
    functions of this part are the distance functions and focus_nearest
    again, statement for statement, over the arithmetic of a machine
    given by its operations. *)

(** The numbers of a machine and the operations the module uses on them.
    [mof q] is the number that Python makes of an integer attribute or
    of a literal whose exact value is [q]; [msquare v] is [v ** 2]. *)
Record Machine := {
  mnum : Type;
  mof : Q -> mnum;
  madd : mnum -> mnum -> mnum;
  msub : mnum -> mnum -> mnum;
  mmul : mnum -> mnum -> mnum;
  msquare : mnum -> mnum;
  mlt : mnum -> mnum -> bool;
  mle : mnum -> mnum -> bool
}.

(** Exact arithmetic: the rationals of the first part. *)
Definition exact : Machine :=
  {| mnum := Q; mof := fun q => q;
     madd := Qplus; msub := Qminus; mmul := Qmult;
     msquare := fun v => v ^ 2;
     mlt := Qltb; mle := Qleb |}.

(** The double of an integer. *)
Definition float_of_Z (z : Z) : PrimFloat.float :=
  match z with
  | Z0 => PrimFloat.of_uint63 (Uint63.of_Z 0)
  | Zpos p => PrimFloat.of_uint63 (Uint63.of_Z (Zpos p))
  | Zneg p => PrimFloat.opp (PrimFloat.of_uint63 (Uint63.of_Z (Zpos p)))
  end.

(** IEEE 754 binary64, the floats of Python: an integer below 2**53 in
    size is its own double, a literal such as 0.9 is the double nearest
    to 9/10, and sums, differences and products are rounded to the
    nearest double.  [v ** 2] is computed by the pow of the C library,
    which is not specified to the last bit: it is a parameter here. *)
Definition doubles (square : PrimFloat.float -> PrimFloat.float) : Machine :=
  {| mnum := PrimFloat.float;
     mof := fun q => PrimFloat.div (float_of_Z (Qnum q))
                                   (float_of_Z (Zpos (Qden q)));
     madd := PrimFloat.add; msub := PrimFloat.sub; mmul := PrimFloat.mul;
     msquare := square;
     mlt := PrimFloat.ltb; mle := PrimFloat.leb |}.

(** The doubles with [v ** 2] as the rounded product of [v] by itself,
    the double nearest to the square. *)
Definition binary64 : Machine := doubles (fun v => PrimFloat.mul v v).

(** [a <= b <= c <= d] *)
Definition chain4_on (mach : Machine) (a b c d : mnum mach) : bool :=
  mle mach a b && mle mach b c && mle mach c d.

(** def points_dist(x0, y0, x1, y1, xfudge, yfudge) *)
Definition points_dist_on (mach : Machine)
    (x0 y0 x1 y1 xfudge yfudge : mnum mach) : mnum mach :=
  madd mach (msquare mach (mmul mach (msub mach x0 x1) xfudge))
         (msquare mach (mmul mach (msub mach y0 y1) yfudge)).

(** def horiz_line_dist(ax0, ay0, ax1, ay1, bx0, by0, bx1, by1) *)
Definition horiz_line_dist_on (mach : Machine) (cfg : Config)
    (ax0 ay0 ax1 ay1 bx0 by0 bx1 by1 : mnum mach) : option (mnum mach) :=
  if chain4_on mach bx0 ax0 ax1 bx1 ||
     chain4_on mach ax0 bx0 bx1 ax1 ||
     chain4_on mach ax0 bx0 ax1 bx1 ||
     chain4_on mach bx0 ax0 bx1 ax1
  then Some (msquare mach (msub mach ay0 by0))
  else if chain4_on mach ax0 ax1 bx0 bx1
  then Some (points_dist_on mach ax1 ay1 bx0 by0
               (mof mach (focus_crossrange_penalty cfg)) (mof mach 1))
  else if chain4_on mach bx0 bx1 ax0 ax1
  then Some (points_dist_on mach ax0 ay0 bx1 by1
               (mof mach (focus_crossrange_penalty cfg)) (mof mach 1))
  else None.

(** def verti_line_dist(ax0, ay0, ax1, ay1, bx0, by0, bx1, by1) *)
Definition verti_line_dist_on (mach : Machine) (cfg : Config)
    (ax0 ay0 ax1 ay1 bx0 by0 bx1 by1 : mnum mach) : option (mnum mach) :=
  if chain4_on mach by0 ay0 ay1 by1 ||
     chain4_on mach ay0 by0 by1 ay1 ||
     chain4_on mach ay0 by0 ay1 by1 ||
     chain4_on mach by0 ay0 by1 ay1
  then Some (msquare mach (msub mach ax0 bx0))
  else if chain4_on mach ay0 ay1 by0 by1
  then Some (points_dist_on mach ax1 ay1 bx0 by0
               (mof mach 1) (mof mach (focus_crossrange_penalty cfg)))
  else if chain4_on mach by0 by1 ay0 ay1
  then Some (points_dist_on mach ax0 ay0 bx1 by1
               (mof mach 1) (mof mach (focus_crossrange_penalty cfg)))
  else None.

(** What the main loop of focus_nearest carries from one iteration to the
    next, the distance being a number of the machine. *)
Record NearestOn (D : Type) := {
  placeless_on : option Focus;
  new_focus_on : option Focus;
  new_focus_dist_on : D
}.
Arguments placeless_on {D} _.
Arguments new_focus_on {D} _.
Arguments new_focus_dist_on {D} _.

(** The main loop of focus_nearest:
<<
    for f in focus_list:
        if f is from_focus:
            continue
        if f.x is None:
            placeless = f
            continue
        if not condition(from_focus, f):
            continue
        tx0 = f.x + f.w * to_x0
        ty0 = f.y + f.h * to_y0
        tx1 = f.x + f.w * to_x1
        ty1 = f.y + f.h * to_y1
        dist = line_dist(fx0, fy0, fx1, fy1, tx0, ty0, tx1, ty1)
        if dist < new_focus_dist:
            new_focus = f
            new_focus_dist = dist
>>
    [None] is an exception raised by [line_dist]. *)
Fixpoint nearest_loop_on (mach : Machine) (fl : list Focus) (from_focus : Focus)
    (fx0 fy0 fx1 fy1 to_x0 to_y0 to_x1 to_y1 : mnum mach)
    (line_dist : mnum mach -> mnum mach -> mnum mach -> mnum mach ->
                 mnum mach -> mnum mach -> mnum mach -> mnum mach -> option (mnum mach))
    (condition : Focus -> Focus -> bool)
    (acc : NearestOn (mnum mach)) : option (NearestOn (mnum mach)) :=
  match fl with
  | [] => Some acc
  | f :: rest =>
      let continue :=
        nearest_loop_on mach rest from_focus fx0 fy0 fx1 fy1
          to_x0 to_y0 to_x1 to_y1 line_dist condition in
      if Nat.eqb (oid f) (oid from_focus) then continue acc
      else
        match x f with
        | None =>
            continue {| placeless_on := Some f;
                        new_focus_on := new_focus_on acc;
                        new_focus_dist_on := new_focus_dist_on acc |}
        | Some fx =>
            if negb (condition from_focus f) then continue acc
            else
              let tx0 := madd mach (mof mach fx) (mmul mach (mof mach (w f)) to_x0) in
              let ty0 := madd mach (mof mach (y f)) (mmul mach (mof mach (h f)) to_y0) in
              let tx1 := madd mach (mof mach fx) (mmul mach (mof mach (w f)) to_x1) in
              let ty1 := madd mach (mof mach (y f)) (mmul mach (mof mach (h f)) to_y1) in
              match line_dist fx0 fy0 fx1 fy1 tx0 ty0 tx1 ty1 with
              | None => None
              | Some dist =>
                  if mlt mach dist (new_focus_dist_on acc)
                  then continue {| placeless_on := placeless_on acc;
                                   new_focus_on := Some f;
                                   new_focus_dist_on := dist |}
                  else continue acc
              end
        end
  end.

(** (65536.0 * renpy.config.focus_crossrange_penalty) ** 2 *)
Definition initial_focus_dist_on (mach : Machine) (cfg : Config) : mnum mach :=
  msquare mach (mmul mach (mof mach 65536) (mof mach (focus_crossrange_penalty cfg))).

(** def focus_nearest(from_x0, from_y0, from_x1, from_y1,
                      to_x0, to_y0, to_x1, to_y1,
                      line_dist, condition, xmul, ymul, wmul, hmul) *)
Definition focus_nearest_on (mach : Machine) (cfg : Config)
    (from_x0 from_y0 from_x1 from_y1 to_x0 to_y0 to_x1 to_y1 : mnum mach)
    (line_dist : mnum mach -> mnum mach -> mnum mach -> mnum mach ->
                 mnum mach -> mnum mach -> mnum mach -> mnum mach -> option (mnum mach))
    (condition : Focus -> Focus -> bool)
    (xmul ymul wmul hmul : Q) : M unit :=
  do fl <- get_focus_list;
  match fl with
  | [] => ret tt
  | first :: _ =>
      (* No widget focused. *)
      do current <- get_focused;
      match current with
      | None => change_focus (Some first)
      | Some current =>
          (* Find the current focus. *)
          match find_current fl current with
          | None =>
              (* If we can't pick something. *)
              change_focus (Some first)
          | Some from_focus =>
              match x from_focus with
              | None =>
                  (* If placeless, focus_extreme. *)
                  focus_extreme xmul ymul wmul hmul
              | Some from_x =>
                  let fx0 := madd mach (mof mach from_x)
                               (mmul mach (mof mach (w from_focus)) from_x0) in
                  let fy0 := madd mach (mof mach (y from_focus))
                               (mmul mach (mof mach (h from_focus)) from_y0) in
                  let fx1 := madd mach (mof mach from_x)
                               (mmul mach (mof mach (w from_focus)) from_x1) in
                  let fy1 := madd mach (mof mach (y from_focus))
                               (mmul mach (mof mach (h from_focus)) from_y1) in
                  match nearest_loop_on mach fl from_focus fx0 fy0 fx1 fy1
                          to_x0 to_y0 to_x1 to_y1 line_dist condition
                          {| placeless_on := None; new_focus_on := None;
                             new_focus_dist_on :=
                               initial_focus_dist_on mach cfg |} with
                  | None => raise AssertionError
                  | Some r =>
                      (* If we couldn't find anything, try the placeless
                         focus. *)
                      match or_else (new_focus_on r) (placeless_on r) with
                      | Some nf => change_focus (Some nf)
                      | None => ret tt
                      end
                  end
              end
          end
      end
  end.

(** The four calls of key_handler.  The conditions compare integer
    attributes, exactly. *)
Definition focus_right_on (mach : Machine) (cfg : Config) : M unit :=
  focus_nearest_on mach cfg
    (mof mach (9#10)) (mof mach (1#10)) (mof mach (9#10)) (mof mach (9#10))
    (mof mach (1#10)) (mof mach (1#10)) (mof mach (1#10)) (mof mach (9#10))
    (verti_line_dist_on mach cfg)
    (fun old new => Qleb (x_of old + w old) (x_of new))
    (-1) 0 0 0.

Definition focus_left_on (mach : Machine) (cfg : Config) : M unit :=
  focus_nearest_on mach cfg
    (mof mach (1#10)) (mof mach (1#10)) (mof mach (1#10)) (mof mach (9#10))
    (mof mach (9#10)) (mof mach (1#10)) (mof mach (9#10)) (mof mach (9#10))
    (verti_line_dist_on mach cfg)
    (fun old new => Qleb (x_of new + w new) (x_of old))
    1 0 1 0.

Definition focus_up_on (mach : Machine) (cfg : Config) : M unit :=
  focus_nearest_on mach cfg
    (mof mach (1#10)) (mof mach (1#10)) (mof mach (9#10)) (mof mach (1#10))
    (mof mach (1#10)) (mof mach (9#10)) (mof mach (9#10)) (mof mach (9#10))
    (horiz_line_dist_on mach cfg)
    (fun old new => Qleb (y new + h new) (y old))
    0 1 0 1.

Definition focus_down_on (mach : Machine) (cfg : Config) : M unit :=
  focus_nearest_on mach cfg
    (mof mach (1#10)) (mof mach (9#10)) (mof mach (9#10)) (mof mach (9#10))
    (mof mach (1#10)) (mof mach (1#10)) (mof mach (9#10)) (mof mach (1#10))
    (horiz_line_dist_on mach cfg)
    (fun old new => Qleb (y old + h old) (y new))
    0 (-1) 0 0.

(** * Notions used in the statements *)

(** The test of the first branch of both distance functions, on the
    intervals [a0, a1] and [b0, b1]. *)
Definition overlap (a0 a1 b0 b1 : Q) : bool :=
  chain4 b0 a0 a1 b1 || chain4 a0 b0 b1 a1 ||
  chain4 a0 b0 a1 b1 || chain4 b0 a0 b1 a1.

(** The widget change_focus computes from its argument. *)
Definition target_of (newfocus : option Focus) : option Widget :=
  match newfocus with
  | None => None
  | Some nf => Some (widget nf)
  end.

(** The calls change_focus makes when it changes the focus from [current]
    to [target]. *)
Definition switch_calls (current target : option Widget) : list Call :=
  match current with Some c => [CallUnfocus c] | None => [] end ++
  match target with Some t => [CallFocus t false] | None => [] end ++
  [CallSetFocused target].

(** The calls of the last loop of before_interact. *)
Fixpoint unfocus_calls (fwn : list (Widget * Name)) (current : option Widget)
    : list Call :=
  match fwn with
  | [] => []
  | (f, n) :: rest =>
      (if is_not f current then [CallUnfocus f] else []) ++
      unfocus_calls rest current
  end.

(** The calls that end before_interact when [current] is the widget
    chosen. *)
Definition final_calls (fwn : list (Widget * Name)) (current : option Widget)
    : list Call :=
  unfocus_calls fwn current ++
  match current with
  | Some c => [CallFocus c true]
  | None => []
  end.

(** The names the widgets carry once before_interact has named the
    focusables of [fwn]. *)
Definition names_after (fwn : list (Widget * Name)) (s : State)
    : gmap nat (option string * nat) :=
  assign_names fwn ∅ (full_focus_name s).

(** The state before_interact leaves when it chooses [current] and writes
    it from the search loop or the default loop. *)
Definition reconciled (fwn : list (Widget * Name)) (s : State)
    (current : option Widget) : State :=
  {| grab := None; focus_list := focus_list s;
     focused := current;
     full_focus_name := names_after fwn s;
     default := default s;
     calls := calls s ++ [CallSetFocused current] ++ final_calls fwn current |}.

(** The full name the naming loop leaves on widget [g], when it starts
    from the counts [namecount]: the name given at the last entry of [g]
    in the enumeration; [None] when [g] is not enumerated. *)
Fixpoint key_of (fwn : list (Widget * Name))
    (namecount : gmap (option string) nat) (g : Widget)
    : option (option string * nat) :=
  match fwn with
  | [] => None
  | (f, n) :: rest =>
      let serial := from_option id 0%nat (namecount !! n) in
      match key_of rest (<[n := S serial]> namecount) g with
      | Some k => Some k
      | None => if Nat.eqb f g then Some (n, serial) else None
      end
  end.

(** The rectangle of [f] contains the point; a focus without a place has
    no rectangle. *)
Definition hit (px py : Q) (f : Focus) : bool :=
  match x f with
  | Some fx => inside f fx px py
  | None => false
  end.

(** The score of a focus that has a place. *)
Definition score (xmul ymul wmul hmul : Q) (f : Focus) : Q :=
  score_at f (x_of f) xmul ymul wmul hmul.

(** No focus of the list sits at x = 0. *)
Definition no_zero_x (fl : list Focus) : Prop :=
  forall g gx, g ∈ fl -> x g = Some gx -> ~ gx == 0.

(** Regions and states for the examples. *)
Definition region (o : nat) (wd : Widget) (fx fy fw fh : Q) : Focus :=
  {| oid := o; widget := wd; arg := 0; x := Some fx;
     y := fy; w := fw; h := fh |}.

Definition region_without_place (o : nat) (wd : Widget) : Focus :=
  {| oid := o; widget := wd; arg := 0; x := None; y := 0; w := 0; h := 0 |}.

Definition showing (fl : list Focus) (current : option Widget) : State :=
  {| grab := None; focus_list := fl; focused := current;
     full_focus_name := ∅; default := fun _ => false; calls := [] |}.

Definition four_regions : list Focus :=
  [ region_without_place 1 11; region 2 12 40 0 10 10;
    region 3 13 5 0 10 10; region 4 14 5 30 10 10 ].

(** The distance the main loop of focus_nearest computes for [f], from
    the anchor points [fx0, fy0] and [fx1, fy1] of the current focus. *)
Definition candidate_dist (fx0 fy0 fx1 fy1 to_x0 to_y0 to_x1 to_y1 : Q)
    (line_dist : LineDist) (f : Focus) : option Q :=
  line_dist fx0 fy0 fx1 fy1
    (x_of f + w f * to_x0) (y f + h f * to_y0)
    (x_of f + w f * to_x1) (y f + h f * to_y1).

(** The focuses the main loop of focus_nearest measures: other than the
    current one, with a place, and accepted by the condition of the
    direction. *)
Definition admissible (from_focus : Focus) (condition : Focus -> Focus -> bool)
    (f : Focus) : Prop :=
  oid f <> oid from_focus /\ x f <> None /\ condition from_focus f = true.

(** The number of entries of an enumeration that carry the name [n]. *)
Definition occurrences (n : Name) (fwn : list (Widget * Name)) : nat :=
  length (List.filter (fun e => bool_decide (snd e = n)) fwn).

(** What the handlers leave alone, from a state [s] to a later state
    [s']: the grab, the focus list and the attributes of the widgets; the
    calls made so far stay, more may follow. *)
Definition registry_kept (s s' : State) : Prop :=
  grab s' = grab s /\ focus_list s' = focus_list s /\
  full_focus_name s' = full_focus_name s /\ default s' = default s /\
  exists more, calls s' = calls s ++ more.

(** The focus in [s'] is the focus in [s], or the widget of a region of
    the focus list. *)
Definition focus_moved_within (s s' : State) : Prop :=
  focus_list s' = focus_list s /\
  (focused s' = focused s \/
   exists f, f ∈ focus_list s /\ focused s' = Some (widget f)).

(** The state after the events of [evs] have been handled in turn, an
    exception ending the handling of its own event only. *)
Definition handle_events (cfg : Config) (evs : list Event) (s : State) : State :=
  fold_left (fun st ev => state_of (event_handler cfg ev st)) evs s.

(** Every widget the next pass may have to read the name of has one: the
    focused widget, and the widgets of the regions. *)
Definition names_ready (s : State) : Prop :=
  (forall c, focused s = Some c -> is_Some (full_focus_name s !! c)) /\
  (forall f, f ∈ focus_list s -> is_Some (full_focus_name s !! widget f)).

(** No region with a place has a negative width or height. *)
Definition no_negative_size (fl : list Focus) : Prop :=
  forall f, f ∈ fl -> x f <> None -> 0 <= w f /\ 0 <= h f.

(** The distance the main loop of focus_nearest computes for [f] in the
    arithmetic of the machine, from the anchor points [fx0, fy0] and
    [fx1, fy1] of the current focus. *)
Definition candidate_dist_on (mach : Machine)
    (fx0 fy0 fx1 fy1 to_x0 to_y0 to_x1 to_y1 : mnum mach)
    (line_dist : mnum mach -> mnum mach -> mnum mach -> mnum mach ->
                 mnum mach -> mnum mach -> mnum mach -> mnum mach ->
                 option (mnum mach))
    (f : Focus) : option (mnum mach) :=
  line_dist fx0 fy0 fx1 fy1
    (madd mach (mof mach (x_of f)) (mmul mach (mof mach (w f)) to_x0))
    (madd mach (mof mach (y f)) (mmul mach (mof mach (h f)) to_y0))
    (madd mach (mof mach (x_of f)) (mmul mach (mof mach (w f)) to_x1))
    (madd mach (mof mach (y f)) (mmul mach (mof mach (h f)) to_y1)).

(** [v] is the distance computed for an admissible focus of the list. *)
Definition measured {D : Type} (fl : list Focus) (from_focus : Focus)
    (condition : Focus -> Focus -> bool) (dist : Focus -> option D)
    (v : D) : Prop :=
  exists g, g ∈ fl /\ admissible from_focus condition g /\ dist g = Some v.

(** The variables of a search of the first embedding, read as variables of
    a search on the exact machine. *)
Definition nearest_on_exact (acc : Nearest) : NearestOn Q :=
  {| placeless_on := placeless acc; new_focus_on := new_focus acc;
     new_focus_dist_on := new_focus_dist acc |}.

(** * Properties *)

(** Runs the operations of the monad on a state given by its fields. *)
Ltac run_monad :=
  cbv beta iota zeta delta
    [bind ret raise set_grab get_grab get_names put_names get_focused
     set_focused get_full_focus_name get_default get_focus_list
     unfocus focus record_call
     grab focus_list focused full_focus_name default calls].

(** ** Comparisons *)

Lemma Qleb_le a b : Qleb a b = true <-> a <= b.
Proof. apply Qle_bool_iff. Qed.

Lemma Qleb_gt a b : Qleb a b = false <-> b < a.
Proof.
  unfold Qleb. split.
  - intros E. apply Qnot_le_lt. intros L. apply Qle_bool_iff in L. congruence.
  - intros L. destruct (Qle_bool a b) eqn:E; [|reflexivity].
    apply Qle_bool_iff in E. exfalso. eapply Qlt_not_le; eassumption.
Qed.

Lemma Qltb_lt a b : Qltb a b = true <-> a < b.
Proof.
  unfold Qltb. rewrite negb_true_iff. apply Qleb_gt.
Qed.

Lemma Qltb_ge a b : Qltb a b = false <-> b <= a.
Proof.
  unfold Qltb. rewrite negb_false_iff. apply Qle_bool_iff.
Qed.

Lemma Qeq_bool_false a b : ~ a == b -> Qeq_bool a b = false.
Proof.
  intros Hne. destruct (Qeq_bool a b) eqn:E; [|reflexivity].
  apply Qeq_bool_iff in E. contradiction.
Qed.

Lemma chain4_spec a b c d :
  chain4 a b c d = true <-> (a <= b /\ b <= c /\ c <= d).
Proof.
  unfold chain4. rewrite !andb_true_iff, !Qleb_le. tauto.
Qed.

Lemma chain4_false a b c d :
  chain4 a b c d = false <-> (b < a \/ c < b \/ d < c).
Proof.
  unfold chain4. rewrite !andb_false_iff, !Qleb_gt. tauto.
Qed.

(** ** Segment distances *)

Lemma overlap_sym a0 a1 b0 b1 : overlap a0 a1 b0 b1 = overlap b0 b1 a0 a1.
Proof.
  unfold overlap.
  destruct (chain4 b0 a0 a1 b1), (chain4 a0 b0 b1 a1),
    (chain4 a0 b0 a1 b1), (chain4 b0 a0 b1 a1); reflexivity.
Qed.

Lemma overlap_true a0 a1 b0 b1 :
  a0 <= a1 -> b0 <= b1 -> a0 <= b1 -> b0 <= a1 -> overlap a0 a1 b0 b1 = true.
Proof.
  intros Ha Hb Hab Hba. unfold overlap. rewrite !orb_true_iff, !chain4_spec.
  destruct (Qlt_le_dec a0 b0) as [L0|L0], (Qlt_le_dec a1 b1) as [L1|L1].
  - left; right. repeat split; lra.
  - left; left; right. repeat split; lra.
  - left; left; left. repeat split; lra.
  - right. repeat split; lra.
Qed.

(** Two well-ordered intervals either overlap or one lies before the
    other: the six comparisons of the distance functions leave nothing
    out. *)
Lemma interval_cases a0 a1 b0 b1 :
  a0 <= a1 -> b0 <= b1 ->
  overlap a0 a1 b0 b1 = true \/
  chain4 a0 a1 b0 b1 = true \/
  chain4 b0 b1 a0 a1 = true.
Proof.
  intros Ha Hb.
  destruct (Qlt_le_dec a1 b0) as [L|L].
  - right; left. apply chain4_spec. repeat split; lra.
  - destruct (Qlt_le_dec b1 a0) as [R|R].
    + right; right. apply chain4_spec. repeat split; lra.
    + left. apply overlap_true; assumption.
Qed.

Lemma horiz_line_dist_overlap cfg ax0 ay0 ax1 ay1 bx0 by0 bx1 by1 :
  overlap ax0 ax1 bx0 bx1 = true ->
  horiz_line_dist cfg ax0 ay0 ax1 ay1 bx0 by0 bx1 by1 = Some ((ay0 - by0) ^ 2).
Proof.
  unfold horiz_line_dist, overlap. intros ->. reflexivity.
Qed.

Lemma verti_line_dist_overlap cfg ax0 ay0 ax1 ay1 bx0 by0 bx1 by1 :
  overlap ay0 ay1 by0 by1 = true ->
  verti_line_dist cfg ax0 ay0 ax1 ay1 bx0 by0 bx1 by1 = Some ((ax0 - bx0) ^ 2).
Proof.
  unfold verti_line_dist, overlap. intros ->. reflexivity.
Qed.

Lemma horiz_line_dist_returns cfg ax0 ay0 ax1 ay1 bx0 by0 bx1 by1 :
  ax0 <= ax1 -> bx0 <= bx1 ->
  exists d, horiz_line_dist cfg ax0 ay0 ax1 ay1 bx0 by0 bx1 by1 = Some d.
Proof.
  intros Ha Hb. unfold horiz_line_dist. fold (overlap ax0 ax1 bx0 bx1).
  destruct (interval_cases ax0 ax1 bx0 bx1 Ha Hb) as [H|[H|H]].
  - rewrite H. eauto.
  - rewrite H. destruct (overlap ax0 ax1 bx0 bx1); eauto.
  - rewrite H. destruct (overlap ax0 ax1 bx0 bx1); [eauto|].
    destruct (chain4 ax0 ax1 bx0 bx1); eauto.
Qed.

Lemma verti_line_dist_returns cfg ax0 ay0 ax1 ay1 bx0 by0 bx1 by1 :
  ay0 <= ay1 -> by0 <= by1 ->
  exists d, verti_line_dist cfg ax0 ay0 ax1 ay1 bx0 by0 bx1 by1 = Some d.
Proof.
  intros Ha Hb. unfold verti_line_dist. fold (overlap ay0 ay1 by0 by1).
  destruct (interval_cases ay0 ay1 by0 by1 Ha Hb) as [H|[H|H]].
  - rewrite H. eauto.
  - rewrite H. destruct (overlap ay0 ay1 by0 by1); eauto.
  - rewrite H. destruct (overlap ay0 ay1 by0 by1); [eauto|].
    destruct (chain4 ay0 ay1 by0 by1); eauto.
Qed.

Lemma horiz_line_dist_swap cfg ax0 ay0 ax1 ay1 bx0 by0 bx1 by1 :
  same_dist (horiz_line_dist cfg ax0 ay0 ax1 ay1 bx0 by0 bx1 by1)
            (horiz_line_dist cfg bx0 by0 bx1 by1 ax0 ay0 ax1 ay1).
Proof.
  unfold horiz_line_dist.
  fold (overlap ax0 ax1 bx0 bx1). fold (overlap bx0 bx1 ax0 ax1).
  rewrite (overlap_sym bx0 bx1 ax0 ax1).
  destruct (overlap ax0 ax1 bx0 bx1) eqn:Hov.
  { simpl. ring. }
  destruct (chain4 ax0 ax1 bx0 bx1) eqn:Hl, (chain4 bx0 bx1 ax0 ax1) eqn:Hr;
    simpl; unfold points_dist; try ring; try exact I.
  (* both orders hold: the four ends coincide, and the intervals overlap *)
  exfalso. apply chain4_spec in Hl, Hr.
  assert (overlap ax0 ax1 bx0 bx1 = true) as Hov'
    by (apply overlap_true; lra).
  congruence.
Qed.

(** C4.  [horiz_line_dist] is symmetric on well-ordered segments: swapping
    the two segments gives the same number.  When the x-intervals of the
    segments share an interval of positive length, the result is the
    square of the difference of their y-coordinates.  For the segments
    (0,0)-(10,0) and (5,5)-(15,5) the result is 25. *)
Theorem horiz_line_dist_symmetric cfg ax0 ay0 ax1 ay1 bx0 by0 bx1 by1 :
  ax0 <= ax1 -> bx0 <= bx1 ->
  (exists d1 d2,
      horiz_line_dist cfg ax0 ay0 ax1 ay1 bx0 by0 bx1 by1 = Some d1 /\
      horiz_line_dist cfg bx0 by0 bx1 by1 ax0 ay0 ax1 ay1 = Some d2 /\
      d1 == d2) /\
  ((exists lo hi, lo < hi /\ ax0 <= lo /\ hi <= ax1 /\ bx0 <= lo /\ hi <= bx1) ->
   horiz_line_dist cfg ax0 ay0 ax1 ay1 bx0 by0 bx1 by1
     = Some ((ay0 - by0) ^ 2)) /\
  horiz_line_dist cfg 0 0 10 0 5 5 15 5 = Some 25.
Proof.
  intros Ha Hb. split; [|split].
  - destruct (horiz_line_dist_returns cfg ax0 ay0 ax1 ay1 bx0 by0 bx1 by1 Ha Hb)
      as [d1 E1].
    destruct (horiz_line_dist_returns cfg bx0 by0 bx1 by1 ax0 ay0 ax1 ay1 Hb Ha)
      as [d2 E2].
    exists d1, d2. split; [assumption|]. split; [assumption|].
    pose proof (horiz_line_dist_swap cfg ax0 ay0 ax1 ay1 bx0 by0 bx1 by1) as S.
    rewrite E1, E2 in S. exact S.
  - intros (lo & hi & Hlt & H1 & H2 & H3 & H4).
    apply horiz_line_dist_overlap. apply overlap_true; lra.
  - reflexivity.
Qed.

Lemma horiz_line_dist_symmetric_witness :
  (exists d1 d2,
      horiz_line_dist {| focus_crossrange_penalty := 1024 |}
        0 0 10 0 5 5 15 5 = Some d1 /\
      horiz_line_dist {| focus_crossrange_penalty := 1024 |}
        5 5 15 5 0 0 10 0 = Some d2 /\
      d1 == d2) /\
  horiz_line_dist {| focus_crossrange_penalty := 1024 |} 0 0 10 0 5 5 15 5
    = Some ((0 - 5) ^ 2).
Proof.
  destruct (horiz_line_dist_symmetric {| focus_crossrange_penalty := 1024 |}
              0 0 10 0 5 5 15 5) as (Hsym & Hover & _); [lra | lra |].
  split; [exact Hsym|].
  apply Hover. exists 5, 10. repeat split; lra.
Defined.

(** C5.  For two well-ordered intervals [a0, a1] and [b0, b1], one of the
    four overlap comparisons or one of the two disjoint comparisons holds;
    so [horiz_line_dist], on segments with these x-intervals, and
    [verti_line_dist], on segments with these y-intervals, return a number
    and never reach their final assertion. *)
Theorem line_dist_cases_exhaustive cfg a0 a1 b0 b1 :
  a0 <= a1 -> b0 <= b1 ->
  (chain4 b0 a0 a1 b1 = true \/ chain4 a0 b0 b1 a1 = true \/
   chain4 a0 b0 a1 b1 = true \/ chain4 b0 a0 b1 a1 = true \/
   chain4 a0 a1 b0 b1 = true \/ chain4 b0 b1 a0 a1 = true) /\
  (forall ay0 ay1 by0 by1,
      exists d, horiz_line_dist cfg a0 ay0 a1 ay1 b0 by0 b1 by1 = Some d) /\
  (forall ax0 ax1 bx0 bx1,
      exists d, verti_line_dist cfg ax0 a0 ax1 a1 bx0 b0 bx1 b1 = Some d).
Proof.
  intros Ha Hb. split; [|split].
  - destruct (interval_cases a0 a1 b0 b1 Ha Hb) as [H|[H|H]]; [|tauto|tauto].
    unfold overlap in H. rewrite !orb_true_iff in H. tauto.
  - intros. apply horiz_line_dist_returns; assumption.
  - intros. apply verti_line_dist_returns; assumption.
Qed.

Lemma line_dist_cases_exhaustive_witness :
  (chain4 20 0 10 30 = true \/ chain4 0 20 30 10 = true \/
   chain4 0 20 10 30 = true \/ chain4 20 0 30 10 = true \/
   chain4 0 10 20 30 = true \/ chain4 20 30 0 10 = true) /\
  (forall ay0 ay1 by0 by1,
      exists d, horiz_line_dist {| focus_crossrange_penalty := 1024 |}
                  0 ay0 10 ay1 20 by0 30 by1 = Some d) /\
  (forall ax0 ax1 bx0 bx1,
      exists d, verti_line_dist {| focus_crossrange_penalty := 1024 |}
                  ax0 0 ax1 10 bx0 20 bx1 30 = Some d).
Proof.
  apply (line_dist_cases_exhaustive {| focus_crossrange_penalty := 1024 |}
           0 10 20 30); lra.
Defined.

(** ** change_focus and the grab *)

Lemma change_focus_grabbed newfocus s g :
  grab s = Some g -> change_focus newfocus s = Ok tt s.
Proof.
  intros Hg. unfold change_focus, bind, get_grab, ret. rewrite Hg. reflexivity.
Qed.

Lemma change_focus_same newfocus s :
  grab s = None -> focused s = target_of newfocus ->
  change_focus newfocus s = Ok tt s.
Proof.
  intros Hg Hf. unfold change_focus, bind, get_grab, get_focused, ret.
  rewrite Hg. fold (target_of newfocus).
  rewrite bool_decide_eq_true_2 by exact Hf. reflexivity.
Qed.

Lemma change_focus_switch newfocus s :
  grab s = None -> focused s <> target_of newfocus ->
  change_focus newfocus s =
    Ok tt {| grab := grab s; focus_list := focus_list s;
             focused := target_of newfocus;
             full_focus_name := full_focus_name s;
             default := default s;
             calls := calls s ++ switch_calls (focused s) (target_of newfocus) |}.
Proof.
  destruct s as [g fl cur names dflt cs]. simpl. intros -> Hf.
  unfold change_focus, bind, get_grab, get_focused, ret. simpl.
  fold (target_of newfocus).
  rewrite bool_decide_eq_false_2 by exact Hf.
  unfold switch_calls, focus_default_argument.
  destruct cur as [c|], (target_of newfocus) as [t|];
    unfold unfocus, focus, record_call, set_focused, ret; simpl;
    rewrite <- ?app_assoc; reflexivity.
Qed.

(** C9.  With no grab, change_focus whose target widget is the focused
    widget changes nothing and makes no call; otherwise the focused widget,
    if any, is unfocused, then the target, if any, is focused, and the
    write of the new focus comes last, after both calls; nothing else
    changes. *)
Theorem change_focus_without_grab (newfocus : option Focus) (s : State) :
  grab s = None ->
  (focused s = target_of newfocus -> change_focus newfocus s = Ok tt s) /\
  (focused s <> target_of newfocus ->
   exists s',
     change_focus newfocus s = Ok tt s' /\
     focused s' = target_of newfocus /\
     calls s' =
       calls s ++
       match focused s with Some c => [CallUnfocus c] | None => [] end ++
       match target_of newfocus with
       | Some t => [CallFocus t false]
       | None => []
       end ++
       [CallSetFocused (target_of newfocus)] /\
     grab s' = grab s /\ focus_list s' = focus_list s /\
     full_focus_name s' = full_focus_name s /\ default s' = default s).
Proof.
  intros Hg. split.
  - intros Hf. apply change_focus_same; assumption.
  - intros Hf. eexists. split; [apply change_focus_switch; assumption|].
    simpl. repeat split; reflexivity.
Qed.

Lemma change_focus_without_grab_witness :
  exists s',
    change_focus (Some {| oid := 1; widget := 12; arg := 0; x := None;
                          y := 0; w := 0; h := 0 |})
      {| grab := None; focus_list := []; focused := Some 11%nat;
         full_focus_name := ∅; default := fun _ => false; calls := [] |}
      = Ok tt s' /\
    focused s' = Some 12%nat /\
    calls s' = [CallUnfocus 11; CallFocus 12 false; CallSetFocused (Some 12%nat)].
Proof.
  destruct (change_focus_without_grab
              (Some {| oid := 1; widget := 12; arg := 0; x := None;
                       y := 0; w := 0; h := 0 |})
              {| grab := None; focus_list := []; focused := Some 11%nat;
                 full_focus_name := ∅; default := fun _ => false;
                 calls := [] |}) as [_ H]; [reflexivity|].
  destruct H as (s' & E & F & C & _); [discriminate|].
  exists s'. split; [exact E|]. split; [exact F|exact C].
Defined.

(** ** Reconciliation in closed form *)

Lemma unfocus_others_run fwn current s :
  unfocus_others fwn current s =
    Ok tt {| grab := grab s; focus_list := focus_list s;
             focused := focused s;
             full_focus_name := full_focus_name s;
             default := default s;
             calls := calls s ++ unfocus_calls fwn current |}.
Proof.
  revert s. induction fwn as [|[f n] rest IH]; intros s.
  - simpl. unfold ret. rewrite app_nil_r. destruct s; reflexivity.
  - simpl. unfold bind.
    destruct (is_not f current).
    + unfold unfocus, record_call. rewrite IH. simpl.
      rewrite <- app_assoc. reflexivity.
    + unfold ret. rewrite IH. reflexivity.
Qed.

(** The previous focus has the full name of an enumerated widget. *)
Lemma before_interact_match root s c k f :
  focused s = Some c ->
  names_after root s !! c = Some k ->
  find_same_name root (names_after root s) k = Some f ->
  before_interact root s = Ok tt (reconciled root s (Some f)).
Proof.
  destruct s as [g fl cur names dflt cs].
  unfold names_after, reconciled, final_calls, before_interact.
  run_monad. intros -> Hk Hf.
  rewrite Hk. run_monad. rewrite Hf. run_monad.
  rewrite unfocus_others_run. run_monad.
  rewrite <- ?app_assoc. reflexivity.
Qed.

(** There is no previous focus, or no enumerated widget has its full
    name: the default loop decides. *)
Lemma before_interact_default root s :
  (focused s = None \/
   exists c k, focused s = Some c /\ names_after root s !! c = Some k /\
               find_same_name root (names_after root s) k = None) ->
  before_interact root s =
    Ok tt (reconciled root s (find_default root (default s))).
Proof.
  destruct s as [g fl cur names dflt cs].
  unfold names_after, reconciled, final_calls, before_interact.
  run_monad. intros H.
  destruct H as [Hn | (c & k & Hc & Hk & Hf)]; subst cur;
    [|rewrite Hk; run_monad; rewrite Hf; run_monad];
    (destruct (find_default root dflt) as [f|];
     rewrite unfocus_others_run; run_monad;
     rewrite <- ?app_assoc, ?app_nil_r; reflexivity).
Qed.

(** The previous focus never received a full name, and is not enumerated:
    reading its name raises. *)
Lemma before_interact_unnamed root s c :
  focused s = Some c ->
  names_after root s !! c = None ->
  before_interact root s =
    Raise AttributeError
      {| grab := None; focus_list := focus_list s; focused := Some c;
         full_focus_name := names_after root s; default := default s;
         calls := calls s |}.
Proof.
  destruct s as [g fl cur names dflt cs].
  unfold names_after, before_interact.
  run_monad. intros -> Hk. rewrite Hk. reflexivity.
Qed.

(** Whatever before_interact does, the grab is cleared, and the focus list
    and the default flags are left alone. *)
Lemma before_interact_frame root s :
  grab (state_of (before_interact root s)) = None /\
  focus_list (state_of (before_interact root s)) = focus_list s /\
  default (state_of (before_interact root s)) = default s /\
  full_focus_name (state_of (before_interact root s)) = names_after root s.
Proof.
  destruct (focused s) as [c|] eqn:Hc.
  - destruct (names_after root s !! c) as [k|] eqn:Hk.
    + destruct (find_same_name root (names_after root s) k) as [f|] eqn:Hf.
      * rewrite (before_interact_match root s c k f Hc Hk Hf).
        repeat split; reflexivity.
      * rewrite before_interact_default by (right; eauto).
        repeat split; reflexivity.
    + rewrite (before_interact_unnamed root s c Hc Hk).
      repeat split; reflexivity.
  - rewrite before_interact_default by (left; assumption).
    repeat split; reflexivity.
Qed.

(** C6.  While a grab is set, change_focus does nothing, for every
    argument: the state after the call is the state before it, so the
    focused widget is the same and no call has been made on any widget.
    Every pass of before_interact clears the grab first, whatever else
    happens in the pass; after the pass change_focus works again: called
    with a target other than the focused widget, it switches the focus
    to the target. *)
Theorem grab_suppresses_change_focus (s : State) (g : Widget) :
  grab s = Some g ->
  (forall newfocus, change_focus newfocus s = Ok tt s) /\
  (forall root s0, grab (state_of (before_interact root s0)) = None) /\
  (forall root newfocus,
      let s1 := state_of (before_interact root s) in
      focused s1 <> target_of newfocus ->
      exists s2,
        change_focus newfocus s1 = Ok tt s2 /\
        focused s2 = target_of newfocus /\
        calls s2 = calls s1 ++ switch_calls (focused s1) (target_of newfocus)).
Proof.
  intros Hg. split; [|split].
  - intros newfocus. eapply change_focus_grabbed; eassumption.
  - intros root s0. apply before_interact_frame.
  - intros root newfocus s1 Hne.
    assert (grab s1 = None) as Hg1 by apply before_interact_frame.
    eexists. split; [apply change_focus_switch; assumption|].
    split; reflexivity.
Qed.

Lemma grab_suppresses_change_focus_witness :
  change_focus (Some {| oid := 1; widget := 12; arg := 0; x := None;
                        y := 0; w := 0; h := 0 |})
    {| grab := Some 7%nat; focus_list := []; focused := Some 11%nat;
       full_focus_name := {[ 11%nat := (None, 0%nat) ]};
       default := fun _ => false; calls := [] |}
  = Ok tt {| grab := Some 7%nat; focus_list := []; focused := Some 11%nat;
             full_focus_name := {[ 11%nat := (None, 0%nat) ]};
             default := fun _ => false; calls := [] |}.
Proof.
  apply (grab_suppresses_change_focus
           {| grab := Some 7%nat; focus_list := []; focused := Some 11%nat;
              full_focus_name := {[ 11%nat := (None, 0%nat) ]};
              default := fun _ => false; calls := [] |} 7%nat).
  reflexivity.
Defined.

(** ** The two searches of before_interact *)

Lemma find_same_name_None fwn names k :
  find_same_name fwn names k = None <->
  (forall f n, (f, n) ∈ fwn -> names !! f <> Some k).
Proof.
  induction fwn as [|[f0 n0] rest IH]; simpl.
  - split; [|reflexivity]. intros _ f n Hin. inversion Hin.
  - destruct (bool_decide (names !! f0 = Some k)) eqn:E.
    + apply bool_decide_eq_true in E. split; [discriminate|].
      intros H. exfalso. apply (H f0 n0); [left|exact E].
    + apply bool_decide_eq_false in E. rewrite IH. split.
      * intros H f n Hin. apply elem_of_cons in Hin as [Heq|Hin].
        -- inversion Heq; subst. exact E.
        -- eapply H; eassumption.
      * intros H f n Hin. apply (H f n). right. exact Hin.
Qed.

Lemma find_same_name_first l1 f n l2 names k :
  (forall g m, (g, m) ∈ l1 -> names !! g <> Some k) ->
  names !! f = Some k ->
  find_same_name (l1 ++ (f, n) :: l2) names k = Some f.
Proof.
  induction l1 as [|[g0 m0] l1 IH]; simpl; intros Hbefore Hf.
  - rewrite bool_decide_eq_true_2 by exact Hf. reflexivity.
  - rewrite bool_decide_eq_false_2 by (apply (Hbefore g0 m0); left).
    apply IH; [|exact Hf]. intros g m Hin. apply (Hbefore g m). right. exact Hin.
Qed.

Lemma find_default_None fwn dflt :
  find_default fwn dflt = None <->
  (forall f n, (f, n) ∈ fwn -> dflt f = false).
Proof.
  induction fwn as [|[f0 n0] rest IH]; simpl.
  - split; [|reflexivity]. intros _ f n Hin. inversion Hin.
  - destruct (dflt f0) eqn:E.
    + split; [discriminate|]. intros H.
      rewrite (H f0 n0) in E by left. discriminate.
    + rewrite IH. split.
      * intros H f n Hin. apply elem_of_cons in Hin as [Heq|Hin].
        -- inversion Heq; subst. exact E.
        -- eapply H; eassumption.
      * intros H f n Hin. apply (H f n). right. exact Hin.
Qed.

Lemma find_default_first l1 f n l2 dflt :
  (forall g m, (g, m) ∈ l1 -> dflt g = false) ->
  dflt f = true ->
  find_default (l1 ++ (f, n) :: l2) dflt = Some f.
Proof.
  induction l1 as [|[g0 m0] l1 IH]; simpl; intros Hbefore Hf.
  - rewrite Hf. reflexivity.
  - rewrite (Hbefore g0 m0) by left.
    apply IH; [|exact Hf]. intros g m Hin. apply (Hbefore g m). right. exact Hin.
Qed.

(** C3.  In a pass where there was no previous focus, or where the
    previous focus has a full name that no enumerated widget carries:
    the pass returns; if some enumerated widget has its default flag set,
    the first such widget in enumeration order is the focus after the
    pass; if none has, the focus is written as none. *)
Theorem before_interact_falls_back_to_default root s :
  (focused s = None \/
   exists c k, focused s = Some c /\ names_after root s !! c = Some k /\
               forall f n, (f, n) ∈ root -> names_after root s !! f <> Some k) ->
  exists s',
    before_interact root s = Ok tt s' /\
    (forall l1 f n l2,
        root = l1 ++ (f, n) :: l2 ->
        default s f = true ->
        (forall g m, (g, m) ∈ l1 -> default s g = false) ->
        focused s' = Some f) /\
    ((forall f n, (f, n) ∈ root -> default s f = false) ->
     focused s' = None /\
     calls s' = calls s ++ [CallSetFocused None] ++ final_calls root None).
Proof.
  intros H. eexists. split.
  - apply before_interact_default.
    destruct H as [Hn | (c & k & Hc & Hk & Hno)]; [left; exact Hn|].
    right. exists c, k. split; [exact Hc|]. split; [exact Hk|].
    apply find_same_name_None. exact Hno.
  - split.
    + intros l1 f n l2 -> Hf Hbefore. simpl.
      apply find_default_first; assumption.
    + intros Hnone. apply find_default_None in Hnone.
      simpl. rewrite Hnone. split; reflexivity.
Qed.

Lemma before_interact_falls_back_to_default_witness :
  exists s',
    before_interact [(1%nat, Some "a"%string); (2%nat, Some "b"%string)]
      {| grab := None; focus_list := []; focused := Some 9%nat;
         full_focus_name := {[ 9%nat := (Some "z"%string, 0%nat) ]};
         default := fun f => Nat.eqb f 2; calls := [] |} = Ok tt s' /\
    focused s' = Some 2%nat.
Proof.
  destruct (before_interact_falls_back_to_default
              [(1%nat, Some "a"%string); (2%nat, Some "b"%string)]
              {| grab := None; focus_list := []; focused := Some 9%nat;
                 full_focus_name := {[ 9%nat := (Some "z"%string, 0%nat) ]};
                 default := fun f => Nat.eqb f 2; calls := [] |})
    as (s' & E & Hfirst & _).
  - right. exists 9%nat, (Some "z"%string, 0%nat).
    split; [reflexivity|]. split; [vm_compute; reflexivity|].
    intros f n Hin.
    apply elem_of_cons in Hin as [Heq|Hin];
      [inversion Heq; subst; vm_compute; discriminate|].
    apply elem_of_cons in Hin as [Heq|Hin];
      [inversion Heq; subst; vm_compute; discriminate|].
    inversion Hin.
  - exists s'. split; [exact E|].
    apply (Hfirst [(1%nat, Some "a"%string)] 2%nat (Some "b"%string) []).
    + reflexivity.
    + reflexivity.
    + intros g m Hin.
      apply elem_of_cons in Hin as [Heq|Hin]; [inversion Heq; reflexivity|].
      inversion Hin.
Defined.

(** ** The names assigned by a pass *)

Lemma assign_names_lookup fwn namecount names g :
  assign_names fwn namecount names !! g =
    match key_of fwn namecount g with
    | Some k => Some k
    | None => names !! g
    end.
Proof.
  revert namecount names.
  induction fwn as [|[f n] rest IH]; intros namecount names; simpl.
  - reflexivity.
  - rewrite IH.
    destruct (key_of rest _ g) as [k|]; [reflexivity|].
    destruct (Nat.eqb f g) eqn:E.
    + apply Nat.eqb_eq in E. subst g. apply lookup_insert_eq.
    + apply Nat.eqb_neq in E. apply lookup_insert_ne. exact E.
Qed.

Lemma key_of_enumerated fwn namecount g :
  is_Some (key_of fwn namecount g) <-> exists n, (g, n) ∈ fwn.
Proof.
  revert namecount.
  induction fwn as [|[f n] rest IH]; intros namecount; simpl.
  - split.
    + intros [k Hk]. discriminate.
    + intros [n Hin]. inversion Hin.
  - specialize (IH (<[n := S (from_option id 0%nat (namecount !! n))]> namecount)).
    destruct (key_of rest _ g) as [k|].
    + split; [|eauto]. intros _.
      destruct (proj1 IH) as [m Hm]; [eauto|]. exists m. right. exact Hm.
    + destruct (Nat.eqb f g) eqn:E.
      * apply Nat.eqb_eq in E. subst g. split; [|eauto]. intros _.
        exists n. left.
      * apply Nat.eqb_neq in E. split.
        -- intros [k Hk]. discriminate.
        -- intros [m Hin]. apply elem_of_cons in Hin as [Heq|Hin].
           ++ inversion Heq. congruence.
           ++ apply IH. eauto.
Qed.

(** A serial number is never below the count the loop started from. *)
Lemma key_of_bound fwn namecount g n serial :
  key_of fwn namecount g = Some (n, serial) ->
  (from_option id 0%nat (namecount !! n) <= serial)%nat.
Proof.
  revert namecount.
  induction fwn as [|[f m] rest IH]; intros namecount; simpl; [discriminate|].
  destruct (key_of rest _ g) as [k|] eqn:Hrest.
  - intros [= ->]. apply IH in Hrest.
    destruct (decide (m = n)) as [->|Hne].
    + rewrite lookup_insert_eq in Hrest. simpl in Hrest. lia.
    + rewrite lookup_insert_ne in Hrest by exact Hne. exact Hrest.
  - destruct (Nat.eqb f g); [|discriminate].
    intros [= -> ->]. lia.
Qed.

(** Two enumerated widgets never end a pass with the same full name. *)
Lemma key_of_inj fwn namecount g1 g2 k :
  key_of fwn namecount g1 = Some k ->
  key_of fwn namecount g2 = Some k ->
  g1 = g2.
Proof.
  revert namecount.
  induction fwn as [|[f m] rest IH]; intros namecount; simpl; [discriminate|].
  destruct (key_of rest _ g1) as [k1|] eqn:H1,
           (key_of rest _ g2) as [k2|] eqn:H2.
  - intros [= <-] [= <-]. eapply IH; eassumption.
  - intros [= <-]. destruct (Nat.eqb f g2); [|discriminate].
    intros [= <-]. apply key_of_bound in H1.
    rewrite lookup_insert_eq in H1. simpl in H1. lia.
  - destruct (Nat.eqb f g1); [|discriminate].
    intros [= <-] [= ->]. apply key_of_bound in H2.
    rewrite lookup_insert_eq in H2. simpl in H2. lia.
  - destruct (Nat.eqb f g1) eqn:E1; [|discriminate].
    destruct (Nat.eqb f g2) eqn:E2; [|discriminate].
    apply Nat.eqb_eq in E1, E2. congruence.
Qed.

(** A name met for the first time gets the serial number 0. *)
Lemma key_of_once l1 f n l2 namecount :
  namecount !! n = None ->
  (forall g m, (g, m) ∈ l1 -> m <> n) ->
  (forall m, (f, m) ∉ l2) ->
  key_of (l1 ++ (f, n) :: l2) namecount f = Some (n, 0%nat).
Proof.
  revert namecount.
  induction l1 as [|[g0 m0] l1 IH]; intros namecount Hfresh Hnames Hlater; simpl.
  - destruct (key_of l2 _ f) as [k|] eqn:Hk.
    + exfalso. apply mk_is_Some in Hk.
      apply key_of_enumerated in Hk as [m Hm].
      exact (Hlater m Hm).
    + rewrite Nat.eqb_refl, Hfresh. reflexivity.
  - rewrite IH; [reflexivity| | |exact Hlater].
    + rewrite lookup_insert_ne; [exact Hfresh|].
      apply (Hnames g0 m0). left.
    + intros g m Hin. apply (Hnames g m). right. exact Hin.
Qed.

(** Naming the same enumeration again changes no name. *)
Lemma assign_names_again fwn names :
  assign_names fwn ∅ (assign_names fwn ∅ names) = assign_names fwn ∅ names.
Proof.
  apply map_eq. intros g. rewrite !assign_names_lookup.
  destruct (key_of fwn ∅ g); reflexivity.
Qed.

Lemma find_same_name_unique fwn names k f :
  (exists n, (f, n) ∈ fwn) ->
  names !! f = Some k ->
  (forall g m, (g, m) ∈ fwn -> names !! g = Some k -> g = f) ->
  find_same_name fwn names k = Some f.
Proof.
  induction fwn as [|[g0 m0] rest IH]; simpl; intros [n Hin] Hf Huniq.
  - inversion Hin.
  - destruct (bool_decide (names !! g0 = Some k)) eqn:E.
    + apply bool_decide_eq_true in E. f_equal. apply (Huniq g0 m0); [left|exact E].
    + apply bool_decide_eq_false in E. apply IH.
      * apply elem_of_cons in Hin as [Heq|Hin]; [|eauto].
        inversion Heq; subst. congruence.
      * exact Hf.
      * intros g m Hg. apply (Huniq g m). right. exact Hg.
Qed.

Lemma find_same_name_enumerated fwn names k f :
  find_same_name fwn names k = Some f -> exists n, (f, n) ∈ fwn.
Proof.
  induction fwn as [|[g0 m0] rest IH]; simpl; [discriminate|].
  destruct (bool_decide _).
  - intros [= ->]. exists m0. left.
  - intros H. destruct (IH H) as [n Hn]. exists n. right. exact Hn.
Qed.

Lemma find_default_enumerated fwn dflt f :
  find_default fwn dflt = Some f -> exists n, (f, n) ∈ fwn.
Proof.
  induction fwn as [|[g0 m0] rest IH]; simpl; [discriminate|].
  destruct (dflt g0).
  - intros [= ->]. exists m0. left.
  - intros H. destruct (IH H) as [n Hn]. exists n. right. exact Hn.
Qed.

(** What a pass that returns leaves behind: the names of the naming loop,
    and a focus that is an enumerated widget, or none when no enumerated
    widget is a default. *)
Lemma before_interact_returns root s s1 :
  before_interact root s = Ok tt s1 ->
  full_focus_name s1 = names_after root s /\
  default s1 = default s /\
  match focused s1 with
  | Some f => exists n, (f, n) ∈ root
  | None => find_default root (default s) = None
  end.
Proof.
  destruct (focused s) as [c|] eqn:Hc.
  - destruct (names_after root s !! c) as [k|] eqn:Hk.
    + destruct (find_same_name root (names_after root s) k) as [f|] eqn:Hf.
      * rewrite (before_interact_match root s c k f Hc Hk Hf).
        intros [= <-]. simpl. repeat split.
        eapply find_same_name_enumerated; eassumption.
      * rewrite before_interact_default by (right; eauto).
        intros [= <-]. simpl. repeat split.
        destruct (find_default root (default s)) as [f|] eqn:Hd; [|reflexivity].
        eapply find_default_enumerated; eassumption.
    + rewrite (before_interact_unnamed root s c Hc Hk). discriminate.
  - rewrite before_interact_default by (left; assumption).
    intros [= <-]. simpl. repeat split.
    destruct (find_default root (default s)) as [f|] eqn:Hd; [|reflexivity].
    eapply find_default_enumerated; eassumption.
Qed.

(** C2, as amended.  When the previously focused widget carries the full
    name (n, 0) as the search of the pass reads it, and the name n occurs
    exactly once in the new enumeration, on a widget f that is not
    enumerated again after that entry, then f is the focus after the pass,
    wherever the other enumerated widgets stand. *)
Theorem before_interact_keeps_named_focus root s c n f l1 l2 :
  focused s = Some c ->
  names_after root s !! c = Some (n, 0%nat) ->
  root = l1 ++ (f, n) :: l2 ->
  (forall g m, (g, m) ∈ l1 ++ l2 -> m <> n) ->
  (forall m, (f, m) ∉ l2) ->
  exists s',
    before_interact root s = Ok tt s' /\
    focused s' = Some f /\
    names_after root s !! f = Some (n, 0%nat).
Proof.
  intros Hc Hk Hroot Hnames Hlater.
  assert (key_of root ∅ f = Some (n, 0%nat)) as Hkf.
  { rewrite Hroot. apply key_of_once.
    - apply lookup_empty.
    - intros g m Hin. apply (Hnames g m). apply elem_of_app. left. exact Hin.
    - exact Hlater. }
  assert (names_after root s !! f = Some (n, 0%nat)) as Hnf.
  { unfold names_after. rewrite assign_names_lookup, Hkf. reflexivity. }
  exists (reconciled root s (Some f)). split; [|split; [reflexivity|exact Hnf]].
  apply (before_interact_match root s c (n, 0%nat) f Hc Hk).
  apply find_same_name_unique.
  - exists n. rewrite Hroot. apply elem_of_app. right. left.
  - exact Hnf.
  - intros g m Hin Hg.
    assert (is_Some (key_of root ∅ g)) as [kg Hkg]
      by (apply key_of_enumerated; eauto).
    unfold names_after in Hg. rewrite assign_names_lookup, Hkg in Hg.
    injection Hg as ->.
    eapply key_of_inj; eassumption.
Qed.

Lemma before_interact_keeps_named_focus_witness :
  exists s',
    before_interact
      [(1%nat, Some "b"%string); (3%nat, Some "a"%string);
       (4%nat, Some "b"%string)]
      {| grab := None; focus_list := []; focused := Some 9%nat;
         full_focus_name := {[ 9%nat := (Some "a"%string, 0%nat) ]};
         default := fun _ => false; calls := [] |} = Ok tt s' /\
    focused s' = Some 3%nat.
Proof.
  destruct (before_interact_keeps_named_focus
              [(1%nat, Some "b"%string); (3%nat, Some "a"%string);
               (4%nat, Some "b"%string)]
              {| grab := None; focus_list := []; focused := Some 9%nat;
                 full_focus_name := {[ 9%nat := (Some "a"%string, 0%nat) ]};
                 default := fun _ => false; calls := [] |}
              9%nat (Some "a"%string) 3%nat
              [(1%nat, Some "b"%string)] [(4%nat, Some "b"%string)])
    as (s' & E & F & _).
  - reflexivity.
  - vm_compute. reflexivity.
  - reflexivity.
  - intros g m Hin.
    apply elem_of_cons in Hin as [Heq|Hin]; [inversion Heq; discriminate|].
    apply elem_of_cons in Hin as [Heq|Hin]; [inversion Heq; discriminate|].
    inversion Hin.
  - intros m Hin.
    apply elem_of_cons in Hin as [Heq|Hin]; [inversion Heq|].
    inversion Hin.
  - exists s'. split; [exact E|exact F].
Defined.

(** C2, as stated, fails.  A first pass enumerates two widgets named "a"
    and focuses the second, the default, under the full name ("a", 1).
    The next pass enumerates a single widget named "a", which gets the
    full name ("a", 0): the name of the previous focus occurs exactly
    once, and yet the pass ends with no focus. *)
Lemma name_once_does_not_keep_focus :
  let s0 := {| grab := None; focus_list := []; focused := None;
               full_focus_name := ∅; default := fun f => Nat.eqb f 2;
               calls := [] |} in
  let s1 := state_of (before_interact
                        [(1%nat, Some "a"%string); (2%nat, Some "a"%string)]
                        s0) in
  focused s1 = Some 2%nat /\
  full_focus_name s1 !! 2%nat = Some (Some "a"%string, 1%nat) /\
  ~ (forall root s c n serial f l1 l2,
        focused s = Some c ->
        full_focus_name s !! c = Some (n, serial) ->
        root = l1 ++ (f, n) :: l2 ->
        (forall g m, (g, m) ∈ l1 ++ l2 -> m <> n) ->
        focused (state_of (before_interact root s)) = Some f) /\
  focused (state_of (before_interact [(3%nat, Some "a"%string)] s1)) = None.
Proof.
  intros s0 s1.
  assert (focused (state_of (before_interact [(3%nat, Some "a"%string)] s1))
          = None) as Hnone by (vm_compute; reflexivity).
  split; [vm_compute; reflexivity|].
  split; [vm_compute; reflexivity|].
  split; [|exact Hnone].
  intros Hclaim.
  specialize (Hclaim [(3%nat, Some "a"%string)] s1 2%nat (Some "a"%string)
                1%nat 3%nat [] []).
  rewrite Hnone in Hclaim. discriminate Hclaim.
  - vm_compute. reflexivity.
  - vm_compute. reflexivity.
  - reflexivity.
  - intros g m Hin. inversion Hin.
Qed.

(** C7.  Two passes in a row over the same enumeration resolve the same
    focus: when a pass returns, a second pass over the same widgets, with
    the same names in the same order, returns as well, with the focused
    widget and the full names of the first.  What may change in between
    is anything but the focused widget, the names and the default
    flags. *)
Theorem before_interact_idempotent root s s1 s1' :
  before_interact root s = Ok tt s1 ->
  focused s1' = focused s1 ->
  full_focus_name s1' = full_focus_name s1 ->
  default s1' = default s1 ->
  exists s2,
    before_interact root s1' = Ok tt s2 /\
    focused s2 = focused s1 /\
    full_focus_name s2 = full_focus_name s1.
Proof.
  intros Hpass Hf Hn Hd.
  destruct (before_interact_returns root s s1 Hpass) as (Hnames & Hdflt & Hcur).
  assert (names_after root s1' = full_focus_name s1) as Hagain.
  { unfold names_after. rewrite Hn, Hnames. unfold names_after.
    apply assign_names_again. }
  destruct (focused s1) as [f|] eqn:Hf1.
  - destruct Hcur as [n Hin].
    assert (is_Some (key_of root ∅ f)) as [k Hk]
      by (apply key_of_enumerated; eauto).
    assert (names_after root s1' !! f = Some k) as Hkf.
    { unfold names_after. rewrite assign_names_lookup, Hk. reflexivity. }
    exists (reconciled root s1' (Some f)).
    split; [|split; [reflexivity|exact Hagain]].
    apply (before_interact_match root s1' f k f Hf Hkf).
    apply find_same_name_unique; [eauto|exact Hkf|].
    intros g m Hg Hgk.
    assert (is_Some (key_of root ∅ g)) as [kg Hkg]
      by (apply key_of_enumerated; eauto).
    unfold names_after in Hgk. rewrite assign_names_lookup, Hkg in Hgk.
    injection Hgk as ->.
    eapply key_of_inj; eassumption.
  - exists (reconciled root s1' (find_default root (default s1'))).
    split; [apply before_interact_default; left; exact Hf|].
    split; [|exact Hagain].
    simpl. rewrite Hd, Hdflt. exact Hcur.
Qed.

Lemma before_interact_idempotent_witness :
  exists s2,
    before_interact [(1%nat, Some "a"%string); (2%nat, Some "a"%string)]
      (reconciled [(1%nat, Some "a"%string); (2%nat, Some "a"%string)]
         {| grab := None; focus_list := []; focused := None;
            full_focus_name := ∅; default := fun f => Nat.eqb f 2;
            calls := [] |} (Some 2%nat)) = Ok tt s2 /\
    focused s2 = Some 2%nat.
Proof.
  destruct (before_interact_idempotent
              [(1%nat, Some "a"%string); (2%nat, Some "a"%string)]
              {| grab := None; focus_list := []; focused := None;
                 full_focus_name := ∅; default := fun f => Nat.eqb f 2;
                 calls := [] |}
              (reconciled [(1%nat, Some "a"%string); (2%nat, Some "a"%string)]
                 {| grab := None; focus_list := []; focused := None;
                    full_focus_name := ∅; default := fun f => Nat.eqb f 2;
                    calls := [] |} (Some 2%nat))
              (reconciled [(1%nat, Some "a"%string); (2%nat, Some "a"%string)]
                 {| grab := None; focus_list := []; focused := None;
                    full_focus_name := ∅; default := fun f => Nat.eqb f 2;
                    calls := [] |} (Some 2%nat)))
    as (s2 & E & F & _).
  - vm_compute. reflexivity.
  - reflexivity.
  - reflexivity.
  - reflexivity.
  - exists s2. split; [exact E|exact F].
Defined.

(** ** mouse_handler *)

Lemma mouse_loop_hit l1 f l2 px py dflt :
  hit px py f = true ->
  (forall g, g ∈ l1 -> hit px py g = false) ->
  mouse_loop (l1 ++ f :: l2) px py dflt = Some f.
Proof.
  revert dflt.
  induction l1 as [|g0 l1 IH]; intros dflt Hf Hbefore; simpl.
  - unfold hit in Hf. destruct (x f) as [fx|]; [|discriminate].
    rewrite Hf. reflexivity.
  - assert (hit px py g0 = false) as H0 by (apply Hbefore; left).
    unfold hit in H0. destruct (x g0) as [gx|].
    + rewrite H0. apply IH; [exact Hf|].
      intros g Hg. apply Hbefore. right. exact Hg.
    + apply IH; [exact Hf|].
      intros g Hg. apply Hbefore. right. exact Hg.
Qed.

(** With no hit, the loop ends on its [else]: the result is the last
    focus without a place, or the [default] the loop started with. *)
Lemma mouse_loop_miss fl px py dflt :
  (forall g, g ∈ fl -> hit px py g = false) ->
  (exists l1 f l2, fl = l1 ++ f :: l2 /\ x f = None /\
                   (forall g, g ∈ l2 -> x g <> None) /\
                   mouse_loop fl px py dflt = Some f) \/
  ((forall g, g ∈ fl -> x g <> None) /\ mouse_loop fl px py dflt = dflt).
Proof.
  revert dflt.
  induction fl as [|g0 fl IH]; intros dflt Hmiss; simpl.
  - right. split; [|reflexivity]. intros g Hg. inversion Hg.
  - assert (forall g, g ∈ fl -> hit px py g = false) as Hrest
      by (intros g Hg; apply Hmiss; right; exact Hg).
    assert (hit px py g0 = false) as H0 by (apply Hmiss; left).
    unfold hit in H0. destruct (x g0) as [gx|] eqn:Hx.
    + rewrite H0.
      destruct (IH dflt Hrest) as [(l1 & f & l2 & -> & Hf & Hl2 & E) | [Hall E]].
      * left. exists (g0 :: l1), f, l2. repeat split; assumption.
      * right. split; [|exact E].
        intros g Hg. apply elem_of_cons in Hg as [->|Hg]; [congruence|].
        apply Hall. exact Hg.
    + destruct (IH (Some g0) Hrest)
        as [(l1 & f & l2 & -> & Hf & Hl2 & E) | [Hall E]].
      * left. exists (g0 :: l1), f, l2. repeat split; assumption.
      * left. exists [], g0, fl. repeat split; assumption.
Qed.

(** C8.  mouse_handler passes to change_focus the first region in list
    order whose rectangle contains the pointer; when no rectangle contains
    it, a region of the list without a place (the last one); when there is
    neither, none.  With the regions [(0,0,10,10) of A; no place, of B],
    a pointer at (5,5) focuses A and a pointer at (100,100) focuses B. *)
Theorem mouse_handler_selects (ev : MouseEvent) (s : State) :
  let px := fst (pos ev) in
  let py := snd (pos ev) in
  let selected := mouse_loop (focus_list s) px py None in
  mouse_handler ev s = change_focus selected s /\
  (forall l1 f l2,
      focus_list s = l1 ++ f :: l2 ->
      hit px py f = true ->
      (forall g, g ∈ l1 -> hit px py g = false) ->
      selected = Some f) /\
  ((forall g, g ∈ focus_list s -> hit px py g = false) ->
   (forall l1 f l2,
       focus_list s = l1 ++ f :: l2 -> x f = None ->
       (forall g, g ∈ l2 -> x g <> None) ->
       selected = Some f) /\
   ((forall g, g ∈ focus_list s -> x g <> None) -> selected = None)) /\
  (let A := {| oid := 1; widget := 1; arg := 0; x := Some 0;
               y := 0; w := 10; h := 10 |} in
   let B := {| oid := 2; widget := 2; arg := 0; x := None;
               y := 0; w := 0; h := 0 |} in
   let regions := {| grab := None; focus_list := [A; B]; focused := None;
                     full_focus_name := ∅; default := fun _ => false;
                     calls := [] |} in
   focused (state_of (mouse_handler {| pos := (5, 5) |} regions))
     = Some (widget A) /\
   focused (state_of (mouse_handler {| pos := (100, 100) |} regions))
     = Some (widget B)).
Proof.
  intros px py selected. split; [|split; [|split]].
  - unfold mouse_handler, selected, px, py. destruct (pos ev) as [qx qy].
    reflexivity.
  - intros l1 f l2 Hfl Hf Hbefore. unfold selected. rewrite Hfl.
    apply mouse_loop_hit; assumption.
  - intros Hmiss.
    destruct (mouse_loop_miss (focus_list s) px py None Hmiss)
      as [(l1 & f & l2 & Hfl & Hf & Hl2 & E) | [Hall E]].
    + split.
      * intros l1' f' l2' Hfl' Hf' Hl2'. unfold selected. rewrite E. f_equal.
        rewrite Hfl in Hfl'. clear - Hfl' Hf Hl2 Hf' Hl2'.
        revert l1' Hfl'. induction l1 as [|a l1 IH]; intros l1' Hfl'.
        -- destruct l1' as [|a' l1']; simpl in Hfl'.
           ++ congruence.
           ++ injection Hfl' as -> ->. exfalso.
              apply (Hl2 f'); [|exact Hf'].
              apply elem_of_app. right. left.
        -- destruct l1' as [|a' l1']; simpl in Hfl'.
           ++ injection Hfl' as <- <-. exfalso.
              apply (Hl2' f); [|exact Hf].
              apply elem_of_app. right. left.
           ++ injection Hfl' as -> Hfl'. apply (IH l1'). exact Hfl'.
      * intros Hall. exfalso. apply (Hall f); [|exact Hf].
        rewrite Hfl. apply elem_of_app. right. left.
    + split.
      * intros l1 f l2 Hfl Hf _. exfalso. apply (Hall f); [|exact Hf].
        rewrite Hfl. apply elem_of_app. right. left.
      * intros _. exact E.
  - split; vm_compute; reflexivity.
Qed.

(** ** focus_extreme *)

Lemma extreme_loop_spec xmul ymul wmul hmul fl max_focus max_score :
  no_zero_x fl ->
  (extreme_loop fl xmul ymul wmul hmul max_focus max_score = max_focus /\
   forall g, g ∈ fl -> x g <> None -> score xmul ymul wmul hmul g <= max_score)
  \/
  (exists l1 f l2,
      fl = l1 ++ f :: l2 /\
      extreme_loop fl xmul ymul wmul hmul max_focus max_score = Some f /\
      x f <> None /\
      max_score < score xmul ymul wmul hmul f /\
      (forall g, g ∈ l1 -> x g <> None ->
                 score xmul ymul wmul hmul g < score xmul ymul wmul hmul f) /\
      (forall g, g ∈ l2 -> x g <> None ->
                 score xmul ymul wmul hmul g <= score xmul ymul wmul hmul f)).
Proof.
  revert max_focus max_score.
  induction fl as [|f0 fl IH]; intros max_focus max_score Hnz.
  - left. split; [reflexivity|]. intros g Hg. inversion Hg.
  - assert (no_zero_x fl) as Hnz'
      by (intros g gx Hg; apply Hnz; right; exact Hg).
    simpl. destruct (x f0) as [fx|] eqn:Hx.
    + rewrite (Qeq_bool_false fx 0)
        by (apply (Hnz f0 fx); [left|exact Hx]).
      assert (score xmul ymul wmul hmul f0 = score_at f0 fx xmul ymul wmul hmul)
        as Hs0 by (unfold score, x_of; rewrite Hx; reflexivity).
      rewrite <- Hs0.
      destruct (Qltb max_score (score xmul ymul wmul hmul f0)) eqn:Hlt.
      * apply Qltb_lt in Hlt. right.
        destruct (IH (Some f0) (score xmul ymul wmul hmul f0) Hnz')
          as [[E Hall] | (l1 & f & l2 & -> & E & Hxf & Hgt & Hl1 & Hl2)].
        -- exists [], f0, fl. split; [reflexivity|]. split; [exact E|].
           split; [congruence|]. split; [exact Hlt|]. split; [|exact Hall].
           intros g Hg. inversion Hg.
        -- exists (f0 :: l1), f, l2. split; [reflexivity|]. split; [exact E|].
           split; [exact Hxf|]. split; [lra|]. split; [|exact Hl2].
           intros g Hg Hxg. apply elem_of_cons in Hg as [->|Hg].
           ++ exact Hgt.
           ++ apply Hl1; assumption.
      * apply Qltb_ge in Hlt.
        destruct (IH max_focus max_score Hnz')
          as [[E Hall] | (l1 & f & l2 & -> & E & Hxf & Hgt & Hl1 & Hl2)].
        -- left. split; [exact E|].
           intros g Hg Hxg. apply elem_of_cons in Hg as [->|Hg].
           ++ exact Hlt.
           ++ apply Hall; assumption.
        -- right. exists (f0 :: l1), f, l2.
           split; [reflexivity|]. split; [exact E|].
           split; [exact Hxf|]. split; [exact Hgt|]. split; [|exact Hl2].
           intros g Hg Hxg. apply elem_of_cons in Hg as [->|Hg].
           ++ lra.
           ++ apply Hl1; assumption.
    + destruct (IH max_focus max_score Hnz')
        as [[E Hall] | (l1 & f & l2 & -> & E & Hxf & Hgt & Hl1 & Hl2)].
      * left. split; [exact E|].
        intros g Hg Hxg. apply elem_of_cons in Hg as [->|Hg].
        -- congruence.
        -- apply Hall; assumption.
      * right. exists (f0 :: l1), f, l2.
        split; [reflexivity|]. split; [exact E|].
        split; [exact Hxf|]. split; [exact Hgt|]. split; [|exact Hl2].
        intros g Hg Hxg. apply elem_of_cons in Hg as [->|Hg].
        -- congruence.
        -- apply Hl1; assumption.
Qed.

(** C1, as amended.  On a region list with no region at x = 0,
    focus_extreme passes to change_focus the first region in list order
    that attains the largest score among the regions with a place,
    provided that score is above -(65536**2); when no region with a place
    scores above -(65536**2), and so when there is none, the call does
    nothing. *)
Theorem focus_extreme_selects_first_maximum xmul ymul wmul hmul (s : State) :
  no_zero_x (focus_list s) ->
  ((forall g, g ∈ focus_list s -> x g <> None ->
              score xmul ymul wmul hmul g <= initial_max_score) /\
   focus_extreme xmul ymul wmul hmul s = Ok tt s)
  \/
  (exists l1 f l2,
      focus_list s = l1 ++ f :: l2 /\
      x f <> None /\
      initial_max_score < score xmul ymul wmul hmul f /\
      (forall g, g ∈ l1 -> x g <> None ->
                 score xmul ymul wmul hmul g < score xmul ymul wmul hmul f) /\
      (forall g, g ∈ l2 -> x g <> None ->
                 score xmul ymul wmul hmul g <= score xmul ymul wmul hmul f) /\
      focus_extreme xmul ymul wmul hmul s = change_focus (Some f) s).
Proof.
  intros Hnz.
  destruct (extreme_loop_spec xmul ymul wmul hmul (focus_list s) None
              initial_max_score Hnz)
    as [[E Hall] | (l1 & f & l2 & Hfl & E & Hxf & Hgt & Hl1 & Hl2)].
  - left. split; [exact Hall|].
    unfold focus_extreme, bind, get_focus_list. rewrite E. reflexivity.
  - right. exists l1, f, l2. repeat split; try assumption.
    unfold focus_extreme, bind, get_focus_list. rewrite E. reflexivity.
Qed.

Lemma four_regions_no_zero_x : no_zero_x four_regions.
Proof.
  intros g gx Hg Hx. unfold four_regions in Hg.
  repeat (apply elem_of_cons in Hg as [->|Hg];
          [simpl in Hx; try discriminate Hx; injection Hx as <-;
           intros H0; vm_compute in H0; discriminate H0|]).
  inversion Hg.
Defined.

Lemma focus_extreme_selects_first_maximum_witness :
  no_zero_x four_regions /\
  (((forall g, g ∈ four_regions -> x g <> None ->
               score (-1) 0 0 0 g <= initial_max_score) /\
    focus_extreme (-1) 0 0 0 (showing four_regions (Some 11%nat))
      = Ok tt (showing four_regions (Some 11%nat)))
   \/
   (exists l1 f l2,
       four_regions = l1 ++ f :: l2 /\
       x f <> None /\
       initial_max_score < score (-1) 0 0 0 f /\
       (forall g, g ∈ l1 -> x g <> None ->
                  score (-1) 0 0 0 g < score (-1) 0 0 0 f) /\
       (forall g, g ∈ l2 -> x g <> None ->
                  score (-1) 0 0 0 g <= score (-1) 0 0 0 f) /\
       focus_extreme (-1) 0 0 0 (showing four_regions (Some 11%nat))
         = change_focus (Some f) (showing four_regions (Some 11%nat)))).
Proof.
  split; [exact four_regions_no_zero_x|].
  apply (focus_extreme_selects_first_maximum (-1) 0 0 0
           (showing four_regions (Some 11%nat))).
  exact four_regions_no_zero_x.
Defined.

(** The run of the example: the leftmost region with a place is chosen,
    the first of the two that start at x = 5. *)
Example focus_extreme_four_regions :
  focused (state_of (focus_extreme (-1) 0 0 0
                       (showing four_regions (Some 11%nat))))
  = Some 13%nat.
Proof. vm_compute. reflexivity. Qed.

(** C1, as stated, fails.  A single region with a place, 2**32 pixels to
    the right, scores -(65536**2) under the multipliers (-1, 0, 0, 0) of
    the right key.  It is the only region with a place, hence the first
    maximum, and changing the focus to it would change the state; yet
    focus_extreme does nothing. *)
Lemma focus_extreme_misses_low_score :
  let far := region 1 11 4294967296 0 10 10 in
  let s := showing [far] None in
  x far <> None /\
  score (-1) 0 0 0 far == initial_max_score /\
  focus_extreme (-1) 0 0 0 s = Ok tt s /\
  change_focus (Some far) s <> Ok tt s /\
  ~ (forall xmul ymul wmul hmul s0 l1 f l2,
        focus_list s0 = l1 ++ f :: l2 ->
        x f <> None ->
        (forall g, g ∈ l1 -> x g <> None ->
                   score xmul ymul wmul hmul g < score xmul ymul wmul hmul f) ->
        (forall g, g ∈ l2 -> x g <> None ->
                   score xmul ymul wmul hmul g <= score xmul ymul wmul hmul f) ->
        focus_extreme xmul ymul wmul hmul s0 = change_focus (Some f) s0).
Proof.
  intros far s.
  assert (focus_extreme (-1) 0 0 0 s = Ok tt s) as Hnoop
    by (vm_compute; reflexivity).
  assert (change_focus (Some far) s <> Ok tt s) as Hchange
    by (vm_compute; discriminate).
  split; [discriminate|]. split; [vm_compute; reflexivity|].
  split; [exact Hnoop|]. split; [exact Hchange|].
  intros Hclaim. apply Hchange. rewrite <- Hnoop.
  symmetry. apply (Hclaim (-1) 0 0 0 s [] far []).
  - reflexivity.
  - discriminate.
  - intros g Hg. inversion Hg.
  - intros g Hg. inversion Hg.
Qed.

(** A region at x = 0 is passed over by the test [not f.x], as a region
    without a place is. *)
Example focus_extreme_at_x_zero :
  focus_extreme 1 0 1 0 (showing [region 1 11 0 0 10 10] None)
  = Ok tt (showing [region 1 11 0 0 10 10] None).
Proof. vm_compute. reflexivity. Qed.

(** ** focus_nearest *)

Section Nearest.

Variable from_focus : Focus.
Variables fx0 fy0 fx1 fy1 to_x0 to_y0 to_x1 to_y1 : Q.
Variable line_dist : LineDist.
Variable condition : Focus -> Focus -> bool.

Local Abbreviation candidate_dist :=
  (candidate_dist fx0 fy0 fx1 fy1 to_x0 to_y0 to_x1 to_y1 line_dist).
Local Abbreviation admissible := (admissible from_focus condition).

    (** The distance kept by the loop only decreases, and a new focus is an
    admissible one that was strictly nearer than the distance the loop
    started with. *)
Lemma nearest_loop_inv fl acc r :
  nearest_loop fl from_focus fx0 fy0 fx1 fy1 to_x0 to_y0 to_x1 to_y1
    line_dist condition acc = Some r ->
  new_focus_dist r <= new_focus_dist acc /\
  (new_focus r = new_focus acc \/
   exists f d, f ∈ fl /\ admissible f /\ new_focus r = Some f /\
               candidate_dist f = Some d /\ d < new_focus_dist acc).
Proof.
  revert acc.
  induction fl as [|f0 fl IH]; intros acc; simpl.
  - intros [= <-]. split; [lra|]. left. reflexivity.
  - destruct (Nat.eqb (oid f0) (oid from_focus)) eqn:Hid.
    { intros H. destruct (IH acc H) as [Hd [Hs|(f & d & Hin & Hrest)]].
      - split; [exact Hd|]. left. exact Hs.
      - split; [exact Hd|]. right. exists f, d.
        split; [right; exact Hin|exact Hrest]. }
    apply Nat.eqb_neq in Hid.
    destruct (x f0) as [gx|] eqn:Hx.
    2:{ intros H. destruct (IH _ H) as [Hd [Hs|(f & d & Hin & Hrest)]].
        - split; [exact Hd|]. left. exact Hs.
        - split; [exact Hd|]. right. exists f, d.
          split; [right; exact Hin|exact Hrest]. }
    destruct (condition from_focus f0) eqn:Hc; simpl.
    2:{ intros H. destruct (IH acc H) as [Hd [Hs|(f & d & Hin & Hrest)]].
        - split; [exact Hd|]. left. exact Hs.
        - split; [exact Hd|]. right. exists f, d.
          split; [right; exact Hin|exact Hrest]. }
    assert (candidate_dist f0 =
            line_dist fx0 fy0 fx1 fy1 (gx + w f0 * to_x0) (y f0 + h f0 * to_y0)
              (gx + w f0 * to_x1) (y f0 + h f0 * to_y1)) as Hcd
      by (unfold candidate_dist, x_of; rewrite Hx; reflexivity).
    rewrite <- Hcd.
    destruct (candidate_dist f0) as [dist|] eqn:Hdist; [|discriminate].
    destruct (Qltb dist (new_focus_dist acc)) eqn:Hlt.
    + apply Qltb_lt in Hlt. intros H.
      destruct (IH _ H) as [Hd [Hs|(f & d & Hin & Hadm & Hnf & Hfd & Hfl)]];
        simpl in Hd.
      * split; [lra|]. right. exists f0, dist.
        split; [left|]. split; [|split; [exact Hs|split; [exact Hdist|exact Hlt]]].
        repeat split; [exact Hid|congruence|exact Hc].
      * split; [lra|]. right. exists f, d. simpl in Hfl.
        split; [right; exact Hin|].
        split; [exact Hadm|]. split; [exact Hnf|]. split; [exact Hfd|lra].
    + intros H. destruct (IH acc H) as [Hd [Hs|(f & d & Hin & Hrest)]].
      * split; [exact Hd|]. left. exact Hs.
      * split; [exact Hd|]. right. exists f, d.
        split; [right; exact Hin|exact Hrest].
Qed.

End Nearest.

Lemma nearest_loop_placeless from_focus fx0 fy0 fx1 fy1 to_x0 to_y0 to_x1 to_y1
    line_dist condition fl acc r :
  nearest_loop fl from_focus fx0 fy0 fx1 fy1 to_x0 to_y0 to_x1 to_y1
    line_dist condition acc = Some r ->
  placeless r = placeless acc \/
  exists p, p ∈ fl /\ placeless r = Some p /\ x p = None.
Proof.
  revert acc.
  induction fl as [|f0 fl IH]; intros acc; simpl.
  - intros [= <-]. left. reflexivity.
  - assert (forall acc',
              placeless acc' = placeless acc ->
              nearest_loop fl from_focus fx0 fy0 fx1 fy1 to_x0 to_y0 to_x1 to_y1
                line_dist condition acc' = Some r ->
              placeless r = placeless acc \/
              exists p, p ∈ f0 :: fl /\ placeless r = Some p /\ x p = None)
      as Hskip.
    { intros acc' E H. destruct (IH acc' H) as [Hp|(p & Hin & Hp)].
      - left. congruence.
      - right. exists p. split; [right; exact Hin|exact Hp]. }
    destruct (Nat.eqb (oid f0) (oid from_focus)); [apply Hskip; reflexivity|].
    destruct (x f0) as [gx|] eqn:Hx.
    + destruct (condition from_focus f0); simpl; [|apply Hskip; reflexivity].
      destruct (line_dist _ _ _ _ _ _ _ _) as [dist|]; [|discriminate].
      destruct (Qltb dist (new_focus_dist acc)); apply Hskip; reflexivity.
    + intros H. right. destruct (IH _ H) as [Hp|(p & Hin & Hp)].
      * exists f0. split; [left|]. split; [exact Hp|exact Hx].
      * exists p. split; [right; exact Hin|exact Hp].
Qed.

Lemma find_current_in fl current f :
  find_current fl current = Some f -> f ∈ fl.
Proof.
  induction fl as [|f0 fl IH]; simpl; [discriminate|].
  destruct (Nat.eqb (widget f0) current).
  - intros [= ->]. left.
  - intros H. right. apply IH. exact H.
Qed.


(** * Further properties of the module *)

(** ** Segment distances *)

Lemma Qsquare_nonneg (a : Q) : 0 <= a ^ 2.
Proof. nra. Qed.

Lemma points_dist_nonneg x0 y0 x1 y1 xfudge yfudge :
  0 <= points_dist x0 y0 x1 y1 xfudge yfudge.
Proof.
  unfold points_dist.
  pose proof (Qsquare_nonneg ((x0 - x1) * xfudge)).
  pose proof (Qsquare_nonneg ((y0 - y1) * yfudge)).
  lra.
Qed.

(** X1.  A distance returned by horiz_line_dist or verti_line_dist is
    never negative. *)
Theorem line_dist_nonneg cfg ax0 ay0 ax1 ay1 bx0 by0 bx1 by1 d :
  horiz_line_dist cfg ax0 ay0 ax1 ay1 bx0 by0 bx1 by1 = Some d \/
  verti_line_dist cfg ax0 ay0 ax1 ay1 bx0 by0 bx1 by1 = Some d ->
  0 <= d.
Proof.
  unfold horiz_line_dist, verti_line_dist. intros [H|H].
  - destruct (_ || _) in H; [injection H as <-; apply Qsquare_nonneg|].
    destruct (chain4 ax0 ax1 bx0 bx1) in H;
      [injection H as <-; apply points_dist_nonneg|].
    destruct (chain4 bx0 bx1 ax0 ax1) in H;
      [injection H as <-; apply points_dist_nonneg|discriminate].
  - destruct (_ || _) in H; [injection H as <-; apply Qsquare_nonneg|].
    destruct (chain4 ay0 ay1 by0 by1) in H;
      [injection H as <-; apply points_dist_nonneg|].
    destruct (chain4 by0 by1 ay0 ay1) in H;
      [injection H as <-; apply points_dist_nonneg|discriminate].
Qed.

Lemma line_dist_nonneg_witness :
  horiz_line_dist {| focus_crossrange_penalty := 1024 |} 0 0 10 0 5 5 15 5
    = Some 25 /\
  0 <= 25.
Proof.
  split; [reflexivity|].
  apply (line_dist_nonneg {| focus_crossrange_penalty := 1024 |}
           0 0 10 0 5 5 15 5 25).
  left. reflexivity.
Defined.

Lemma ill_ordered_no_case a0 a1 b0 b1 :
  a1 < a0 \/ b1 < b0 ->
  overlap a0 a1 b0 b1 = false /\
  chain4 a0 a1 b0 b1 = false /\
  chain4 b0 b1 a0 a1 = false.
Proof.
  intros Hill. unfold overlap.
  destruct (chain4 b0 a0 a1 b1) eqn:H1;
    [apply chain4_spec in H1; exfalso; lra|].
  destruct (chain4 a0 b0 b1 a1) eqn:H2;
    [apply chain4_spec in H2; exfalso; lra|].
  destruct (chain4 a0 b0 a1 b1) eqn:H3;
    [apply chain4_spec in H3; exfalso; lra|].
  destruct (chain4 b0 a0 b1 a1) eqn:H4;
    [apply chain4_spec in H4; exfalso; lra|].
  destruct (chain4 a0 a1 b0 b1) eqn:H5;
    [apply chain4_spec in H5; exfalso; lra|].
  destruct (chain4 b0 b1 a0 a1) eqn:H6;
    [apply chain4_spec in H6; exfalso; lra|].
  repeat split; reflexivity.
Qed.

(** X2.  The final assertion of horiz_line_dist fails exactly when one of
    the two segments has its first x-coordinate beyond its second, and
    that of verti_line_dist exactly when one of them has its first
    y-coordinate beyond its second; the other coordinates play no role. *)
Theorem line_dist_raises_iff_ill_ordered cfg ax0 ay0 ax1 ay1 bx0 by0 bx1 by1 :
  (horiz_line_dist cfg ax0 ay0 ax1 ay1 bx0 by0 bx1 by1 = None <->
   (ax1 < ax0 \/ bx1 < bx0)) /\
  (verti_line_dist cfg ax0 ay0 ax1 ay1 bx0 by0 bx1 by1 = None <->
   (ay1 < ay0 \/ by1 < by0)).
Proof.
  split; split.
  - intros Hnone.
    destruct (Qlt_le_dec ax1 ax0) as [L|Ha]; [left; exact L|].
    destruct (Qlt_le_dec bx1 bx0) as [L|Hb]; [right; exact L|].
    destruct (horiz_line_dist_returns cfg ax0 ay0 ax1 ay1 bx0 by0 bx1 by1 Ha Hb)
      as [d Hd].
    congruence.
  - intros Hill.
    destruct (ill_ordered_no_case ax0 ax1 bx0 bx1 Hill) as (H1 & H2 & H3).
    unfold horiz_line_dist. fold (overlap ax0 ax1 bx0 bx1).
    rewrite H1, H2, H3. reflexivity.
  - intros Hnone.
    destruct (Qlt_le_dec ay1 ay0) as [L|Ha]; [left; exact L|].
    destruct (Qlt_le_dec by1 by0) as [L|Hb]; [right; exact L|].
    destruct (verti_line_dist_returns cfg ax0 ay0 ax1 ay1 bx0 by0 bx1 by1 Ha Hb)
      as [d Hd].
    congruence.
  - intros Hill.
    destruct (ill_ordered_no_case ay0 ay1 by0 by1 Hill) as (H1 & H2 & H3).
    unfold verti_line_dist. fold (overlap ay0 ay1 by0 by1).
    rewrite H1, H2, H3. reflexivity.
Qed.

(** X3.  verti_line_dist is horiz_line_dist with the two axes exchanged:
    on segments whose points have their coordinates swapped it gives the
    same result, a number or the failed assertion. *)
Theorem verti_line_dist_mirrors_horiz cfg ax0 ay0 ax1 ay1 bx0 by0 bx1 by1 :
  same_dist (verti_line_dist cfg ax0 ay0 ax1 ay1 bx0 by0 bx1 by1)
            (horiz_line_dist cfg ay0 ax0 ay1 ax1 by0 bx0 by1 bx1).
Proof.
  unfold verti_line_dist, horiz_line_dist.
  destruct (_ || _); [simpl; reflexivity|].
  destruct (chain4 ay0 ay1 by0 by1); [simpl; unfold points_dist; ring|].
  destruct (chain4 by0 by1 ay0 ay1); [simpl; unfold points_dist; ring|].
  exact I.
Qed.

Lemma verti_line_dist_swap cfg ax0 ay0 ax1 ay1 bx0 by0 bx1 by1 :
  same_dist (verti_line_dist cfg ax0 ay0 ax1 ay1 bx0 by0 bx1 by1)
            (verti_line_dist cfg bx0 by0 bx1 by1 ax0 ay0 ax1 ay1).
Proof.
  unfold verti_line_dist.
  fold (overlap ay0 ay1 by0 by1). fold (overlap by0 by1 ay0 ay1).
  rewrite (overlap_sym by0 by1 ay0 ay1).
  destruct (overlap ay0 ay1 by0 by1) eqn:Hov.
  { simpl. ring. }
  destruct (chain4 ay0 ay1 by0 by1) eqn:Hl, (chain4 by0 by1 ay0 ay1) eqn:Hr;
    simpl; unfold points_dist; try ring; try exact I.
  exfalso. apply chain4_spec in Hl, Hr.
  assert (overlap ay0 ay1 by0 by1 = true) as Hov'
    by (apply overlap_true; lra).
  congruence.
Qed.

(** X4.  verti_line_dist is symmetric on well-ordered segments, and when
    the y-intervals of the segments share an interval of positive length
    the result is the square of the difference of their x-coordinates. *)
Theorem verti_line_dist_symmetric cfg ax0 ay0 ax1 ay1 bx0 by0 bx1 by1 :
  ay0 <= ay1 -> by0 <= by1 ->
  (exists d1 d2,
      verti_line_dist cfg ax0 ay0 ax1 ay1 bx0 by0 bx1 by1 = Some d1 /\
      verti_line_dist cfg bx0 by0 bx1 by1 ax0 ay0 ax1 ay1 = Some d2 /\
      d1 == d2) /\
  ((exists lo hi, lo < hi /\ ay0 <= lo /\ hi <= ay1 /\ by0 <= lo /\ hi <= by1) ->
   verti_line_dist cfg ax0 ay0 ax1 ay1 bx0 by0 bx1 by1
     = Some ((ax0 - bx0) ^ 2)).
Proof.
  intros Ha Hb. split.
  - destruct (verti_line_dist_returns cfg ax0 ay0 ax1 ay1 bx0 by0 bx1 by1 Ha Hb)
      as [d1 E1].
    destruct (verti_line_dist_returns cfg bx0 by0 bx1 by1 ax0 ay0 ax1 ay1 Hb Ha)
      as [d2 E2].
    exists d1, d2. split; [assumption|]. split; [assumption|].
    pose proof (verti_line_dist_swap cfg ax0 ay0 ax1 ay1 bx0 by0 bx1 by1) as S.
    rewrite E1, E2 in S. exact S.
  - intros (lo & hi & Hlt & H1 & H2 & H3 & H4).
    apply verti_line_dist_overlap. apply overlap_true; lra.
Qed.

Lemma verti_line_dist_symmetric_witness :
  (exists d1 d2,
      verti_line_dist {| focus_crossrange_penalty := 1024 |}
        0 0 0 10 7 5 7 15 = Some d1 /\
      verti_line_dist {| focus_crossrange_penalty := 1024 |}
        7 5 7 15 0 0 0 10 = Some d2 /\
      d1 == d2) /\
  verti_line_dist {| focus_crossrange_penalty := 1024 |} 0 0 0 10 7 5 7 15
    = Some ((0 - 7) ^ 2).
Proof.
  destruct (verti_line_dist_symmetric {| focus_crossrange_penalty := 1024 |}
              0 0 0 10 7 5 7 15) as (Hsym & Hover); [lra | lra |].
  split; [exact Hsym|].
  apply Hover. exists 5, 10. repeat split; lra.
Defined.

(** X5.  Segments that do not overlap.  When the first segment ends
    strictly before the second begins, horiz_line_dist measures from the
    right end of the first to the left end of the second, the gap in x
    multiplied by focus_crossrange_penalty; and the other way round when
    the second ends strictly before the first begins.  Segments that only
    touch count as overlapping, and the penalty plays no role. *)
Theorem horiz_line_dist_disjoint cfg ax0 ay0 ax1 ay1 bx0 by0 bx1 by1 :
  ax0 <= ax1 -> bx0 <= bx1 ->
  (ax1 < bx0 ->
   horiz_line_dist cfg ax0 ay0 ax1 ay1 bx0 by0 bx1 by1
     = Some (((ax1 - bx0) * focus_crossrange_penalty cfg) ^ 2
             + ((ay1 - by0) * 1) ^ 2)) /\
  (bx1 < ax0 ->
   horiz_line_dist cfg ax0 ay0 ax1 ay1 bx0 by0 bx1 by1
     = Some (((ax0 - bx1) * focus_crossrange_penalty cfg) ^ 2
             + ((ay0 - by1) * 1) ^ 2)) /\
  (ax1 == bx0 \/ bx1 == ax0 ->
   horiz_line_dist cfg ax0 ay0 ax1 ay1 bx0 by0 bx1 by1
     = Some ((ay0 - by0) ^ 2)).
Proof.
  intros Ha Hb. split; [|split].
  - intros Hgap. unfold horiz_line_dist.
    destruct (chain4 bx0 ax0 ax1 bx1) eqn:H1;
      [apply chain4_spec in H1; exfalso; lra|].
    destruct (chain4 ax0 bx0 bx1 ax1) eqn:H2;
      [apply chain4_spec in H2; exfalso; lra|].
    destruct (chain4 ax0 bx0 ax1 bx1) eqn:H3;
      [apply chain4_spec in H3; exfalso; lra|].
    destruct (chain4 bx0 ax0 bx1 ax1) eqn:H4;
      [apply chain4_spec in H4; exfalso; lra|].
    simpl.
    rewrite (proj2 (chain4_spec ax0 ax1 bx0 bx1)) by (repeat split; lra).
    reflexivity.
  - intros Hgap. unfold horiz_line_dist.
    destruct (chain4 bx0 ax0 ax1 bx1) eqn:H1;
      [apply chain4_spec in H1; exfalso; lra|].
    destruct (chain4 ax0 bx0 bx1 ax1) eqn:H2;
      [apply chain4_spec in H2; exfalso; lra|].
    destruct (chain4 ax0 bx0 ax1 bx1) eqn:H3;
      [apply chain4_spec in H3; exfalso; lra|].
    destruct (chain4 bx0 ax0 bx1 ax1) eqn:H4;
      [apply chain4_spec in H4; exfalso; lra|].
    simpl.
    destruct (chain4 ax0 ax1 bx0 bx1) eqn:H5;
      [apply chain4_spec in H5; exfalso; lra|].
    rewrite (proj2 (chain4_spec bx0 bx1 ax0 ax1)) by (repeat split; lra).
    reflexivity.
  - intros Htouch. apply horiz_line_dist_overlap.
    apply overlap_true; try assumption; destruct Htouch as [E|E]; lra.
Qed.

Lemma horiz_line_dist_disjoint_witness :
  horiz_line_dist {| focus_crossrange_penalty := 1024 |} 0 0 10 0 20 5 30 5
  = Some (((10 - 20) * 1024) ^ 2 + ((0 - 5) * 1) ^ 2).
Proof.
  destruct (horiz_line_dist_disjoint {| focus_crossrange_penalty := 1024 |}
              0 0 10 0 20 5 30 5) as (Hleft & _); [lra | lra |].
  apply Hleft. lra.
Defined.

(** ** Reconciliation *)

Lemma names_after_lookup root s g :
  names_after root s !! g =
    match key_of root ∅ g with
    | Some k => Some k
    | None => full_focus_name s !! g
    end.
Proof. unfold names_after. apply assign_names_lookup. Qed.

Lemma key_of_not_enumerated fwn namecount g :
  key_of fwn namecount g = None <-> forall n, (g, n) ∉ fwn.
Proof.
  split.
  - intros Hnone n Hin.
    assert (is_Some (key_of fwn namecount g)) as [k Hk]
      by (apply key_of_enumerated; eauto).
    congruence.
  - intros Hnot. destruct (key_of fwn namecount g) as [k|] eqn:Hk; [|reflexivity].
    apply mk_is_Some in Hk. apply key_of_enumerated in Hk as [n Hn].
    exfalso. exact (Hnot n Hn).
Qed.

(** A pass that returns leaves the state [reconciled] on its focus. *)
Lemma before_interact_ok_shape root s s' :
  before_interact root s = Ok tt s' ->
  s' = reconciled root s (focused s').
Proof.
  destruct (focused s) as [c|] eqn:Hc.
  - destruct (names_after root s !! c) as [k|] eqn:Hk.
    + destruct (find_same_name root (names_after root s) k) as [f|] eqn:Hf.
      * rewrite (before_interact_match root s c k f Hc Hk Hf).
        intros [= <-]. reflexivity.
      * rewrite before_interact_default by (right; eauto).
        intros [= <-]. reflexivity.
    + rewrite (before_interact_unnamed root s c Hc Hk). discriminate.
  - rewrite before_interact_default by (left; assumption).
    intros [= <-]. reflexivity.
Qed.

(** X6.  before_interact raises exactly when the focused widget has no
    full name and is not among the enumerated widgets; the exception is
    the AttributeError of reading its name.  The pass then stops with the
    grab cleared and the enumerated widgets named, the focus as it was
    and no call made. *)
Theorem before_interact_raises_iff root s :
  ((exists e s', before_interact root s = Raise e s') <->
   (exists c, focused s = Some c /\ full_focus_name s !! c = None /\
              forall n, (c, n) ∉ root)) /\
  (forall e s',
      before_interact root s = Raise e s' ->
      e = AttributeError /\
      grab s' = None /\ focus_list s' = focus_list s /\
      focused s' = focused s /\ calls s' = calls s /\
      full_focus_name s' = names_after root s).
Proof.
  assert (forall c, focused s = Some c ->
            (names_after root s !! c = None <->
             full_focus_name s !! c = None /\ forall n, (c, n) ∉ root))
    as Hunnamed.
  { intros c Hc. rewrite names_after_lookup. split.
    - destruct (key_of root ∅ c) as [k|] eqn:Hk; [discriminate|].
      intros Hn. split; [exact Hn|]. apply (key_of_not_enumerated root ∅ c), Hk.
    - intros [Hn Hnot].
      rewrite (proj2 (key_of_not_enumerated root ∅ c) Hnot). exact Hn. }
  assert (forall e s', before_interact root s = Raise e s' ->
            exists c, focused s = Some c /\ names_after root s !! c = None /\
                      Raise e s' = before_interact root s /\
                      before_interact root s =
                        Raise AttributeError
                          {| grab := None; focus_list := focus_list s;
                             focused := Some c;
                             full_focus_name := names_after root s;
                             default := default s; calls := calls s |})
    as Hcases.
  { intros e s' Hr.
    destruct (focused s) as [c|] eqn:Hc.
    - destruct (names_after root s !! c) as [k|] eqn:Hk.
      + destruct (find_same_name root (names_after root s) k) as [f|] eqn:Hf.
        * rewrite (before_interact_match root s c k f Hc Hk Hf) in Hr.
          discriminate.
        * rewrite before_interact_default in Hr by (right; eauto).
          discriminate.
      + exists c. split; [reflexivity|]. split; [exact Hk|].
        split; [symmetry; exact Hr|].
        apply before_interact_unnamed; assumption.
    - rewrite before_interact_default in Hr by (left; assumption).
      discriminate. }
  split; [split|].
  - intros (e & s' & Hr).
    destruct (Hcases e s' Hr) as (c & Hc & Hk & _).
    exists c. split; [exact Hc|]. apply Hunnamed; assumption.
  - intros (c & Hc & Hn & Hnot).
    eexists _, _. apply (before_interact_unnamed root s c Hc).
    apply Hunnamed; [exact Hc|]. split; assumption.
  - intros e s' Hr.
    destruct (Hcases e s' Hr) as (c & Hc & Hk & _ & Hrun).
    rewrite Hrun in Hr. injection Hr as <- <-. rewrite Hc.
    repeat split; reflexivity.
Qed.

(** X7.  After a pass that returns, the focused widget is one of the
    enumerated widgets, or there is none; and there is none only when no
    enumerated widget has its default flag set. *)
Theorem before_interact_focus_enumerated root s s' :
  before_interact root s = Ok tt s' ->
  match focused s' with
  | Some f => exists n, (f, n) ∈ root
  | None => forall f n, (f, n) ∈ root -> default s f = false
  end.
Proof.
  intros Hpass.
  destruct (before_interact_returns root s s' Hpass) as (_ & _ & Hcur).
  destruct (focused s') as [f|]; [exact Hcur|].
  apply find_default_None. exact Hcur.
Qed.

Lemma before_interact_focus_enumerated_witness :
  before_interact [(1%nat, Some "a"%string); (2%nat, None)]
    (showing [] (Some 1%nat))
  = Ok tt (reconciled [(1%nat, Some "a"%string); (2%nat, None)]
             (showing [] (Some 1%nat)) (Some 1%nat)) /\
  exists n, (1%nat, n) ∈ [(1%nat, Some "a"%string); (2%nat, @None string)].
Proof.
  assert (before_interact [(1%nat, Some "a"%string); (2%nat, None)]
            (showing [] (Some 1%nat))
          = Ok tt (reconciled [(1%nat, Some "a"%string); (2%nat, None)]
                     (showing [] (Some 1%nat)) (Some 1%nat))) as E
    by (vm_compute; reflexivity).
  split; [exact E|].
  exact (before_interact_focus_enumerated _ _ _ E).
Defined.

(** X8.  A focused widget that is enumerated again keeps the focus,
    whatever name and place it is enumerated with, and whatever names the
    other widgets have. *)
Theorem before_interact_keeps_enumerated_focus root s c n :
  focused s = Some c ->
  (c, n) ∈ root ->
  before_interact root s = Ok tt (reconciled root s (Some c)).
Proof.
  intros Hc Hin.
  assert (is_Some (key_of root ∅ c)) as [k Hk]
    by (apply key_of_enumerated; eauto).
  assert (names_after root s !! c = Some k) as Hkc
    by (rewrite names_after_lookup, Hk; reflexivity).
  apply (before_interact_match root s c k c Hc Hkc).
  apply find_same_name_unique; [eauto|exact Hkc|].
  intros g m Hg Hgk.
  assert (is_Some (key_of root ∅ g)) as [kg Hkg]
    by (apply key_of_enumerated; eauto).
  rewrite names_after_lookup, Hkg in Hgk. injection Hgk as ->.
  eapply key_of_inj; eassumption.
Qed.

Lemma before_interact_keeps_enumerated_focus_witness :
  before_interact [(1%nat, Some "a"%string); (2%nat, Some "a"%string)]
    (showing [] (Some 2%nat))
  = Ok tt (reconciled [(1%nat, Some "a"%string); (2%nat, Some "a"%string)]
             (showing [] (Some 2%nat)) (Some 2%nat)).
Proof.
  apply (before_interact_keeps_enumerated_focus _ _ 2%nat (Some "a"%string)).
  - reflexivity.
  - right. left.
Defined.

Lemma unfocus_calls_filter fwn current :
  unfocus_calls fwn current =
    List.map CallUnfocus
      (List.filter (fun g => is_not g current) (List.map fst fwn)).
Proof.
  induction fwn as [|[f n] rest IH]; simpl; [reflexivity|].
  rewrite IH. destruct (is_not f current); reflexivity.
Qed.

(** X9.  The calls of a pass that returns, after the write of the focus:
    one unfocus for every entry of the enumeration whose widget is not
    the focus, in enumeration order, then one focus call with default set
    on the focused widget, if there is one.  The focused widget receives
    no unfocus. *)
Theorem before_interact_calls root s s' :
  before_interact root s = Ok tt s' ->
  calls s' =
    calls s ++ [CallSetFocused (focused s')] ++
    List.map CallUnfocus
      (List.filter (fun g => is_not g (focused s')) (List.map fst root)) ++
    match focused s' with
    | Some f => [CallFocus f true]
    | None => []
    end /\
  (forall f, focused s' = Some f ->
             CallUnfocus f ∉
               List.map CallUnfocus
                 (List.filter (fun g => is_not g (focused s'))
                    (List.map fst root))).
Proof.
  intros Hpass. split.
  - rewrite (before_interact_ok_shape root s s' Hpass) at 1.
    simpl. unfold final_calls. rewrite unfocus_calls_filter. reflexivity.
  - intros f Hf Hin. rewrite Hf in Hin.
    apply list_elem_of_In, in_map_iff in Hin as (g & [= ->] & Hg).
    apply filter_In in Hg as [_ Hg]. simpl in Hg.
    rewrite Nat.eqb_refl in Hg. discriminate.
Qed.

Lemma before_interact_calls_witness :
  exists s',
    before_interact
      [(1%nat, Some "a"%string); (2%nat, Some "b"%string);
       (3%nat, Some "a"%string)]
      (showing [] (Some 2%nat)) = Ok tt s' /\
    calls s' = [CallSetFocused (Some 2%nat); CallUnfocus 1; CallUnfocus 3;
                CallFocus 2 true].
Proof.
  assert (before_interact
            [(1%nat, Some "a"%string); (2%nat, Some "b"%string);
             (3%nat, Some "a"%string)]
            (showing [] (Some 2%nat))
          = Ok tt (reconciled
                     [(1%nat, Some "a"%string); (2%nat, Some "b"%string);
                      (3%nat, Some "a"%string)]
                     (showing [] (Some 2%nat)) (Some 2%nat))) as E
    by (vm_compute; reflexivity).
  eexists. split; [exact E|].
  exact (proj1 (before_interact_calls _ _ _ E)).
Defined.

(** X10.  The full names after a pass, whether it returns or raises: two
    different enumerated widgets never carry the same full name, and a
    widget that is not enumerated keeps the full name it had, or stays
    without one. *)
Theorem before_interact_names_distinct root s :
  let s' := state_of (before_interact root s) in
  (forall g1 n1 g2 n2,
      (g1, n1) ∈ root -> (g2, n2) ∈ root ->
      full_focus_name s' !! g1 = full_focus_name s' !! g2 ->
      g1 = g2) /\
  (forall g, (exists n, (g, n) ∈ root) -> is_Some (full_focus_name s' !! g)) /\
  (forall g, (forall n, (g, n) ∉ root) ->
             full_focus_name s' !! g = full_focus_name s !! g).
Proof.
  intros s'.
  assert (full_focus_name s' = names_after root s) as ->
    by apply before_interact_frame.
  split; [|split].
  - intros g1 n1 g2 n2 H1 H2.
    assert (is_Some (key_of root ∅ g1)) as [k1 Hk1]
      by (apply key_of_enumerated; eauto).
    assert (is_Some (key_of root ∅ g2)) as [k2 Hk2]
      by (apply key_of_enumerated; eauto).
    rewrite !names_after_lookup, Hk1, Hk2. intros [= ->].
    eapply key_of_inj; eassumption.
  - intros g Hg. apply (key_of_enumerated root ∅ g) in Hg as [k Hk].
    rewrite names_after_lookup, Hk. eauto.
  - intros g Hnot. rewrite names_after_lookup.
    rewrite (proj2 (key_of_not_enumerated root ∅ g) Hnot). reflexivity.
Qed.

Lemma occurrences_cons f m n rest :
  occurrences n ((f, m) :: rest) =
    if bool_decide (m = n) then S (occurrences n rest) else occurrences n rest.
Proof.
  unfold occurrences. simpl. destruct (bool_decide (m = n)); reflexivity.
Qed.

Lemma key_of_serial l1 f n l2 namecount :
  (forall m, (f, m) ∉ l2) ->
  key_of (l1 ++ (f, n) :: l2) namecount f =
    Some (n, (from_option id 0%nat (namecount !! n) + occurrences n l1)%nat).
Proof.
  revert namecount.
  induction l1 as [|[g0 m0] l1 IH]; intros namecount Hlater; simpl.
  - rewrite (proj2 (key_of_not_enumerated l2 _ f) Hlater).
    rewrite Nat.eqb_refl. unfold occurrences. simpl.
    rewrite Nat.add_0_r. reflexivity.
  - rewrite (IH _ Hlater). rewrite occurrences_cons.
    destruct (bool_decide (m0 = n)) eqn:E.
    + apply bool_decide_eq_true in E. subst m0.
      rewrite lookup_insert_eq. simpl. do 2 f_equal. lia.
    + apply bool_decide_eq_false in E.
      rewrite lookup_insert_ne by exact E. reflexivity.
Qed.

(** X11.  The serial number in a full name counts the earlier entries
    with the same name: a widget enumerated with the name n, and not
    enumerated again after that entry, ends the pass with the full name
    (n, k), where k is the number of entries named n before it. *)
Theorem before_interact_serial root s l1 f n l2 :
  root = l1 ++ (f, n) :: l2 ->
  (forall m, (f, m) ∉ l2) ->
  full_focus_name (state_of (before_interact root s)) !! f
    = Some (n, occurrences n l1).
Proof.
  intros -> Hlater.
  assert (full_focus_name (state_of (before_interact (l1 ++ (f, n) :: l2) s))
          = names_after (l1 ++ (f, n) :: l2) s) as ->
    by apply before_interact_frame.
  rewrite names_after_lookup, (key_of_serial l1 f n l2 ∅ Hlater).
  rewrite lookup_empty. reflexivity.
Qed.

Lemma before_interact_serial_witness :
  full_focus_name
    (state_of (before_interact
                 [(1%nat, Some "a"%string); (2%nat, Some "b"%string);
                  (3%nat, Some "a"%string)]
                 (showing [] None))) !! 3%nat
  = Some (Some "a"%string,
          occurrences (Some "a"%string)
            [(1%nat, Some "a"%string); (2%nat, Some "b"%string)]).
Proof.
  apply (before_interact_serial _ _
           [(1%nat, Some "a"%string); (2%nat, Some "b"%string)]
           3%nat (Some "a"%string) []).
  - reflexivity.
  - intros m Hin. inversion Hin.
Defined.

(** ** The handlers: what holds from the state before to the state after *)

Lemma extreme_loop_in fl xmul ymul wmul hmul max_focus max_score f :
  extreme_loop fl xmul ymul wmul hmul max_focus max_score = Some f ->
  max_focus = Some f \/ f ∈ fl.
Proof.
  revert max_focus max_score.
  induction fl as [|f0 fl IH]; intros max_focus max_score; simpl.
  - intros ->. left. reflexivity.
  - assert (forall mf ms,
              extreme_loop fl xmul ymul wmul hmul mf ms = Some f ->
              mf = max_focus \/ mf = Some f0 ->
              max_focus = Some f \/ f ∈ f0 :: fl) as Hstep.
    { intros mf ms H Hmf. destruct (IH mf ms H) as [E|Hin].
      - destruct Hmf as [->| ->]; [left; exact E|].
        injection E as ->. right. left.
      - right. right. exact Hin. }
    destruct (x f0) as [fx|]; [|intros H; eapply Hstep; eauto].
    destruct (Qeq_bool fx 0); [intros H; eapply Hstep; eauto|].
    destruct (Qltb max_score _); intros H; eapply Hstep; eauto.
Qed.

Lemma mouse_loop_in fl px py dflt f :
  mouse_loop fl px py dflt = Some f -> dflt = Some f \/ f ∈ fl.
Proof.
  revert dflt.
  induction fl as [|f0 fl IH]; intros dflt; simpl.
  - intros ->. left. reflexivity.
  - destruct (x f0) as [fx|].
    + destruct (inside f0 fx px py).
      * intros [= ->]. right. left.
      * intros H. destruct (IH dflt H) as [E|Hin]; [left; exact E|].
        right. right. exact Hin.
    + intros H. destruct (IH (Some f0) H) as [E|Hin].
      * injection E as ->. right. left.
      * right. right. exact Hin.
Qed.

Section Handlers.

(** A relation between the state before and the state after, kept by
    doing nothing, by doing one thing after another, and by change_focus
    on a region of the focus list. *)
Variable R : State -> State -> Prop.
Hypothesis R_refl : forall s, R s s.
Hypothesis R_trans : forall s1 s2 s3, R s1 s2 -> R s2 s3 -> R s1 s3.
Hypothesis R_change_focus :
  forall f s, f ∈ focus_list s -> R s (state_of (change_focus (Some f) s)).
Hypothesis R_change_focus_none :
  forall s, R s (state_of (change_focus None s)).

Lemma bind_keeps {A B} (m : M A) (k : A -> M B) s :
  R s (state_of (m s)) ->
  (forall a s1, m s = Ok a s1 -> R s1 (state_of (k a s1))) ->
  R s (state_of (bind m k s)).
Proof.
  unfold bind. intros Hm Hk. destruct (m s) as [a s1|e s1] eqn:E.
  - eapply R_trans; [exact Hm|]. apply Hk. reflexivity.
  - exact Hm.
Qed.

Lemma focus_extreme_keeps xmul ymul wmul hmul s :
  R s (state_of (focus_extreme xmul ymul wmul hmul s)).
Proof.
  unfold focus_extreme, bind, get_focus_list.
  destruct (extreme_loop _ _ _ _ _ _ _) as [f|] eqn:E; [|apply R_refl].
  apply R_change_focus.
  destruct (extreme_loop_in _ _ _ _ _ _ _ _ E) as [H|H]; [discriminate|exact H].
Qed.

Lemma focus_nearest_keeps cfg from_x0 from_y0 from_x1 from_y1
    to_x0 to_y0 to_x1 to_y1 line_dist condition xmul ymul wmul hmul s :
  R s (state_of (focus_nearest cfg from_x0 from_y0 from_x1 from_y1
                   to_x0 to_y0 to_x1 to_y1 line_dist condition
                   xmul ymul wmul hmul s)).
Proof.
  unfold focus_nearest, bind, get_focus_list, get_focused.
  destruct (focus_list s) as [|first rest] eqn:Hfl; [apply R_refl|].
  assert (first ∈ focus_list s) as Hfirst by (rewrite Hfl; left).
  destruct (focused s) as [current|]; [|apply R_change_focus; exact Hfirst].
  destruct (find_current (first :: rest) current) as [from_focus|];
    [|apply R_change_focus; exact Hfirst].
  destruct (x from_focus) as [from_x|]; [|apply focus_extreme_keeps].
  destruct (nearest_loop _ _ _ _ _ _ _ _ _ _ _ _ _) as [r|] eqn:Hloop;
    [|apply R_refl].
  destruct (or_else (new_focus r) (placeless r)) as [nf|] eqn:Hnf;
    [|apply R_refl].
  apply R_change_focus. rewrite Hfl.
  destruct (nearest_loop_inv _ _ _ _ _ _ _ _ _ _ _ _ _ _ Hloop)
    as [_ [Hn|(f & d & Hin & _ & Hn & _)]];
    simpl in Hn; rewrite Hn in Hnf; simpl in Hnf.
  - destruct (nearest_loop_placeless _ _ _ _ _ _ _ _ _ _ _ _ _ _ Hloop)
      as [Hp|(p & Hin & Hp & _)]; simpl in Hp; rewrite Hp in Hnf.
    + discriminate.
    + injection Hnf as <-. exact Hin.
  - injection Hnf as <-. exact Hin.
Qed.

Lemma key_handler_keeps cfg map_event s :
  R s (state_of (key_handler cfg map_event s)).
Proof.
  unfold key_handler, focus_right, focus_left, focus_up, focus_down.
  apply bind_keeps;
    [destruct (map_event _); [apply focus_nearest_keeps|apply R_refl]|].
  intros _ s1 _. apply bind_keeps;
    [destruct (map_event _); [apply focus_nearest_keeps|apply R_refl]|].
  intros _ s2 _. apply bind_keeps;
    [destruct (map_event _); [apply focus_nearest_keeps|apply R_refl]|].
  intros _ s3 _.
  destruct (map_event _); [apply focus_nearest_keeps|apply R_refl].
Qed.

Lemma mouse_handler_keeps ev s :
  R s (state_of (mouse_handler ev s)).
Proof.
  unfold mouse_handler. destruct (pos ev) as [px py].
  unfold bind, get_focus_list.
  destruct (mouse_loop (focus_list s) px py None) as [f|] eqn:E.
  - apply R_change_focus.
    destruct (mouse_loop_in _ _ _ _ _ E) as [H|H]; [discriminate|exact H].
  - apply R_change_focus_none.
Qed.

Lemma event_handler_keeps cfg ev s :
  R s (state_of (event_handler cfg ev s)).
Proof.
  unfold event_handler. apply bind_keeps.
  - destruct (mouse ev); [apply mouse_handler_keeps|apply R_refl].
  - intros _ s1 _. apply key_handler_keeps.
Qed.

End Handlers.

Lemma registry_kept_refl s : registry_kept s s.
Proof.
  repeat split. exists []. rewrite app_nil_r. reflexivity.
Qed.

Lemma registry_kept_trans s1 s2 s3 :
  registry_kept s1 s2 -> registry_kept s2 s3 -> registry_kept s1 s3.
Proof.
  intros (G1 & L1 & N1 & D1 & m1 & C1) (G2 & L2 & N2 & D2 & m2 & C2).
  repeat split; try congruence.
  exists (m1 ++ m2). rewrite C2, C1, app_assoc. reflexivity.
Qed.

(** change_focus returns; it leaves the state as it is, or, with no
    grab, moves the focus to its target. *)
Lemma change_focus_cases newfocus s :
  change_focus newfocus s = Ok tt s \/
  (grab s = None /\ focused s <> target_of newfocus /\
   change_focus newfocus s =
     Ok tt {| grab := grab s; focus_list := focus_list s;
              focused := target_of newfocus;
              full_focus_name := full_focus_name s;
              default := default s;
              calls := calls s ++
                       switch_calls (focused s) (target_of newfocus) |}).
Proof.
  destruct (grab s) as [g|] eqn:Hg.
  - left. eapply change_focus_grabbed. exact Hg.
  - destruct (decide (focused s = target_of newfocus)) as [E|E].
    + left. apply change_focus_same; assumption.
    + right. split; [reflexivity|]. split; [exact E|].
      rewrite <- Hg. apply change_focus_switch; assumption.
Qed.

Lemma change_focus_registry_kept newfocus s :
  registry_kept s (state_of (change_focus newfocus s)).
Proof.
  destruct (change_focus_cases newfocus s) as [E|(_ & _ & E)]; rewrite E.
  - apply registry_kept_refl.
  - simpl. repeat split. eauto.
Qed.

(** X12.  While a grab is set, handling an event changes nothing: the
    state after event_handler is the state before it, also when the
    handling of a key ends in an exception; mouse_handler and
    focus_extreme return, with the state as it was. *)
Theorem grab_suppresses_event_handler cfg s g :
  grab s = Some g ->
  (forall ev, state_of (event_handler cfg ev s) = s) /\
  (forall ev, mouse_handler ev s = Ok tt s) /\
  (forall xmul ymul wmul hmul, focus_extreme xmul ymul wmul hmul s = Ok tt s).
Proof.
  intros Hg. split; [|split].
  - intros ev.
    apply (event_handler_keeps (fun s1 s2 => is_Some (grab s1) -> s2 = s1));
      [| | | |eauto].
    + reflexivity.
    + intros s1 s2 s3 H12 H23 Hs1. rewrite <- (H12 Hs1).
      apply H23. rewrite (H12 Hs1). exact Hs1.
    + intros f s1 _ [g1 Hg1].
      rewrite (change_focus_grabbed (Some f) s1 g1 Hg1). reflexivity.
    + intros s1 [g1 Hg1].
      rewrite (change_focus_grabbed None s1 g1 Hg1). reflexivity.
  - intros ev. unfold mouse_handler. destruct (pos ev) as [px py].
    unfold bind, get_focus_list. eapply change_focus_grabbed. exact Hg.
  - intros xmul ymul wmul hmul. unfold focus_extreme, bind, get_focus_list.
    destruct (extreme_loop _ _ _ _ _ _ _); [|reflexivity].
    eapply change_focus_grabbed. exact Hg.
Qed.

Lemma grab_suppresses_event_handler_witness :
  state_of (event_handler {| focus_crossrange_penalty := 1024 |}
              {| mouse := Some {| pos := (25, 5) |};
                 mapped := fun _ => true |}
              {| grab := Some 7%nat;
                 focus_list := [region 1 11 0 0 10 10; region 2 12 20 0 10 10];
                 focused := Some 11%nat; full_focus_name := ∅;
                 default := fun _ => false; calls := [] |})
  = {| grab := Some 7%nat;
       focus_list := [region 1 11 0 0 10 10; region 2 12 20 0 10 10];
       focused := Some 11%nat; full_focus_name := ∅;
       default := fun _ => false; calls := [] |}.
Proof.
  apply (grab_suppresses_event_handler {| focus_crossrange_penalty := 1024 |}
           {| grab := Some 7%nat;
              focus_list := [region 1 11 0 0 10 10; region 2 12 20 0 10 10];
              focused := Some 11%nat; full_focus_name := ∅;
              default := fun _ => false; calls := [] |} 7%nat).
  reflexivity.
Defined.

(** X13.  Handling an event, with or without an exception, never changes
    the grab, the focus list, the full names or the default flags, and
    never takes back a call: the calls made before are a prefix of the
    calls made after.  The same holds of before_interact for the focus
    list and the default flags. *)
Theorem event_handler_keeps_registry cfg ev s :
  registry_kept s (state_of (event_handler cfg ev s)) /\
  (forall root,
      focus_list (state_of (before_interact root s)) = focus_list s /\
      default (state_of (before_interact root s)) = default s).
Proof.
  split.
  - apply event_handler_keeps.
    + apply registry_kept_refl.
    + apply registry_kept_trans.
    + intros f s1 _. apply change_focus_registry_kept.
    + intros s1. apply change_focus_registry_kept.
  - intros root. split; apply before_interact_frame.
Qed.

Lemma focus_moved_within_trans s1 s2 s3 :
  focus_moved_within s1 s2 -> focus_moved_within s2 s3 ->
  focus_moved_within s1 s3.
Proof.
  intros [L1 F1] [L2 F2]. split; [congruence|].
  destruct F2 as [E2|(f & Hin & E2)].
  - rewrite E2. exact F1.
  - right. exists f. rewrite <- L1. split; assumption.
Qed.

(** X14.  Handling a key never clears the focus and never moves it
    outside the focus list: after key_handler the focused widget is the
    one focused before, or the widget of a region of the list. *)
Theorem key_handler_moves_within cfg map_event s :
  focus_moved_within s (state_of (key_handler cfg map_event s)).
Proof.
  apply key_handler_keeps.
  - intros s1. split; [reflexivity|left; reflexivity].
  - apply focus_moved_within_trans.
  - intros f s1 Hin.
    destruct (change_focus_cases (Some f) s1) as [E|(_ & _ & E)]; rewrite E.
    + split; [reflexivity|left; reflexivity].
    + split; [reflexivity|]. right. exists f. split; [exact Hin|reflexivity].
Qed.

(** X15.  Changing the focus twice to the same region is changing it
    once: a second change_focus with the same argument, and a second
    mouse_handler for the same event, return with the state as the first
    left it, and make no call. *)
Theorem change_focus_idempotent (s : State) :
  (forall newfocus,
      change_focus newfocus (state_of (change_focus newfocus s))
        = Ok tt (state_of (change_focus newfocus s))) /\
  (forall ev,
      mouse_handler ev (state_of (mouse_handler ev s))
        = Ok tt (state_of (mouse_handler ev s))).
Proof.
  assert (forall newfocus,
            change_focus newfocus (state_of (change_focus newfocus s))
              = Ok tt (state_of (change_focus newfocus s))) as Hchange.
  { intros newfocus.
    destruct (change_focus_cases newfocus s) as [E|(Hg & _ & E)]; rewrite E.
    - exact E.
    - simpl. apply change_focus_same; [exact Hg|reflexivity]. }
  split; [exact Hchange|].
  intros ev.
  assert (forall st, mouse_handler ev st =
            change_focus (mouse_loop (focus_list st) (fst (pos ev))
                            (snd (pos ev)) None) st) as Hmouse.
  { intros st. unfold mouse_handler. destruct (pos ev) as [px py]. reflexivity. }
  rewrite (Hmouse s).
  set (selected := mouse_loop (focus_list s) (fst (pos ev)) (snd (pos ev)) None).
  rewrite Hmouse.
  assert (focus_list (state_of (change_focus selected s)) = focus_list s) as ->
    by apply change_focus_registry_kept.
  apply Hchange.
Qed.

(** ** From one pass to the next *)

(** A pass returns as soon as the focused widget, if there is one, has a
    full name or is enumerated. *)
Lemma before_interact_returns_if_named root s :
  (forall c, focused s = Some c ->
             is_Some (full_focus_name s !! c) \/ exists n, (c, n) ∈ root) ->
  exists s', before_interact root s = Ok tt s'.
Proof.
  intros Hnamed.
  destruct (focused s) as [c|] eqn:Hc.
  - destruct (names_after root s !! c) as [k|] eqn:Hk.
    + destruct (find_same_name root (names_after root s) k) as [f|] eqn:Hf.
      * eexists. apply (before_interact_match root s c k f Hc Hk Hf).
      * eexists. apply before_interact_default. right. eauto.
    + exfalso. rewrite names_after_lookup in Hk.
      destruct (Hnamed c eq_refl) as [[k Hn]|Hen].
      * destruct (key_of root ∅ c); congruence.
      * apply (key_of_enumerated root ∅ c) in Hen as [k Hkey].
        rewrite Hkey in Hk. discriminate.
  - eexists. apply before_interact_default. left. exact Hc.
Qed.

Lemma event_handler_names_ready cfg ev s :
  names_ready s -> names_ready (state_of (event_handler cfg ev s)).
Proof.
  apply (event_handler_keeps (fun s1 s2 => names_ready s1 -> names_ready s2)).
  - auto.
  - auto.
  - intros f s1 Hin [Hfocus Hlist].
    destruct (change_focus_cases (Some f) s1) as [E|(_ & _ & E)]; rewrite E.
    + split; assumption.
    + split; simpl; [|exact Hlist].
      intros c [= <-]. apply Hlist. exact Hin.
  - intros s1 [Hfocus Hlist].
    destruct (change_focus_cases None s1) as [E|(_ & _ & E)]; rewrite E.
    + split; assumption.
    + split; simpl; [|exact Hlist]. intros c. discriminate.
Qed.

Lemma handle_events_names_ready cfg evs s :
  names_ready s -> names_ready (handle_events cfg evs s).
Proof.
  unfold handle_events. revert s.
  induction evs as [|ev evs IH]; intros s Hready; simpl; [exact Hready|].
  apply IH. apply event_handler_names_ready. exact Hready.
Qed.

(** X16.  One round of the interaction: a pass that returns, then
    take_focuses with regions whose widgets were all enumerated by the
    pass, then any number of events handled.  The next pass, over any
    enumeration, returns: reading the full name of the focused widget
    cannot fail, since the events only focus widgets of the regions. *)
Theorem next_pass_returns root s s1 fl :
  before_interact root s = Ok tt s1 ->
  (forall f, f ∈ fl -> exists n, (widget f, n) ∈ root) ->
  forall cfg evs root',
  exists s3,
    before_interact root'
      (handle_events cfg evs (state_of (take_focuses fl s1))) = Ok tt s3.
Proof.
  intros Hpass Hfl cfg evs root'.
  assert (names_ready (state_of (take_focuses fl s1))) as Hready.
  { destruct (before_interact_returns root s s1 Hpass) as (Hnames & _ & Hcur).
    assert (forall g, (exists n, (g, n) ∈ root) ->
                      is_Some (full_focus_name s1 !! g)) as Hnamed.
    { intros g Hg. rewrite Hnames, names_after_lookup.
      apply (key_of_enumerated root ∅ g) in Hg as [k ->]. eauto. }
    split; simpl.
    - intros c Hc. rewrite Hc in Hcur. apply Hnamed. exact Hcur.
    - intros f Hf. apply Hnamed. apply Hfl. exact Hf. }
  apply before_interact_returns_if_named.
  intros c Hc. left.
  apply (handle_events_names_ready cfg evs) in Hready.
  apply Hready. exact Hc.
Qed.

Lemma next_pass_returns_witness :
  exists s3,
    before_interact [(3%nat, Some "c"%string)]
      (handle_events {| focus_crossrange_penalty := 1024 |}
         [ {| mouse := Some {| pos := (25, 5) |}; mapped := fun _ => false |} ]
         (state_of
            (take_focuses [region 1 1 0 0 10 10; region 2 2 20 0 10 10]
               (reconciled [(1%nat, Some "a"%string); (2%nat, Some "b"%string)]
                  (showing [] None) None)))) = Ok tt s3.
Proof.
  apply (next_pass_returns
           [(1%nat, Some "a"%string); (2%nat, Some "b"%string)]
           (showing [] None)).
  - vm_compute. reflexivity.
  - intros f Hf.
    apply elem_of_cons in Hf as [->|Hf]; [eexists; left|].
    apply elem_of_cons in Hf as [->|Hf]; [eexists; right; left|].
    inversion Hf.
Defined.

(** X17.  A pass over an empty enumeration, from a state where the
    focused widget, if there is one, has a full name: the pass returns
    with no focus, the names as they were, and a single call, the write
    of the focus as none. *)
Theorem before_interact_empty s :
  (forall c, focused s = Some c -> is_Some (full_focus_name s !! c)) ->
  before_interact [] s =
    Ok tt {| grab := None; focus_list := focus_list s; focused := None;
             full_focus_name := full_focus_name s; default := default s;
             calls := calls s ++ [CallSetFocused None] |}.
Proof.
  intros Hnamed.
  rewrite before_interact_default; [reflexivity|].
  destruct (focused s) as [c|] eqn:Hc; [|left; reflexivity].
  right. destruct (Hnamed c eq_refl) as [k Hk].
  exists c, k. split; [reflexivity|]. split; [exact Hk|reflexivity].
Qed.

Lemma before_interact_empty_witness :
  before_interact []
    {| grab := Some 7%nat; focus_list := []; focused := Some 9%nat;
       full_focus_name := {[ 9%nat := (Some "z"%string, 0%nat) ]};
       default := fun _ => true; calls := [] |}
  = Ok tt {| grab := None; focus_list := []; focused := None;
             full_focus_name := {[ 9%nat := (Some "z"%string, 0%nat) ]};
             default := fun _ => true; calls := [CallSetFocused None] |}.
Proof.
  refine (before_interact_empty
            {| grab := Some 7%nat; focus_list := []; focused := Some 9%nat;
               full_focus_name := {[ 9%nat := (Some "z"%string, 0%nat) ]};
               default := fun _ => true; calls := [] |} _).
  intros c [= <-]. eexists. vm_compute. reflexivity.
Defined.

(** ** focus_nearest: the nearest region *)

Section NearestMinimum.

Variable from_focus : Focus.
Variables fx0 fy0 fx1 fy1 to_x0 to_y0 to_x1 to_y1 : Q.
Variable line_dist : LineDist.
Variable condition : Focus -> Focus -> bool.

Local Abbreviation cdist :=
  (candidate_dist fx0 fy0 fx1 fy1 to_x0 to_y0 to_x1 to_y1 line_dist).
Local Abbreviation adm := (admissible from_focus condition).
Local Abbreviation loop :=
  (fun fl acc =>
     nearest_loop fl from_focus fx0 fy0 fx1 fy1 to_x0 to_y0 to_x1 to_y1
       line_dist condition acc).

(** One iteration, by the kind of focus it meets. *)
Lemma nearest_loop_skip f fl acc :
  ~ adm f ->
  exists acc',
    loop (f :: fl) acc = loop fl acc' /\
    new_focus acc' = new_focus acc /\
    new_focus_dist acc' = new_focus_dist acc.
Proof.
  intros Hnot. simpl.
  destruct (Nat.eqb (oid f) (oid from_focus)) eqn:Hid; [eauto|].
  apply Nat.eqb_neq in Hid.
  destruct (x f) as [gx|] eqn:Hx; [|eexists; split; [reflexivity|split; reflexivity]].
  destruct (condition from_focus f) eqn:Hc; simpl; [|eauto].
  exfalso. apply Hnot. repeat split; [exact Hid|congruence|exact Hc].
Qed.

Lemma nearest_loop_measure f fl acc :
  adm f ->
  loop (f :: fl) acc =
    match cdist f with
    | None => None
    | Some dist =>
        if Qltb dist (new_focus_dist acc)
        then loop fl {| placeless := placeless acc; new_focus := Some f;
                        new_focus_dist := dist |}
        else loop fl acc
    end.
Proof.
  intros (Hid & Hx & Hc). simpl.
  rewrite (proj2 (Nat.eqb_neq _ _) Hid).
  unfold candidate_dist, x_of.
  destruct (x f) as [gx|]; [|congruence].
  rewrite Hc. reflexivity.
Qed.

Lemma admissible_dec f : adm f \/ ~ adm f.
Proof.
  unfold admissible.
  destruct (Nat.eq_dec (oid f) (oid from_focus)) as [E|E]; [right; tauto|].
  destruct (x f) as [gx|]; [|right; intros (_ & H & _); congruence].
  destruct (condition from_focus f); [left|right].
  - repeat split; [exact E|discriminate].
  - intros (_ & _ & H). discriminate.
Qed.

(** The loop fails exactly when the distance function fails on an
    admissible focus. *)
Lemma nearest_loop_none_iff fl acc :
  loop fl acc = None <->
  exists g, g ∈ fl /\ adm g /\ cdist g = None.
Proof.
  revert acc. induction fl as [|f fl IH]; intros acc.
  - simpl. split; [discriminate|]. intros (g & Hin & _). inversion Hin.
  - destruct (admissible_dec f) as [Hadm|Hnot].
    + rewrite (nearest_loop_measure f fl acc Hadm).
      destruct (cdist f) as [dist|] eqn:Hd.
      * assert ((exists g, g ∈ f :: fl /\ adm g /\ cdist g = None)
                <-> exists g, g ∈ fl /\ adm g /\ cdist g = None)
          as Hrest.
        { split; intros (g & Hin & Hg & Hn).
          - apply elem_of_cons in Hin as [->|Hin]; [congruence|eauto].
          - exists g. split; [right; exact Hin|]. split; assumption. }
        rewrite Hrest.
        destruct (Qltb dist (new_focus_dist acc)); apply IH.
      * split; [|reflexivity]. intros _. exists f. split; [left|].
        split; assumption.
    + destruct (nearest_loop_skip f fl acc Hnot) as (acc' & -> & _).
      rewrite IH. split; intros (g & Hin & Hg & Hn).
      * exists g. split; [right; exact Hin|]. split; assumption.
      * apply elem_of_cons in Hin as [->|Hin]; [contradiction|eauto].
Qed.

End NearestMinimum.

(** focus_nearest, once the region of the focused widget is found and
    has a place: the main loop, then the choice between its new focus
    and its placeless focus. *)
Lemma focus_nearest_main_loop cfg from_x0 from_y0 from_x1 from_y1
    to_x0 to_y0 to_x1 to_y1 line_dist condition xmul ymul wmul hmul
    s current from_focus from_x :
  focused s = Some current ->
  find_current (focus_list s) current = Some from_focus ->
  x from_focus = Some from_x ->
  focus_nearest cfg from_x0 from_y0 from_x1 from_y1 to_x0 to_y0 to_x1 to_y1
    line_dist condition xmul ymul wmul hmul s =
  match nearest_loop (focus_list s) from_focus
          (from_x + w from_focus * from_x0)
          (y from_focus + h from_focus * from_y0)
          (from_x + w from_focus * from_x1)
          (y from_focus + h from_focus * from_y1)
          to_x0 to_y0 to_x1 to_y1 line_dist condition
          {| placeless := None; new_focus := None;
             new_focus_dist := initial_focus_dist cfg |} with
  | None => Raise AssertionError s
  | Some r =>
      match or_else (new_focus r) (placeless r) with
      | Some nf => change_focus (Some nf) s
      | None => Ok tt s
      end
  end.
Proof.
  intros Hcur Hfind Hx.
  unfold focus_nearest, bind, get_focus_list, get_focused.
  destruct (focus_list s) as [|first rest] eqn:Hfl; [discriminate Hfind|].
  rewrite Hcur, Hfind, Hx.
  destruct (nearest_loop _ _ _ _ _ _ _ _ _ _ _ _ _) as [r|]; [|reflexivity].
  destruct (or_else (new_focus r) (placeless r)); reflexivity.
Qed.

Lemma change_focus_returns newfocus s :
  exists s', change_focus newfocus s = Ok tt s'.
Proof.
  destruct (change_focus_cases newfocus s) as [E|(_ & _ & E)]; eauto.
Qed.

(** focus_nearest returns, or raises from its main loop because the
    distance function fails on an admissible region. *)
Lemma focus_nearest_result_cases cfg from_x0 from_y0 from_x1 from_y1
    to_x0 to_y0 to_x1 to_y1 line_dist condition xmul ymul wmul hmul s :
  (exists s',
      focus_nearest cfg from_x0 from_y0 from_x1 from_y1 to_x0 to_y0 to_x1 to_y1
        line_dist condition xmul ymul wmul hmul s = Ok tt s') \/
  (focus_nearest cfg from_x0 from_y0 from_x1 from_y1 to_x0 to_y0 to_x1 to_y1
     line_dist condition xmul ymul wmul hmul s = Raise AssertionError s /\
   exists current from_focus from_x g,
      focused s = Some current /\
      find_current (focus_list s) current = Some from_focus /\
      x from_focus = Some from_x /\
      g ∈ focus_list s /\ admissible from_focus condition g /\
      candidate_dist
        (from_x + w from_focus * from_x0)
        (y from_focus + h from_focus * from_y0)
        (from_x + w from_focus * from_x1)
        (y from_focus + h from_focus * from_y1)
        to_x0 to_y0 to_x1 to_y1 line_dist g = None).
Proof.
  destruct (focused s) as [c|] eqn:Hc.
  2:{ left. unfold focus_nearest, bind, get_focus_list, get_focused.
      destruct (focus_list s) as [|first rest]; [eauto|].
      rewrite Hc. apply change_focus_returns. }
  destruct (find_current (focus_list s) c) as [ff|] eqn:Hf.
  2:{ left. unfold focus_nearest, bind, get_focus_list, get_focused.
      destruct (focus_list s) as [|first rest]; [eauto|].
      rewrite Hc, Hf. apply change_focus_returns. }
  destruct (x ff) as [fx|] eqn:Hx.
  2:{ left. unfold focus_nearest, bind, get_focus_list, get_focused.
      destruct (focus_list s) as [|first rest]; [eauto|].
      rewrite Hc, Hf, Hx. unfold focus_extreme, bind, get_focus_list.
      destruct (extreme_loop _ _ _ _ _ _ _); [apply change_focus_returns|eauto]. }
  rewrite (focus_nearest_main_loop cfg from_x0 from_y0 from_x1 from_y1
             to_x0 to_y0 to_x1 to_y1 line_dist condition
             xmul ymul wmul hmul s c ff fx Hc Hf Hx).
  destruct (nearest_loop (focus_list s) ff _ _ _ _ _ _ _ _ _ _ _)
    as [r|] eqn:Hloop.
  - left. destruct (or_else (new_focus r) (placeless r));
      [apply change_focus_returns|eauto].
  - right. split; [reflexivity|].
    apply nearest_loop_none_iff in Hloop as (g & Hin & Hg & Hnone).
    exists c, ff, fx, g.
    repeat (split; [first [reflexivity|assumption]|]). exact Hnone.
Qed.

(** X19.  focus_nearest raises only from its main loop, and exactly
    when the distance function fails on an admissible region; the
    exception is then the AssertionError of the distance function, and
    the state is as it was. *)
Theorem focus_nearest_raises_iff (cfg : Config)
    (from_x0 from_y0 from_x1 from_y1 to_x0 to_y0 to_x1 to_y1 : Q)
    (line_dist : LineDist) (condition : Focus -> Focus -> bool)
    (xmul ymul wmul hmul : Q) (s : State) :
  let result :=
    focus_nearest cfg from_x0 from_y0 from_x1 from_y1 to_x0 to_y0 to_x1 to_y1
      line_dist condition xmul ymul wmul hmul s in
  ((exists s', result = Ok tt s') \/ result = Raise AssertionError s) /\
  ((exists e s', result = Raise e s') <->
   exists current from_focus from_x g,
     focused s = Some current /\
     find_current (focus_list s) current = Some from_focus /\
     x from_focus = Some from_x /\
     g ∈ focus_list s /\ admissible from_focus condition g /\
     candidate_dist
       (from_x + w from_focus * from_x0) (y from_focus + h from_focus * from_y0)
       (from_x + w from_focus * from_x1) (y from_focus + h from_focus * from_y1)
       to_x0 to_y0 to_x1 to_y1 line_dist g = None).
Proof.
  intros result.
  destruct (focus_nearest_result_cases cfg from_x0 from_y0 from_x1 from_y1
              to_x0 to_y0 to_x1 to_y1 line_dist condition
              xmul ymul wmul hmul s) as [[s' E] | [E Hfail]];
    fold result in E.
  - split; [left; eauto|]. split.
    + intros (e & s'' & E'). congruence.
    + intros (c & ff & fx & g & Hc & Hf & Hx & Hin & Hg & Hnone). exfalso.
      unfold result in E.
      rewrite (focus_nearest_main_loop cfg from_x0 from_y0 from_x1 from_y1
                 to_x0 to_y0 to_x1 to_y1 line_dist condition
                 xmul ymul wmul hmul s c ff fx Hc Hf Hx) in E.
      rewrite (proj2 (nearest_loop_none_iff ff _ _ _ _ _ _ _ _ _ _ _ _))
        in E by eauto.
      discriminate E.
  - split; [right; exact E|]. split.
    + intros _. exact Hfail.
    + intros _. eauto.
Qed.


(** ** focus_nearest: the other ways out *)

Lemma find_current_none fl current :
  (forall f, f ∈ fl -> widget f <> current) -> find_current fl current = None.
Proof.
  induction fl as [|f0 fl IH]; intros Hno; simpl; [reflexivity|].
  rewrite (proj2 (Nat.eqb_neq _ _)) by (apply Hno; left).
  apply IH. intros f Hf. apply Hno. right. exact Hf.
Qed.

Lemma find_current_first l1 ff l2 current :
  widget ff = current ->
  (forall f, f ∈ l1 -> widget f <> current) ->
  find_current (l1 ++ ff :: l2) current = Some ff.
Proof.
  intros Hff. induction l1 as [|f0 l1 IH]; intros Hno; simpl.
  - rewrite (proj2 (Nat.eqb_eq _ _) Hff). reflexivity.
  - rewrite (proj2 (Nat.eqb_neq _ _)) by (apply Hno; left).
    apply IH. intros f Hf. apply Hno. right. exact Hf.
Qed.

(** X20.  The ways out of focus_nearest before its main loop, whatever
    the direction.  With an empty focus list nothing happens.  With no
    focused widget, or with a focused widget that no region of the list
    belongs to, the first region of the list is passed to change_focus.
    When the first region of the focused widget has no place, the call is
    the call of focus_extreme with the four multipliers. *)
Theorem focus_nearest_fallbacks (cfg : Config)
    (from_x0 from_y0 from_x1 from_y1 to_x0 to_y0 to_x1 to_y1 : Q)
    (line_dist : LineDist) (condition : Focus -> Focus -> bool)
    (xmul ymul wmul hmul : Q) (s : State) :
  let result :=
    focus_nearest cfg from_x0 from_y0 from_x1 from_y1 to_x0 to_y0 to_x1 to_y1
      line_dist condition xmul ymul wmul hmul s in
  (focus_list s = [] -> result = Ok tt s) /\
  (forall first rest,
      focus_list s = first :: rest ->
      focused s = None \/
      (exists c, focused s = Some c /\
                 forall f, f ∈ focus_list s -> widget f <> c) ->
      result = change_focus (Some first) s) /\
  (forall c l1 ff l2,
      focused s = Some c ->
      focus_list s = l1 ++ ff :: l2 ->
      widget ff = c ->
      (forall f, f ∈ l1 -> widget f <> c) ->
      x ff = None ->
      result = focus_extreme xmul ymul wmul hmul s).
Proof.
  intros result. unfold result, focus_nearest, bind, get_focus_list, get_focused.
  split; [|split].
  - intros ->. reflexivity.
  - intros first rest Hfl [Hnone|(c & Hc & Hstale)].
    + rewrite Hfl, Hnone. reflexivity.
    + pose proof (find_current_none _ c Hstale) as Hnone.
      rewrite Hfl in *. rewrite Hc, Hnone. reflexivity.
  - intros c l1 ff l2 Hc Hfl Hw Hbefore Hx.
    pose proof (find_current_first l1 ff l2 c Hw Hbefore) as Hfind.
    rewrite <- Hfl in Hfind.
    destruct (focus_list s) as [|first rest];
      [destruct l1; discriminate Hfl|].
    cbv beta iota. rewrite Hc, Hfind, Hx. reflexivity.
Qed.

(** ** Handling events without an exception *)

Lemma handlers_keep_focus_list cfg :
  (forall ev s, focus_list (state_of (mouse_handler ev s)) = focus_list s) /\
  (forall from_x0 from_y0 from_x1 from_y1 to_x0 to_y0 to_x1 to_y1
          line_dist condition xmul ymul wmul hmul s,
      focus_list
        (state_of (focus_nearest cfg from_x0 from_y0 from_x1 from_y1
                     to_x0 to_y0 to_x1 to_y1 line_dist condition
                     xmul ymul wmul hmul s)) = focus_list s).
Proof.
  split.
  - intros ev s.
    apply (mouse_handler_keeps (fun s1 s2 => focus_list s2 = focus_list s1)).
    + intros f s1 _. apply change_focus_registry_kept.
    + intros s1. apply change_focus_registry_kept.
  - intros. 
    apply (focus_nearest_keeps (fun s1 s2 => focus_list s2 = focus_list s1)).
    + reflexivity.
    + intros f s1 _. apply change_focus_registry_kept.
Qed.

(** With no negative size, the two distance functions return on the
    anchor segments of any two regions with a place. *)
Lemma direction_returns cfg s
    (from_x0 from_y0 from_x1 from_y1 to_x0 to_y0 to_x1 to_y1 : Q)
    (line_dist : LineDist) condition xmul ymul wmul hmul :
  no_negative_size (focus_list s) ->
  (forall ff fx g,
      ff ∈ focus_list s -> x ff = Some fx ->
      g ∈ focus_list s -> x g <> None ->
      0 <= w ff -> 0 <= h ff -> 0 <= w g -> 0 <= h g ->
      is_Some
        (candidate_dist
           (fx + w ff * from_x0) (y ff + h ff * from_y0)
           (fx + w ff * from_x1) (y ff + h ff * from_y1)
           to_x0 to_y0 to_x1 to_y1 line_dist g)) ->
  exists s',
    focus_nearest cfg from_x0 from_y0 from_x1 from_y1 to_x0 to_y0 to_x1 to_y1
      line_dist condition xmul ymul wmul hmul s = Ok tt s' /\
    focus_list s' = focus_list s.
Proof.
  intros Hsize Hdist.
  destruct (focus_nearest_result_cases cfg from_x0 from_y0 from_x1 from_y1
              to_x0 to_y0 to_x1 to_y1 line_dist condition
              xmul ymul wmul hmul s)
    as [[s' E] | [_ (c & ff & fx & g & Hc & Hf & Hx & Hin & Hg & Hnone)]].
  - exists s'. split; [exact E|].
    pose proof (proj2 (handlers_keep_focus_list cfg)
                  from_x0 from_y0 from_x1 from_y1 to_x0 to_y0 to_x1 to_y1
                  line_dist condition xmul ymul wmul hmul s) as Hkeep.
    rewrite E in Hkeep. exact Hkeep.
  - exfalso. apply find_current_in in Hf.
    destruct Hg as (_ & Hxg & _).
    destruct (Hsize ff Hf) as [Hw Hh]; [congruence|].
    destruct (Hsize g Hin Hxg) as [Hwg Hhg].
    destruct (Hdist ff fx g Hf Hx Hin Hxg Hw Hh Hwg Hhg) as [d Hd].
    congruence.
Qed.

(** X21.  When no region with a place has a negative width or height,
    handling an event never raises: the anchor segments that the four
    directions build from the fractions 0.1 and 0.9 are well ordered, so
    the assertion of the distance functions cannot fail. *)
Theorem event_handler_returns cfg ev s :
  no_negative_size (focus_list s) ->
  exists s', event_handler cfg ev s = Ok tt s'.
Proof.
  intros Hsize.
  assert (forall st, focus_list st = focus_list s ->
            exists s', focus_right cfg st = Ok tt s' /\
                       focus_list s' = focus_list s) as Hright.
  { intros st Hst. rewrite <- Hst. apply direction_returns.
    - rewrite Hst. exact Hsize.
    - intros ff fx g _ _ _ _ Hw Hh Hwg Hhg. unfold candidate_dist.
      destruct (verti_line_dist_returns cfg
                  (fx + w ff * (9#10)) (y ff + h ff * (1#10))
                  (fx + w ff * (9#10)) (y ff + h ff * (9#10))
                  (x_of g + w g * (1#10)) (y g + h g * (1#10))
                  (x_of g + w g * (1#10)) (y g + h g * (9#10)))
        as [d Hd]; [lra|lra|eauto]. }
  assert (forall st, focus_list st = focus_list s ->
            exists s', focus_left cfg st = Ok tt s' /\
                       focus_list s' = focus_list s) as Hleft.
  { intros st Hst. rewrite <- Hst. apply direction_returns.
    - rewrite Hst. exact Hsize.
    - intros ff fx g _ _ _ _ Hw Hh Hwg Hhg. unfold candidate_dist.
      destruct (verti_line_dist_returns cfg
                  (fx + w ff * (1#10)) (y ff + h ff * (1#10))
                  (fx + w ff * (1#10)) (y ff + h ff * (9#10))
                  (x_of g + w g * (9#10)) (y g + h g * (1#10))
                  (x_of g + w g * (9#10)) (y g + h g * (9#10)))
        as [d Hd]; [lra|lra|eauto]. }
  assert (forall st, focus_list st = focus_list s ->
            exists s', focus_up cfg st = Ok tt s' /\
                       focus_list s' = focus_list s) as Hup.
  { intros st Hst. rewrite <- Hst. apply direction_returns.
    - rewrite Hst. exact Hsize.
    - intros ff fx g _ _ _ _ Hw Hh Hwg Hhg. unfold candidate_dist.
      destruct (horiz_line_dist_returns cfg
                  (fx + w ff * (1#10)) (y ff + h ff * (1#10))
                  (fx + w ff * (9#10)) (y ff + h ff * (1#10))
                  (x_of g + w g * (1#10)) (y g + h g * (9#10))
                  (x_of g + w g * (9#10)) (y g + h g * (9#10)))
        as [d Hd]; [lra|lra|eauto]. }
  assert (forall st, focus_list st = focus_list s ->
            exists s', focus_down cfg st = Ok tt s' /\
                       focus_list s' = focus_list s) as Hdown.
  { intros st Hst. rewrite <- Hst. apply direction_returns.
    - rewrite Hst. exact Hsize.
    - intros ff fx g _ _ _ _ Hw Hh Hwg Hhg. unfold candidate_dist.
      destruct (horiz_line_dist_returns cfg
                  (fx + w ff * (1#10)) (y ff + h ff * (9#10))
                  (fx + w ff * (9#10)) (y ff + h ff * (9#10))
                  (x_of g + w g * (1#10)) (y g + h g * (1#10))
                  (x_of g + w g * (9#10)) (y g + h g * (1#10)))
        as [d Hd]; [lra|lra|eauto]. }
  assert (exists s0, match mouse ev with
                     | Some m => mouse_handler m
                     | None => ret tt
                     end s = Ok tt s0 /\ focus_list s0 = focus_list s)
    as (s0 & E0 & L0).
  { destruct (mouse ev) as [m|]; [|exists s; split; reflexivity].
    pose proof (proj1 (handlers_keep_focus_list cfg) m s) as Hkeep.
    unfold mouse_handler in *. destruct (pos m) as [px py].
    unfold bind, get_focus_list in *.
    destruct (change_focus_returns (mouse_loop (focus_list s) px py None) s)
      as [s0 E]. rewrite E in *. eauto. }
  assert (exists s1, (if mapped ev "focus_right"%string
                      then focus_right cfg else ret tt) s0 = Ok tt s1 /\
                     focus_list s1 = focus_list s) as (s1 & E1 & L1).
  { destruct (mapped ev "focus_right"%string); [apply Hright; exact L0|eauto]. }
  assert (exists s2, (if mapped ev "focus_left"%string
                      then focus_left cfg else ret tt) s1 = Ok tt s2 /\
                     focus_list s2 = focus_list s) as (s2 & E2 & L2).
  { destruct (mapped ev "focus_left"%string); [apply Hleft; exact L1|eauto]. }
  assert (exists s3, (if mapped ev "focus_up"%string
                      then focus_up cfg else ret tt) s2 = Ok tt s3 /\
                     focus_list s3 = focus_list s) as (s3 & E3 & L3).
  { destruct (mapped ev "focus_up"%string); [apply Hup; exact L2|eauto]. }
  assert (exists s4, (if mapped ev "focus_down"%string
                      then focus_down cfg else ret tt) s3 = Ok tt s4 /\
                     focus_list s4 = focus_list s) as (s4 & E4 & L4).
  { destruct (mapped ev "focus_down"%string); [apply Hdown; exact L3|eauto]. }
  exists s4. unfold event_handler, key_handler, bind.
  rewrite E0, E1, E2, E3. exact E4.
Qed.

Lemma four_regions_no_negative_size : no_negative_size four_regions.
Proof.
  intros f Hf _. unfold four_regions in Hf.
  repeat (apply elem_of_cons in Hf as [->|Hf];
          [split; vm_compute; discriminate|]).
  inversion Hf.
Defined.

Lemma event_handler_returns_witness :
  exists s',
    event_handler {| focus_crossrange_penalty := 1024 |}
      {| mouse := None; mapped := fun _ => true |}
      (showing four_regions (Some 12%nat)) = Ok tt s'.
Proof.
  apply (event_handler_returns {| focus_crossrange_penalty := 1024 |}
           {| mouse := None; mapped := fun _ => true |}
           (showing four_regions (Some 12%nat))).
  exact four_regions_no_negative_size.
Defined.

(** ** mouse_handler away from every region *)

(** X22.  With no grab, a pointer that no rectangle contains, on a list
    where every region has a place, takes the focus away: the focused
    widget receives unfocus, then the focus is written as none; nothing
    else changes. *)
Theorem mouse_handler_off_regions ev s c :
  grab s = None ->
  focused s = Some c ->
  (forall g, g ∈ focus_list s -> hit (fst (pos ev)) (snd (pos ev)) g = false) ->
  (forall g, g ∈ focus_list s -> x g <> None) ->
  mouse_handler ev s =
    Ok tt {| grab := None; focus_list := focus_list s; focused := None;
             full_focus_name := full_focus_name s; default := default s;
             calls := calls s ++ [CallUnfocus c; CallSetFocused None] |}.
Proof.
  intros Hg Hc Hmiss Hplaced.
  unfold mouse_handler. destruct (pos ev) as [px py]. simpl in Hmiss.
  unfold bind, get_focus_list.
  destruct (mouse_loop_miss (focus_list s) px py None Hmiss)
    as [(l1 & f & l2 & Hfl & Hf & _) | [_ E]].
  - exfalso. apply (Hplaced f); [|exact Hf].
    rewrite Hfl. apply elem_of_app. right. left.
  - rewrite E, change_focus_switch; [|exact Hg|rewrite Hc; discriminate].
    rewrite Hg, Hc. reflexivity.
Qed.

Lemma mouse_handler_off_regions_witness :
  mouse_handler {| pos := (100, 100) |}
    (showing [region 1 11 0 0 10 10; region 2 12 20 0 10 10] (Some 12%nat))
  = Ok tt {| grab := None;
             focus_list := [region 1 11 0 0 10 10; region 2 12 20 0 10 10];
             focused := None; full_focus_name := ∅;
             default := fun _ => false;
             calls := [CallUnfocus 12; CallSetFocused None] |}.
Proof.
  refine (mouse_handler_off_regions {| pos := (100, 100) |}
            (showing [region 1 11 0 0 10 10; region 2 12 20 0 10 10]
               (Some 12%nat)) 12%nat eq_refl eq_refl _ _).
  - intros g Hg. simpl in Hg.
    repeat (apply elem_of_cons in Hg as [->|Hg]; [vm_compute; reflexivity|]).
    inversion Hg.
  - intros g Hg. simpl in Hg.
    repeat (apply elem_of_cons in Hg as [->|Hg]; [discriminate|]).
    inversion Hg.
Defined.

(** * focus_nearest in the arithmetic of the machine *)

(** ** The exact machine is the first embedding *)

Lemma nearest_loop_on_exact fl from_focus fx0 fy0 fx1 fy1
    to_x0 to_y0 to_x1 to_y1 line_dist condition acc :
  nearest_loop_on exact fl from_focus fx0 fy0 fx1 fy1 to_x0 to_y0 to_x1 to_y1
    line_dist condition (nearest_on_exact acc) =
  option_map nearest_on_exact
    (nearest_loop fl from_focus fx0 fy0 fx1 fy1 to_x0 to_y0 to_x1 to_y1
       line_dist condition acc).
Proof.
  revert acc. induction fl as [|f fl IH]; intros acc; simpl; [reflexivity|].
  destruct (Nat.eqb (oid f) (oid from_focus)); [apply IH|].
  destruct (x f) as [fx|]; [|apply (IH {| placeless := Some f;
                                          new_focus := new_focus acc;
                                          new_focus_dist := new_focus_dist acc |})].
  destruct (condition from_focus f); simpl; [|apply IH].
  destruct (line_dist _ _ _ _ _ _ _ _) as [dist|]; [|reflexivity].
  destruct (Qltb dist (new_focus_dist acc)); [|apply IH].
  apply (IH {| placeless := placeless acc; new_focus := Some f;
               new_focus_dist := dist |}).
Qed.

(** On the exact machine the distance functions and focus_nearest are
    those of the first part. *)
Lemma focus_nearest_on_exact cfg :
  horiz_line_dist_on exact cfg = horiz_line_dist cfg /\
  verti_line_dist_on exact cfg = verti_line_dist cfg /\
  forall from_x0 from_y0 from_x1 from_y1 to_x0 to_y0 to_x1 to_y1
         line_dist condition xmul ymul wmul hmul s,
    focus_nearest_on exact cfg from_x0 from_y0 from_x1 from_y1
      to_x0 to_y0 to_x1 to_y1 line_dist condition xmul ymul wmul hmul s =
    focus_nearest cfg from_x0 from_y0 from_x1 from_y1
      to_x0 to_y0 to_x1 to_y1 line_dist condition xmul ymul wmul hmul s.
Proof.
  split; [reflexivity|]. split; [reflexivity|].
  intros. unfold focus_nearest_on, focus_nearest, bind, get_focus_list,
    get_focused.
  destruct (focus_list s) as [|first rest]; [reflexivity|].
  remember (first :: rest) as fl eqn:Efl.
  destruct (focused s) as [current|]; [|reflexivity].
  destruct (find_current fl current) as [from_focus|]; [|reflexivity].
  destruct (x from_focus) as [from_x|]; [|reflexivity].
  pose proof (nearest_loop_on_exact fl from_focus
                (from_x + w from_focus * from_x0)
                (y from_focus + h from_focus * from_y0)
                (from_x + w from_focus * from_x1)
                (y from_focus + h from_focus * from_y1)
                to_x0 to_y0 to_x1 to_y1 line_dist condition
                {| placeless := None; new_focus := None;
                   new_focus_dist := initial_focus_dist cfg |}) as Hloop.
  unfold nearest_on_exact, initial_focus_dist in Hloop.
  cbn [placeless new_focus new_focus_dist] in Hloop.
  unfold initial_focus_dist_on, initial_focus_dist.
  cbn [exact mnum mof madd mmul msquare].
  rewrite Hloop.
  destruct (nearest_loop _ _ _ _ _ _ _ _ _ _ _ _ _) as [r|]; reflexivity.
Qed.

(** ** The main loop on any machine *)

Lemma admissible_cases from_focus condition f :
  admissible from_focus condition f \/ ~ admissible from_focus condition f.
Proof.
  unfold admissible.
  destruct (Nat.eq_dec (oid f) (oid from_focus)) as [E|E]; [right; tauto|].
  destruct (x f) as [gx|]; [|right; intros (_ & H & _); congruence].
  destruct (condition from_focus f); [left|right].
  - split; [exact E|]. split; [discriminate|reflexivity].
  - intros (_ & _ & H). discriminate.
Qed.

Section NearestOnMachine.

Variable mach : Machine.
Variable from_focus : Focus.
Variables fx0 fy0 fx1 fy1 to_x0 to_y0 to_x1 to_y1 : mnum mach.
Variable line_dist :
  mnum mach -> mnum mach -> mnum mach -> mnum mach ->
  mnum mach -> mnum mach -> mnum mach -> mnum mach -> option (mnum mach).
Variable condition : Focus -> Focus -> bool.

Local Abbreviation cdist :=
  (candidate_dist_on mach fx0 fy0 fx1 fy1 to_x0 to_y0 to_x1 to_y1 line_dist).
Local Abbreviation adm := (admissible from_focus condition).
Local Abbreviation loop :=
  (fun fl acc =>
     nearest_loop_on mach fl from_focus fx0 fy0 fx1 fy1
       to_x0 to_y0 to_x1 to_y1 line_dist condition acc).

(** One iteration on a focus the loop does not measure. *)
Lemma nearest_loop_on_skip f fl acc :
  ~ adm f ->
  exists acc',
    loop (f :: fl) acc = loop fl acc' /\
    new_focus_on acc' = new_focus_on acc /\
    new_focus_dist_on acc' = new_focus_dist_on acc /\
    ((placeless_on acc' = placeless_on acc /\
      (x f = None -> oid f = oid from_focus)) \/
     (placeless_on acc' = Some f /\ x f = None /\ oid f <> oid from_focus)).
Proof.
  intros Hnot. simpl.
  destruct (Nat.eqb (oid f) (oid from_focus)) eqn:Hid.
  { apply Nat.eqb_eq in Hid. exists acc. repeat split; try reflexivity.
    left. split; [reflexivity|]. intros _. exact Hid. }
  apply Nat.eqb_neq in Hid.
  destruct (x f) as [gx|] eqn:Hx.
  - destruct (condition from_focus f) eqn:Hc; simpl.
    + exfalso. apply Hnot. split; [exact Hid|]. split; [congruence|exact Hc].
    + exists acc. repeat split; try reflexivity.
      left. split; [reflexivity|]. discriminate.
  - eexists. split; [reflexivity|]. split; [reflexivity|].
    split; [reflexivity|]. right. simpl. split; [reflexivity|].
    split; [reflexivity|exact Hid].
Qed.

(** One iteration on a focus the loop measures. *)
Lemma nearest_loop_on_measure f fl acc :
  adm f ->
  loop (f :: fl) acc =
    match cdist f with
    | None => None
    | Some dist =>
        if mlt mach dist (new_focus_dist_on acc)
        then loop fl {| placeless_on := placeless_on acc;
                        new_focus_on := Some f;
                        new_focus_dist_on := dist |}
        else loop fl acc
    end.
Proof.
  intros (Hid & Hx & Hc). simpl.
  rewrite (proj2 (Nat.eqb_neq _ _) Hid).
  unfold candidate_dist_on, x_of.
  destruct (x f) as [gx|]; [|congruence].
  rewrite Hc. reflexivity.
Qed.

(** The placeless focus the loop ends with. *)
Lemma nearest_loop_on_placeless fl acc r :
  loop fl acc = Some r ->
  (exists p, placeless_on r = Some p /\ p ∈ fl /\ x p = None /\
             oid p <> oid from_focus) \/
  (placeless_on r = placeless_on acc /\
   forall p, p ∈ fl -> x p = None -> oid p = oid from_focus).
Proof.
  revert acc. induction fl as [|f0 fl IH]; intros acc.
  - simpl. intros [= <-]. right. split; [reflexivity|].
    intros p Hp. inversion Hp.
  - assert (forall acc',
              loop fl acc' = Some r ->
              (placeless_on acc' = placeless_on acc /\
               (x f0 = None -> oid f0 = oid from_focus)) \/
              (placeless_on acc' = Some f0 /\ x f0 = None /\
               oid f0 <> oid from_focus) ->
              (exists p, placeless_on r = Some p /\ p ∈ f0 :: fl /\
                         x p = None /\ oid p <> oid from_focus) \/
              (placeless_on r = placeless_on acc /\
               forall p, p ∈ f0 :: fl -> x p = None ->
                         oid p = oid from_focus)) as Hstep.
    { intros acc' H Hacc'.
      destruct (IH acc' H) as [(p & Hp & Hin & Hxp)|[Hp Hall]].
      - left. exists p. split; [exact Hp|]. split; [right; exact Hin|exact Hxp].
      - destruct Hacc' as [[E Hf0]|(E & Hx & Hid)].
        + right. split; [congruence|].
          intros p Hin Hxp. apply elem_of_cons in Hin as [->|Hin];
            [apply Hf0; exact Hxp|apply Hall; assumption].
        + left. exists f0. split; [congruence|]. split; [left|].
          split; assumption. }
    destruct (admissible_cases from_focus condition f0) as [Hadm|Hnot].
    + rewrite (nearest_loop_on_measure f0 fl acc Hadm).
      destruct (cdist f0) as [dist|]; [|discriminate].
      assert (x f0 = None -> oid f0 = oid from_focus) as Hplaced
        by (intros Hx; destruct Hadm as (_ & Hne & _); congruence).
      destruct (mlt mach dist (new_focus_dist_on acc)); intros H;
        apply (Hstep _ H); left; split; [reflexivity|exact Hplaced| |exact Hplaced];
        reflexivity.
    + destruct (nearest_loop_on_skip f0 fl acc Hnot) as (acc' & -> & _ & _ & Hp).
      intros H. apply (Hstep acc' H). exact Hp.
Qed.

(** When no admissible focus compares below the distance the loop starts
    with, the loop returns with the new focus it started with.  Nothing
    is asked of the comparison. *)
Lemma nearest_loop_on_all_far fl acc :
  (forall f, f ∈ fl -> adm f ->
             exists d, cdist f = Some d /\
                       mlt mach d (new_focus_dist_on acc) = false) ->
  exists r,
    loop fl acc = Some r /\
    new_focus_on r = new_focus_on acc /\
    new_focus_dist_on r = new_focus_dist_on acc.
Proof.
  revert acc. induction fl as [|f0 fl IH]; intros acc Hfar.
  - exists acc. repeat split; reflexivity.
  - destruct (admissible_cases from_focus condition f0) as [Hadm|Hnot].
    + rewrite (nearest_loop_on_measure f0 fl acc Hadm).
      destruct (Hfar f0) as (d & -> & ->); [left|exact Hadm|].
      apply IH. intros f Hf. apply Hfar. right. exact Hf.
    + destruct (nearest_loop_on_skip f0 fl acc Hnot)
        as (acc' & -> & En & Ed & _).
      destruct (IH acc') as (r & E & Hn & Hd).
      * intros f Hf Hfa. rewrite Ed. apply Hfar; [right; exact Hf|exact Hfa].
      * exists r. split; [exact E|]. split; congruence.
Qed.

(** The numbers that are compared, and what is asked of [<] on them. *)
Variable known : mnum mach -> Prop.
Variable threshold : mnum mach.

Hypothesis lt_below_threshold :
  forall a b, known a -> known b ->
    mlt mach a b = true -> mlt mach b threshold = true ->
    mlt mach a threshold = true.

(** A new focus of the loop compares below the threshold, when the loop
    starts at the threshold or below it. *)
Lemma nearest_loop_on_below fl acc r :
  (forall g d, g ∈ fl -> adm g -> cdist g = Some d -> known d) ->
  new_focus_dist_on acc = threshold \/
  (known (new_focus_dist_on acc) /\
   mlt mach (new_focus_dist_on acc) threshold = true) ->
  loop fl acc = Some r ->
  new_focus_on r = new_focus_on acc \/
  exists f d, f ∈ fl /\ adm f /\ new_focus_on r = Some f /\
              cdist f = Some d /\ mlt mach d threshold = true.
Proof.
  revert acc. induction fl as [|f0 fl IH]; intros acc Hknown Hacc.
  - simpl. intros [= <-]. left. reflexivity.
  - assert (forall g d, g ∈ fl -> adm g -> cdist g = Some d -> known d)
      as Hknown' by (intros g d Hg; apply Hknown; right; exact Hg).
    assert (forall acc',
              new_focus_dist_on acc' = new_focus_dist_on acc ->
              new_focus_on acc' = new_focus_on acc ->
              loop fl acc' = Some r ->
              new_focus_on r = new_focus_on acc \/
              exists f d, f ∈ f0 :: fl /\ adm f /\ new_focus_on r = Some f /\
                          cdist f = Some d /\ mlt mach d threshold = true)
      as Hsame.
    { intros acc' Ed En H.
      destruct (IH acc' Hknown') as [E|(f & d & Hin & Hrest)];
        [rewrite Ed; exact Hacc|exact H| |].
      - left. congruence.
      - right. exists f, d. split; [right; exact Hin|exact Hrest]. }
    destruct (admissible_cases from_focus condition f0) as [Hadm|Hnot].
    + rewrite (nearest_loop_on_measure f0 fl acc Hadm).
      destruct (cdist f0) as [dist|] eqn:Hd; [|discriminate].
      destruct (mlt mach dist (new_focus_dist_on acc)) eqn:Hlt;
        [|apply Hsame; reflexivity].
      assert (known dist) as Hkd by (apply (Hknown f0 dist); [left| |]; assumption).
      assert (mlt mach dist threshold = true) as Hbelow.
      { destruct Hacc as [E|[Hk Hb]].
        - rewrite <- E. exact Hlt.
        - apply (lt_below_threshold dist (new_focus_dist_on acc)); assumption. }
      intros H. right.
      destruct (IH {| placeless_on := placeless_on acc;
                      new_focus_on := Some f0;
                      new_focus_dist_on := dist |} Hknown')
        as [E|(f & d & Hin & Hrest)];
        [right; split; assumption|exact H| |]; simpl in *.
      * exists f0, dist. split; [left|]. split; [exact Hadm|].
        split; [exact E|]. split; [exact Hd|exact Hbelow].
      * exists f, d. split; [right; exact Hin|exact Hrest].
    + destruct (nearest_loop_on_skip f0 fl acc Hnot)
        as (acc' & -> & En & Ed & _).
      apply Hsame; assumption.
Qed.

Hypothesis lt_trans :
  forall a b c, known a -> known b -> known c ->
    mlt mach a b = true -> mlt mach b c = true -> mlt mach a c = true.

Hypothesis lt_before :
  forall a b c, known a -> known b -> known c ->
    mlt mach a b = true -> mlt mach c b = false -> mlt mach a c = true.

(** The new focus of the loop is the first admissible focus at the least
    distance, when that distance compares below the one the loop started
    with. *)
Lemma nearest_loop_on_min fl acc r :
  (forall g d, g ∈ fl -> adm g -> cdist g = Some d -> known d) ->
  known (new_focus_dist_on acc) ->
  loop fl acc = Some r ->
  (new_focus_on r = new_focus_on acc /\
   forall g, g ∈ fl -> adm g ->
             exists dg, cdist g = Some dg /\
                        mlt mach dg (new_focus_dist_on acc) = false)
  \/
  (exists l1 f l2 d,
      fl = l1 ++ f :: l2 /\ adm f /\ new_focus_on r = Some f /\
      cdist f = Some d /\ mlt mach d (new_focus_dist_on acc) = true /\
      (forall g, g ∈ l1 -> adm g ->
                 exists dg, cdist g = Some dg /\ mlt mach d dg = true) /\
      (forall g, g ∈ l2 -> adm g ->
                 exists dg, cdist g = Some dg /\ mlt mach dg d = false)).
Proof.
  revert acc. induction fl as [|f0 fl IH]; intros acc Hknown Hacc.
  - simpl. intros [= <-]. left. split; [reflexivity|].
    intros g Hg. inversion Hg.
  - assert (forall g d, g ∈ fl -> adm g -> cdist g = Some d -> known d)
      as Hknown' by (intros g d Hg; apply Hknown; right; exact Hg).
    destruct (admissible_cases from_focus condition f0) as [Hadm|Hnot].
    + rewrite (nearest_loop_on_measure f0 fl acc Hadm).
      destruct (cdist f0) as [dist|] eqn:Hd; [|discriminate].
      assert (known dist) as Hkd
        by (apply (Hknown f0 dist); [left| |]; assumption).
      destruct (mlt mach dist (new_focus_dist_on acc)) eqn:Hlt.
      * intros H. right.
        destruct (IH {| placeless_on := placeless_on acc;
                        new_focus_on := Some f0;
                        new_focus_dist_on := dist |} Hknown' Hkd H)
          as [[Hn Hall] | (l1 & f & l2 & d & -> & Hf & Hn & Hfd & Hltd & H1 & H2)];
          simpl in *.
        -- exists [], f0, fl, dist. split; [reflexivity|].
           split; [exact Hadm|]. split; [exact Hn|]. split; [exact Hd|].
           split; [exact Hlt|]. split; [|exact Hall].
           intros g Hg. inversion Hg.
        -- assert (known d) as Hkdd.
           { apply (Hknown' f d); [|exact Hf|exact Hfd].
             apply elem_of_app. right. left. }
           exists (f0 :: l1), f, l2, d. split; [reflexivity|].
           split; [exact Hf|]. split; [exact Hn|]. split; [exact Hfd|].
           split; [apply (lt_trans d dist); assumption|]. split; [|exact H2].
           intros g Hg Hga. apply elem_of_cons in Hg as [->|Hg].
           ++ exists dist. split; [exact Hd|exact Hltd].
           ++ apply H1; assumption.
      * intros H.
        destruct (IH _ Hknown' Hacc H)
          as [[Hn Hall] | (l1 & f & l2 & d & -> & Hf & Hn & Hfd & Hltd & H1 & H2)].
        -- left. split; [exact Hn|].
           intros g Hg Hga. apply elem_of_cons in Hg as [->|Hg].
           ++ exists dist. split; [exact Hd|exact Hlt].
           ++ apply Hall; assumption.
        -- assert (known d) as Hkdd.
           { apply (Hknown' f d); [|exact Hf|exact Hfd].
             apply elem_of_app. right. left. }
           right. exists (f0 :: l1), f, l2, d. split; [reflexivity|].
           split; [exact Hf|]. split; [exact Hn|]. split; [exact Hfd|].
           split; [exact Hltd|]. split; [|exact H2].
           intros g Hg Hga. apply elem_of_cons in Hg as [->|Hg].
           ++ exists dist. split; [exact Hd|].
              apply (lt_before d (new_focus_dist_on acc)); assumption.
           ++ apply H1; assumption.
    + destruct (nearest_loop_on_skip f0 fl acc Hnot)
        as (acc' & -> & En & Ed & _).
      intros H.
      destruct (IH acc' Hknown')
        as [[Hn Hall] | (l1 & f & l2 & d & -> & Hf & Hn & Hfd & Hltd & H1 & H2)];
        [rewrite Ed; exact Hacc|exact H| |].
      * left. split; [congruence|].
        intros g Hg Hga. apply elem_of_cons in Hg as [->|Hg]; [contradiction|].
        rewrite <- Ed. apply Hall; assumption.
      * right. exists (f0 :: l1), f, l2, d. split; [reflexivity|].
        split; [exact Hf|]. split; [exact Hn|]. split; [exact Hfd|].
        split; [rewrite <- Ed; exact Hltd|]. split; [|exact H2].
        intros g Hg Hga. apply elem_of_cons in Hg as [->|Hg]; [contradiction|].
        apply H1; assumption.
Qed.

End NearestOnMachine.

(** ** focus_nearest on any machine *)

(** focus_nearest, once the region of the focused widget is found and has
    a place: the main loop, then the choice between its new focus and its
    placeless focus. *)
Lemma focus_nearest_on_main_loop mach cfg from_x0 from_y0 from_x1 from_y1
    to_x0 to_y0 to_x1 to_y1 line_dist condition xmul ymul wmul hmul
    s current from_focus from_x :
  focused s = Some current ->
  find_current (focus_list s) current = Some from_focus ->
  x from_focus = Some from_x ->
  focus_nearest_on mach cfg from_x0 from_y0 from_x1 from_y1
    to_x0 to_y0 to_x1 to_y1 line_dist condition xmul ymul wmul hmul s =
  match nearest_loop_on mach (focus_list s) from_focus
          (madd mach (mof mach from_x)
             (mmul mach (mof mach (w from_focus)) from_x0))
          (madd mach (mof mach (y from_focus))
             (mmul mach (mof mach (h from_focus)) from_y0))
          (madd mach (mof mach from_x)
             (mmul mach (mof mach (w from_focus)) from_x1))
          (madd mach (mof mach (y from_focus))
             (mmul mach (mof mach (h from_focus)) from_y1))
          to_x0 to_y0 to_x1 to_y1 line_dist condition
          {| placeless_on := None; new_focus_on := None;
             new_focus_dist_on := initial_focus_dist_on mach cfg |} with
  | None => Raise AssertionError s
  | Some r =>
      match or_else (new_focus_on r) (placeless_on r) with
      | Some nf => change_focus (Some nf) s
      | None => Ok tt s
      end
  end.
Proof.
  intros Hcur Hfind Hx.
  unfold focus_nearest_on, bind, get_focus_list, get_focused.
  destruct (focus_list s) as [|first rest] eqn:Hfl; [discriminate Hfind|].
  rewrite Hcur, Hfind, Hx.
  destruct (nearest_loop_on _ _ _ _ _ _ _ _ _ _ _ _ _ _) as [r|]; [|reflexivity].
  destruct (or_else (new_focus_on r) (placeless_on r)); reflexivity.
Qed.

(** ** The order of the doubles

    What the statements on the choice among candidates ask of [<] is true
    of the doubles: [<] is transitive, and a double below a second one is
    below every double that is not below that second one, unless that
    double is not a number (the one case of [c <= c] being false).  This
    is read off the specification of the comparison that the library
    gives ([SpecFloat.SFcompare]). *)

Ltac order_step :=
  match goal with
  | |- context [Z.compare ?a ?b] =>
      destruct (Z.compare_spec a b); subst
  | H : context [Z.compare ?a ?b] |- _ =>
      destruct (Z.compare_spec a b); subst
  | |- context [Pos.compare_cont Eq ?a ?b] =>
      change (Pos.compare_cont Eq a b) with (Pos.compare a b) in *;
      destruct (Pos.compare_spec a b); subst
  | H : context [Pos.compare_cont Eq ?a ?b] |- _ =>
      change (Pos.compare_cont Eq a b) with (Pos.compare a b) in *;
      destruct (Pos.compare_spec a b); subst
  end; cbn in *.

Ltac order_cases := intros; repeat order_step; try congruence; try lia.

Lemma SFltb_trans a b c :
  SpecFloat.SFltb a b = true -> SpecFloat.SFltb b c = true ->
  SpecFloat.SFltb a c = true.
Proof.
  unfold SpecFloat.SFltb, SpecFloat.SFcompare.
  destruct a as [[]|[]| |[] ma ea], b as [[]|[]| |[] mb eb],
           c as [[]|[]| |[] mc ec];
    try discriminate; try reflexivity; order_cases.
Qed.

Lemma SFltb_before a b c :
  SpecFloat.SFleb c c = true ->
  SpecFloat.SFltb a b = true -> SpecFloat.SFltb c b = false ->
  SpecFloat.SFltb a c = true.
Proof.
  unfold SpecFloat.SFltb, SpecFloat.SFleb, SpecFloat.SFcompare.
  destruct a as [[]|[]| |[] ma ea], b as [[]|[]| |[] mb eb],
           c as [[]|[]| |[] mc ec];
    try discriminate; try reflexivity; order_cases.
Qed.

(** [a < b] and [b < c] give [a < c]. *)
Lemma doubles_lt_trans square (a b c : mnum (doubles square)) :
  mlt (doubles square) a b = true -> mlt (doubles square) b c = true ->
  mlt (doubles square) a c = true.
Proof.
  cbn [mlt doubles]. rewrite !FloatAxioms.ltb_spec. apply SFltb_trans.
Qed.

(** [a < b] and [not (c < b)] give [a < c], when [c <= c]. *)
Lemma doubles_lt_before square (a b c : mnum (doubles square)) :
  mle (doubles square) c c = true ->
  mlt (doubles square) a b = true -> mlt (doubles square) c b = false ->
  mlt (doubles square) a c = true.
Proof.
  cbn [mlt mle doubles].
  rewrite !FloatAxioms.ltb_spec, FloatAxioms.leb_spec. apply SFltb_before.
Qed.

(** C10.  focus_nearest, called while the focused widget has a region
    with a place, in the arithmetic of any machine; the distance of a
    region is the number the call computes for it, and [<] is the
    comparison of the machine.  A region whose distance does not compare
    below (65536.0 * focus_crossrange_penalty) ** 2 is never the one
    chosen by the search: when [<] is transitive up to that threshold on
    the distances computed, whatever the call passes to change_focus is a
    region without a place, or an admissible region whose distance
    compares below the threshold.  And when the distance of no admissible
    region compares below the threshold, with nothing asked of [<], the
    call passes a region without a place to change_focus if the list has
    one other than the current region, and leaves the state as it is
    otherwise.  On doubles [<] is transitive ([doubles_lt_trans]). *)
Theorem focus_nearest_on_ignores_far_candidates (mach : Machine)
    (cfg : Config)
    (from_x0 from_y0 from_x1 from_y1 to_x0 to_y0 to_x1 to_y1 : mnum mach)
    (line_dist : mnum mach -> mnum mach -> mnum mach -> mnum mach ->
                 mnum mach -> mnum mach -> mnum mach -> mnum mach ->
                 option (mnum mach))
    (condition : Focus -> Focus -> bool)
    (xmul ymul wmul hmul : Q) (s : State)
    (current : Widget) (from_focus : Focus) (from_x : Q) :
  focused s = Some current ->
  find_current (focus_list s) current = Some from_focus ->
  x from_focus = Some from_x ->
  let dist :=
    candidate_dist_on mach
      (madd mach (mof mach from_x) (mmul mach (mof mach (w from_focus)) from_x0))
      (madd mach (mof mach (y from_focus))
         (mmul mach (mof mach (h from_focus)) from_y0))
      (madd mach (mof mach from_x) (mmul mach (mof mach (w from_focus)) from_x1))
      (madd mach (mof mach (y from_focus))
         (mmul mach (mof mach (h from_focus)) from_y1))
      to_x0 to_y0 to_x1 to_y1 line_dist in
  let threshold := initial_focus_dist_on mach cfg in
  let result :=
    focus_nearest_on mach cfg from_x0 from_y0 from_x1 from_y1
      to_x0 to_y0 to_x1 to_y1 line_dist condition xmul ymul wmul hmul s in
  ((forall a b,
       measured (focus_list s) from_focus condition dist a ->
       measured (focus_list s) from_focus condition dist b ->
       mlt mach a b = true -> mlt mach b threshold = true ->
       mlt mach a threshold = true) ->
   result = Raise AssertionError s \/
   result = Ok tt s \/
   exists nf,
     nf ∈ focus_list s /\
     result = change_focus (Some nf) s /\
     (x nf = None \/
      (admissible from_focus condition nf /\
       exists d, dist nf = Some d /\ mlt mach d threshold = true))) /\
  ((forall f, f ∈ focus_list s -> admissible from_focus condition f ->
              exists d, dist f = Some d /\ mlt mach d threshold = false) ->
   (exists p, p ∈ focus_list s /\ x p = None /\ oid p <> oid from_focus /\
              result = change_focus (Some p) s) \/
   ((forall p, p ∈ focus_list s -> x p = None -> oid p = oid from_focus) /\
    result = Ok tt s)).
Proof.
  intros Hcur Hfind Hx dist threshold result.
  assert (result = _) as Hrun
    by (apply (focus_nearest_on_main_loop mach cfg from_x0 from_y0 from_x1
                 from_y1 to_x0 to_y0 to_x1 to_y1 line_dist condition
                 xmul ymul wmul hmul s current from_focus from_x Hcur Hfind Hx)).
  split.
  - intros Htrans.
    destruct (nearest_loop_on mach (focus_list s) from_focus _ _ _ _ _ _ _ _ _ _ _)
      as [r|] eqn:Hloop; [|left; exact Hrun].
    right.
    destruct (nearest_loop_on_below mach from_focus
                (madd mach (mof mach from_x)
                   (mmul mach (mof mach (w from_focus)) from_x0))
                (madd mach (mof mach (y from_focus))
                   (mmul mach (mof mach (h from_focus)) from_y0))
                (madd mach (mof mach from_x)
                   (mmul mach (mof mach (w from_focus)) from_x1))
                (madd mach (mof mach (y from_focus))
                   (mmul mach (mof mach (h from_focus)) from_y1))
                to_x0 to_y0 to_x1 to_y1 line_dist condition
                (measured (focus_list s) from_focus condition dist)
                threshold Htrans (focus_list s)
                {| placeless_on := None; new_focus_on := None;
                   new_focus_dist_on := threshold |} r)
      as [Hnf|(f & d & Hin & Hadm & Hnf & Hd & Hlt)];
      [intros g d Hg Ha Hd; exists g; split; [exact Hg|split; [exact Ha|exact Hd]]
      |left; reflexivity|exact Hloop| |];
      simpl in Hnf; rewrite Hnf in Hrun; simpl in Hrun.
    + destruct (nearest_loop_on_placeless _ _ _ _ _ _ _ _ _ _ _ _ _ _ _ Hloop)
        as [(p & Hp & Hin & Hxp & _)|[Hp _]];
        simpl in Hp; rewrite Hp in Hrun.
      * right. exists p. split; [exact Hin|]. split; [exact Hrun|].
        left. exact Hxp.
      * left. exact Hrun.
    + right. exists f. split; [exact Hin|]. split; [exact Hrun|].
      right. split; [exact Hadm|]. exists d. split; [exact Hd|exact Hlt].
  - intros Hfar.
    destruct (nearest_loop_on_all_far mach from_focus _ _ _ _
                to_x0 to_y0 to_x1 to_y1 line_dist condition (focus_list s)
                {| placeless_on := None; new_focus_on := None;
                   new_focus_dist_on := threshold |} Hfar)
      as (r & Hloop & Hnf & _).
    unfold threshold in Hloop. rewrite Hloop in Hrun.
    simpl in Hnf. rewrite Hnf in Hrun. simpl in Hrun.
    destruct (nearest_loop_on_placeless _ _ _ _ _ _ _ _ _ _ _ _ _ _ _ Hloop)
      as [(p & Hp & Hin & Hxp & Hid)|[Hp Hall]];
      simpl in Hp; rewrite Hp in Hrun.
    + left. exists p. repeat (split; [assumption|]). exact Hrun.
    + right. split; [exact Hall|exact Hrun].
Qed.

(** The right key in double arithmetic, from a focused region at
    (0,0,10,10), with a single other region 100000 pixels to the right
    and a penalty of 1: the region is admissible, its distance 99992 ** 2
    does not compare below 65536 ** 2, and the focus stays where it is. *)
Lemma focus_nearest_on_ignores_far_candidates_witness :
  focus_right_on binary64 {| focus_crossrange_penalty := 1 |}
    (showing [region 1 11 0 0 10 10; region 2 12 100000 0 10 10] (Some 11%nat))
  = Ok tt
    (showing [region 1 11 0 0 10 10; region 2 12 100000 0 10 10] (Some 11%nat)).
Proof.
  destruct (focus_nearest_on_ignores_far_candidates binary64
              {| focus_crossrange_penalty := 1 |}
              (mof binary64 (9#10)) (mof binary64 (1#10))
              (mof binary64 (9#10)) (mof binary64 (9#10))
              (mof binary64 (1#10)) (mof binary64 (1#10))
              (mof binary64 (1#10)) (mof binary64 (9#10))
              (verti_line_dist_on binary64 {| focus_crossrange_penalty := 1 |})
              (fun old new => Qleb (x_of old + w old) (x_of new))
              (-1) 0 0 0
              (showing [region 1 11 0 0 10 10; region 2 12 100000 0 10 10]
                 (Some 11%nat))
              11%nat (region 1 11 0 0 10 10) 0
              eq_refl eq_refl eq_refl) as [_ Hfar].
  destruct Hfar as [(p & Hin & Hxp & _) | [_ E]].
  - intros f Hin Hadm. simpl in Hin.
    apply elem_of_cons in Hin as [->|Hin].
    { destruct Hadm as [Hid _]. exfalso. apply Hid. reflexivity. }
    apply elem_of_cons in Hin as [->|Hin]; [|inversion Hin].
    eexists. split; vm_compute; reflexivity.
  - exfalso. simpl in Hin.
    apply elem_of_cons in Hin as [->|Hin]; [discriminate Hxp|].
    apply elem_of_cons in Hin as [->|Hin]; [discriminate Hxp|].
    inversion Hin.
  - exact E.
Defined.

(** Rounding decides at the threshold.  From a focused region at
    (0,0,1,10), the region at (65536,0,9,10) is at the exact distance
    65536 ** 2, the threshold for a penalty of 1, and the exact machine
    passes it over; in double arithmetic its anchor 65536 + 9 * 0.1 is
    rounded, its distance compares below the threshold, and the right key
    focuses it. *)
Example focus_right_at_the_threshold :
  let cfg := {| focus_crossrange_penalty := 1 |} in
  let s := showing [region 1 11 0 0 1 10; region 2 12 65536 0 9 10]
             (Some 11%nat) in
  focused (state_of (focus_right_on binary64 cfg s)) = Some 12%nat /\
  focused (state_of (focus_right_on exact cfg s)) = Some 11%nat.
Proof. split; vm_compute; reflexivity. Qed.

(** X18.  focus_nearest, called while the focused widget has a region
    with a place, in the arithmetic of any machine, when the distance
    function fails on no admissible region and [<] orders the threshold
    and the distances computed (it is transitive on them, and a number
    below a second one is below every number that is not below that
    second one).  If the distance of some admissible region compares
    below the threshold, the region passed to change_focus is an
    admissible region at the least distance: its distance compares below
    that of every admissible region before it in the list, and the
    distance of no admissible region after it compares below its own.
    If not, the distance of no admissible region compares below the
    threshold.  On doubles [<] is such an order as long as none of these
    numbers is a NaN ([doubles_lt_trans], [doubles_lt_before]). *)
Theorem focus_nearest_on_selects_nearest (mach : Machine) (cfg : Config)
    (from_x0 from_y0 from_x1 from_y1 to_x0 to_y0 to_x1 to_y1 : mnum mach)
    (line_dist : mnum mach -> mnum mach -> mnum mach -> mnum mach ->
                 mnum mach -> mnum mach -> mnum mach -> mnum mach ->
                 option (mnum mach))
    (condition : Focus -> Focus -> bool)
    (xmul ymul wmul hmul : Q) (s : State)
    (current : Widget) (from_focus : Focus) (from_x : Q) :
  focused s = Some current ->
  find_current (focus_list s) current = Some from_focus ->
  x from_focus = Some from_x ->
  let dist :=
    candidate_dist_on mach
      (madd mach (mof mach from_x) (mmul mach (mof mach (w from_focus)) from_x0))
      (madd mach (mof mach (y from_focus))
         (mmul mach (mof mach (h from_focus)) from_y0))
      (madd mach (mof mach from_x) (mmul mach (mof mach (w from_focus)) from_x1))
      (madd mach (mof mach (y from_focus))
         (mmul mach (mof mach (h from_focus)) from_y1))
      to_x0 to_y0 to_x1 to_y1 line_dist in
  let threshold := initial_focus_dist_on mach cfg in
  let known := fun v =>
    v = threshold \/ measured (focus_list s) from_focus condition dist v in
  (forall g, g ∈ focus_list s -> admissible from_focus condition g ->
             is_Some (dist g)) ->
  (forall a b c, known a -> known b -> known c ->
     mlt mach a b = true -> mlt mach b c = true -> mlt mach a c = true) ->
  (forall a b c, known a -> known b -> known c ->
     mlt mach a b = true -> mlt mach c b = false -> mlt mach a c = true) ->
  (exists l1 f l2 d,
      focus_list s = l1 ++ f :: l2 /\
      admissible from_focus condition f /\
      dist f = Some d /\ mlt mach d threshold = true /\
      (forall g, g ∈ l1 -> admissible from_focus condition g ->
                 exists dg, dist g = Some dg /\ mlt mach d dg = true) /\
      (forall g, g ∈ l2 -> admissible from_focus condition g ->
                 exists dg, dist g = Some dg /\ mlt mach dg d = false) /\
      focus_nearest_on mach cfg from_x0 from_y0 from_x1 from_y1
        to_x0 to_y0 to_x1 to_y1 line_dist condition xmul ymul wmul hmul s
        = change_focus (Some f) s)
  \/
  (forall g, g ∈ focus_list s -> admissible from_focus condition g ->
             exists dg, dist g = Some dg /\ mlt mach dg threshold = false).
Proof.
  intros Hcur Hfind Hx dist threshold known Htotal Htrans Hbefore.
  rewrite (focus_nearest_on_main_loop mach cfg from_x0 from_y0 from_x1
             from_y1 to_x0 to_y0 to_x1 to_y1 line_dist condition
             xmul ymul wmul hmul s current from_focus from_x Hcur Hfind Hx).
  fold threshold.
  revert dist known Htotal Htrans Hbefore.
  generalize (madd mach (mof mach from_x)
                (mmul mach (mof mach (w from_focus)) from_x0)),
             (madd mach (mof mach (y from_focus))
                (mmul mach (mof mach (h from_focus)) from_y0)),
             (madd mach (mof mach from_x)
                (mmul mach (mof mach (w from_focus)) from_x1)),
             (madd mach (mof mach (y from_focus))
                (mmul mach (mof mach (h from_focus)) from_y1)).
  intros fx0 fy0 fx1 fy1 dist known Htotal Htrans Hbefore.
  assert (forall fl acc,
            (forall g, g ∈ fl -> admissible from_focus condition g ->
                       is_Some (dist g)) ->
            is_Some (nearest_loop_on mach fl from_focus fx0 fy0 fx1 fy1
                       to_x0 to_y0 to_x1 to_y1 line_dist condition acc))
    as Hreturns.
  { induction fl as [|f0 fl IH]; intros acc Hfl; [simpl; eauto|].
    assert (forall g, g ∈ fl -> admissible from_focus condition g ->
                      is_Some (dist g)) as Hfl'
      by (intros g Hg; apply Hfl; right; exact Hg).
    destruct (admissible_cases from_focus condition f0) as [Hadm|Hnot].
    - rewrite (nearest_loop_on_measure mach from_focus fx0 fy0 fx1 fy1
                 to_x0 to_y0 to_x1 to_y1 line_dist condition
                 f0 fl acc Hadm).
      destruct (Hfl f0) as [d Hd]; [left|exact Hadm|].
      unfold dist in Hd. rewrite Hd.
      destruct (mlt mach d (new_focus_dist_on acc)); apply IH; exact Hfl'.
    - destruct (nearest_loop_on_skip mach from_focus fx0 fy0 fx1 fy1
                  to_x0 to_y0 to_x1 to_y1 line_dist condition
                  f0 fl acc Hnot) as (acc' & E & _).
      cbv beta in E. rewrite E. apply IH. exact Hfl'. }
  destruct (Hreturns (focus_list s)
              {| placeless_on := None; new_focus_on := None;
                 new_focus_dist_on := threshold |} Htotal) as [r Hloop].
  rewrite Hloop.
  destruct (nearest_loop_on_min mach from_focus fx0 fy0 fx1 fy1
              to_x0 to_y0 to_x1 to_y1 line_dist condition
              known Htrans Hbefore (focus_list s)
              {| placeless_on := None; new_focus_on := None;
                 new_focus_dist_on := threshold |} r)
    as [[_ Hall] | (l1 & f & l2 & d & Hfl & Hf & Hn & Hfd & Hlt & H1 & H2)].
  - intros g d Hg Ha Hd. right. exists g.
    split; [exact Hg|split; [exact Ha|exact Hd]].
  - left. reflexivity.
  - exact Hloop.
  - right. exact Hall.
  - left. exists l1, f, l2, d. rewrite Hn. simpl.
    repeat (split; [assumption|]). reflexivity.
Qed.

(** Splits a number known to a search into the threshold and the distances
    of the regions of a list given in full, and computes each. *)
Ltac known_cases H :=
  let g := fresh "g" in
  let Hin := fresh "Hin" in
  let Hid := fresh "Hid" in
  let Hd := fresh "Hd" in
  destruct H as [H | (g & Hin & [Hid _] & Hd)];
  [ subst
  | simpl in Hin;
    repeat (apply elem_of_cons in Hin as [->|Hin];
            [ first [ exfalso; apply Hid; reflexivity
                    | vm_compute in Hd; injection Hd as <- ] | ]);
    try solve [inversion Hin] ].

(** The right key in double arithmetic with a penalty of 1024, from a
    focused region at (2,8,1,40) and two regions to its right, at
    (3,8,23,20) and at (4,8,13,13).  Their distances are computed as
    5.760000000000004 and 5.76: the second region compares below the
    first and is focused. *)
Lemma focus_nearest_on_selects_nearest_witness :
  focus_right_on binary64 {| focus_crossrange_penalty := 1024 |}
    (showing [region 1 11 2 8 1 40; region 2 12 3 8 23 20;
              region 3 13 4 8 13 13] (Some 11%nat))
  = change_focus (Some (region 3 13 4 8 13 13))
      (showing [region 1 11 2 8 1 40; region 2 12 3 8 23 20;
                region 3 13 4 8 13 13] (Some 11%nat)).
Proof.
  destruct (focus_nearest_on_selects_nearest binary64
              {| focus_crossrange_penalty := 1024 |}
              (mof binary64 (9#10)) (mof binary64 (1#10))
              (mof binary64 (9#10)) (mof binary64 (9#10))
              (mof binary64 (1#10)) (mof binary64 (1#10))
              (mof binary64 (1#10)) (mof binary64 (9#10))
              (verti_line_dist_on binary64
                 {| focus_crossrange_penalty := 1024 |})
              (fun old new => Qleb (x_of old + w old) (x_of new))
              (-1) 0 0 0
              (showing [region 1 11 2 8 1 40; region 2 12 3 8 23 20;
                        region 3 13 4 8 13 13] (Some 11%nat))
              11%nat (region 1 11 2 8 1 40) 2
              eq_refl eq_refl eq_refl)
    as [(l1 & f & l2 & d & Hfl & Hadm & Hd & _ & _ & Hafter & E) | Hfar].
  - intros g Hin _. simpl in Hin.
    repeat (apply elem_of_cons in Hin as [->|Hin];
            [eexists; vm_compute; reflexivity|]).
    inversion Hin.
  - intros a b c Ha Hb Hc.
    known_cases Ha; known_cases Hb; known_cases Hc; vm_compute; congruence.
  - intros a b c Ha Hb Hc.
    known_cases Ha; known_cases Hb; known_cases Hc; vm_compute; congruence.
  - simpl in Hfl.
    destruct Hadm as (Hid & _ & _).
    destruct l1 as [|r1 l1]; simpl in Hfl; injection Hfl as <- Hfl;
      [exfalso; apply Hid; reflexivity|].
    destruct l1 as [|r2 l1]; simpl in Hfl; injection Hfl as <- Hfl.
    { exfalso. subst l2.
      destruct (Hafter (region 3 13 4 8 13 13)) as (dg & Hdg & Hlt).
      - left.
      - split; [discriminate|split; [discriminate|reflexivity]].
      - vm_compute in Hd. injection Hd as <-.
        vm_compute in Hdg. injection Hdg as <-.
        vm_compute in Hlt. discriminate Hlt. }
    destruct l1 as [|r3 l1]; simpl in Hfl; injection Hfl as <- Hfl;
      [exact E|].
    destruct l1; discriminate Hfl.
  - exfalso.
    destruct (Hfar (region 3 13 4 8 13 13)) as (dg & Hd & Hle).
    + right. right. left.
    + split; [discriminate|split; [discriminate|reflexivity]].
    + vm_compute in Hd. injection Hd as <-.
      vm_compute in Hle. discriminate Hle.
Defined.

(** The same three regions on both machines: in exact arithmetic the two
    distances are equal, 144/25, and the first of the two regions is
    focused; in double arithmetic it is the second. *)
Example focus_right_at_a_tie :
  let cfg := {| focus_crossrange_penalty := 1024 |} in
  let s := showing [region 1 11 2 8 1 40; region 2 12 3 8 23 20;
                    region 3 13 4 8 13 13] (Some 11%nat) in
  focused (state_of (focus_right_on binary64 cfg s)) = Some 13%nat /\
  focused (state_of (focus_right_on exact cfg s)) = Some 12%nat.
Proof. split; vm_compute; reflexivity. Qed.
